(** * Far::TopologyRefiner: refinement hierarchy and feature-adaptive selection

    A shallow embedding of [opensubdiv/far/topologyRefiner.cpp]: the
    [FeatureMask] bit set, the face classifiers, the per-level selection
    driver and the refiner's level / refinement stacks with [RefineUniform],
    [RefineAdaptive] and [Unrefine].

    C++ [int] values are [Z]; the unsigned level counts of the option
    structs and loop counters over them are [nat]; vectors are lists, with
    an out-of-range subscript made explicit as [None]. *)

From Stdlib Require Import ZArith Bool String List Lia.
Import ListNotations.

Local Open Scope Z_scope.

(** ** Sdc: scheme types, traits and crease rules *)

Module Sdc.

(** [Sdc::SchemeType] (sdc/types.h). *)
Inductive SchemeType := SCHEME_BILINEAR | SCHEME_CATMARK | SCHEME_LOOP.

(** [Sdc::Split] (sdc/types.h). *)
Inductive Split := SPLIT_TO_QUADS | SPLIT_TO_TRIS.

Definition SchemeType_eqb (a b : SchemeType) : bool :=
  match a, b with
  | SCHEME_BILINEAR, SCHEME_BILINEAR
  | SCHEME_CATMARK, SCHEME_CATMARK
  | SCHEME_LOOP, SCHEME_LOOP => true
  | _, _ => false
  end.

(** [Sdc::Options]: stored by the refiner and handed to every refinement,
    never inspected by the code embedded here. *)
Record Options := { optionBits : Z }.

(** [Sdc::SchemeTypeTraits]: the static per-scheme lookups the refiner
    consults.  Their table lives in sdc/scheme.cpp, which is not part of
    the embedded source, so they are an interface here. *)
Class SchemeTypeTraits := {
  GetTopologicalSplitType  : SchemeType -> Split;
  GetRegularFaceSize       : SchemeType -> Z;
  GetLocalNeighborhoodSize : SchemeType -> Z
}.

(** Modelled from the spec: the crease rules smooth, dart, crease and
    corner of [Sdc::Crease::Rule] (sdc/crease.h is missing), as the
    one-bit masks that the classifiers' [&] tests combine. *)
Module Crease.
Definition RULE_UNKNOWN : Z := 0.
Definition RULE_SMOOTH  : Z := 1.
Definition RULE_DART    : Z := 2.
Definition RULE_CREASE  : Z := 4.
Definition RULE_CORNER  : Z := 8.
End Crease.

End Sdc.

(** ** Refinement options of the public interface (far/topologyRefiner.h) *)

Module UniformOptions.
Record t := {
  refinementLevel             : nat;
  orderVerticesFromFacesFirst : bool;
  fullTopologyInLastLevel     : bool
}.
(** [UniformOptions(int level)]. *)
Definition make (level : nat) : t :=
  {| refinementLevel := level;
     orderVerticesFromFacesFirst := false;
     fullTopologyInLastLevel := false |}.
End UniformOptions.

Module AdaptiveOptions.
Record t := {
  isolationLevel              : nat;
  secondaryLevel              : nat;
  useSingleCreasePatch        : bool;
  useInfSharpPatch            : bool;
  considerFVarChannels        : bool;
  orderVerticesFromFacesFirst : bool
}.
(** [AdaptiveOptions(int level)]. *)
Definition make (level : nat) : t :=
  {| isolationLevel := level;
     secondaryLevel := 15;
     useSingleCreasePatch := false;
     useInfSharpPatch := false;
     considerFVarChannels := false;
     orderVerticesFromFacesFirst := false |}.
End AdaptiveOptions.

(** ** internal::FeatureMask

  Eleven one-bit fields overlaid on one [unsigned int]: [Clear] and
  [IsEmpty] go through [*((int_type* )this)], so the mask is modelled as
  that word, the fields being its low bits in declaration order. *)

Module FeatureMask.

Definition int_type := Z.

Record t := mk { word : int_type }.

Definition field := Z.

Definition XOrdinaryInterior       : field := 0.
Definition XOrdinaryBoundary       : field := 1.
Definition SemiSharpSingle         : field := 2.
Definition SemiSharpNonSingle      : field := 3.
Definition InfSharpRegularCrease   : field := 4.
Definition InfSharpRegularCorner   : field := 5.
Definition InfSharpIrregularDart   : field := 6.
Definition InfSharpIrregularCrease : field := 7.
Definition InfSharpIrregularCorner : field := 8.
Definition NonManifold             : field := 9.
Definition FVarFeatures            : field := 10.

Definition fields : list field :=
  [ XOrdinaryInterior; XOrdinaryBoundary; SemiSharpSingle; SemiSharpNonSingle;
    InfSharpRegularCrease; InfSharpRegularCorner; InfSharpIrregularDart;
    InfSharpIrregularCrease; InfSharpIrregularCorner; NonManifold; FVarFeatures ].

(** Reading a field, and the assignment [m.f = b]. *)
Definition get (f : field) (m : t) : bool := Z.testbit (word m) f.

Definition set (f : field) (b : bool) (m : t) : t :=
  mk (if b then Z.setbit (word m) f else Z.clearbit (word m) f).

Definition selectXOrdinaryInterior       := get XOrdinaryInterior.
Definition selectXOrdinaryBoundary       := get XOrdinaryBoundary.
Definition selectSemiSharpSingle         := get SemiSharpSingle.
Definition selectSemiSharpNonSingle      := get SemiSharpNonSingle.
Definition selectInfSharpRegularCrease   := get InfSharpRegularCrease.
Definition selectInfSharpRegularCorner   := get InfSharpRegularCorner.
Definition selectInfSharpIrregularDart   := get InfSharpIrregularDart.
Definition selectInfSharpIrregularCrease := get InfSharpIrregularCrease.
Definition selectInfSharpIrregularCorner := get InfSharpIrregularCorner.
Definition selectNonManifold             := get NonManifold.
Definition selectFVarFeatures            := get FVarFeatures.

(** [void Clear() { *((int_type* )this) = 0; }] *)
Definition Clear (_ : t) : t := mk 0.

(** [bool IsEmpty() const { return *((int_type* )this) == 0; }] *)
Definition IsEmpty (m : t) : bool := word m =? 0.

(** [FeatureMask() { Clear(); }] *)
Definition default (uninitialized : t) : t := Clear uninitialized.

Section Initialize.
Context {traits : Sdc.SchemeTypeTraits}.

Definition InitializeFeatures (options : AdaptiveOptions.t)
           (subdType : Sdc.SchemeType) (m : t) : t :=
  let useSingleCreasePatch :=
    AdaptiveOptions.useSingleCreasePatch options &&
    (Sdc.GetRegularFaceSize subdType =? 4) in
  let m := set XOrdinaryInterior true m in
  let m := set XOrdinaryBoundary true m in
  let m := set SemiSharpSingle (negb useSingleCreasePatch) m in
  let m := set SemiSharpNonSingle true m in
  let m := set InfSharpRegularCrease
             (negb (AdaptiveOptions.useInfSharpPatch options || useSingleCreasePatch)) m in
  let m := set InfSharpRegularCorner
             (negb (AdaptiveOptions.useInfSharpPatch options)) m in
  let m := set InfSharpIrregularDart true m in
  let m := set InfSharpIrregularCrease true m in
  let m := set InfSharpIrregularCorner true m in
  let m := set NonManifold true m in
  set FVarFeatures (AdaptiveOptions.considerFVarChannels options) m.

(** [FeatureMask(Options const & options, Sdc::SchemeType sType)]: the
    fields are assigned over whatever the object's storage held. *)
Definition make (options : AdaptiveOptions.t) (sType : Sdc.SchemeType)
           (uninitialized : t) : t :=
  InitializeFeatures options sType uninitialized.
End Initialize.

Definition ReduceFeatures (options : AdaptiveOptions.t) (m : t) : t :=
  let m := set XOrdinaryInterior false m in
  let m := set XOrdinaryBoundary false m in
  if AdaptiveOptions.useInfSharpPatch options then
    let m := set InfSharpRegularCrease false m in
    let m := set InfSharpRegularCorner false m in
    let m := set InfSharpIrregularDart false m in
    set InfSharpIrregularCrease false m
  else m.

(** The masks the source ever builds: the two constructors, the three
    methods, and the one direct field write of [RefineAdaptive]
    ([selectFVarFeatures = false]); copies are the same value. *)
Inductive built {traits : Sdc.SchemeTypeTraits} : t -> Prop :=
  | built_default u : built (default u)
  | built_make o s u : built (make o s u)
  | built_Clear m : built m -> built (Clear m)
  | built_Initialize o s m : built m -> built (InitializeFeatures o s m)
  | built_Reduce o m : built m -> built (ReduceFeatures o m)
  | built_noFVar m : built m -> built (set FVarFeatures false m).

Definition allFlagsFalse (m : t) : Prop :=
  forall f, In f fields -> get f m = false.

(** The bits of the word above the eleven fields are zero. *)
Definition unusedBitsZero (m : t) : Prop :=
  forall bit, FVarFeatures < bit -> get bit m = false.

End FeatureMask.

(** ** Vtr: the collaborators the refiner drives

    Levels, refinements and the sparse selector are implemented outside the
    embedded source; a level is the record of the queries the refiner makes
    of it, and the split operation itself is an interface. *)

Module Vtr.

Definition Index := Z.

(** The fields of [Level::VTag] that the classifiers read; [_rule] is the
    four-bit combination of [Sdc::Crease::Rule] masks. *)
Record VTag := mkVTag {
  _nonManifold    : bool;
  _xordinary      : bool;
  _boundary       : bool;
  _corner         : bool;
  _infSharp       : bool;
  _semiSharp      : bool;
  _semiSharpEdges : bool;
  _rule           : Z;
  _incomplete     : bool;
  _infSharpEdges  : bool;
  _infIrregular   : bool
}.

Definition VTag_zero : VTag :=
  mkVTag false false false false false false false 0 false false false.

Definition VTag_or (a b : VTag) : VTag :=
  {| _nonManifold    := _nonManifold a    || _nonManifold b;
     _xordinary      := _xordinary a      || _xordinary b;
     _boundary       := _boundary a       || _boundary b;
     _corner         := _corner a         || _corner b;
     _infSharp       := _infSharp a       || _infSharp b;
     _semiSharp      := _semiSharp a      || _semiSharp b;
     _semiSharpEdges := _semiSharpEdges a || _semiSharpEdges b;
     _rule           := Z.lor (_rule a) (_rule b);
     _incomplete     := _incomplete a     || _incomplete b;
     _infSharpEdges  := _infSharpEdges a  || _infSharpEdges b;
     _infIrregular   := _infIrregular a   || _infIrregular b |}.

(** Modelled from the spec: [Level::VTag::BitwiseOr(vTags, size)]
    (vtr/level.cpp is missing), the bitwise combination of the first [size]
    per-corner tags, starting from [vTags[0]]. *)
Definition BitwiseOr (vTags : list VTag) (size : nat) : VTag :=
  match vTags with
  | [] => VTag_zero
  | t0 :: rest => fold_left VTag_or (firstn (size - 1) rest) t0
  end.

(** [Vtr::internal::Level], as the queries made of it. *)
Record Level := mkLevel {
  getDepth                   : Z;
  getNumVertices             : Z;
  getNumEdges                : Z;
  getNumFaces                : Z;
  getNumFaceVerticesTotal    : Z;
  getMaxValence              : Z;
  getNumFVarChannels         : Z;
  getNumFVarValues           : Z -> Z;
  getFVarLevel_isLinear      : Z -> bool;
  getFaceVertices            : Index -> list Index;
  getVertexFaces             : Index -> list Index;
  getFaceVTags               : Index -> list VTag;
  getVertexCompositeFVarVTag : Index -> Z -> VTag;
  isFaceHole                 : Index -> bool;
  isSingleCreasePatch        : Index -> bool;
  doesFaceFVarTopologyMatch  : Index -> Z -> bool
}.

(** [new Vtr::internal::Level]: a level with no components. *)
Definition Level_new : Level :=
  {| getDepth := 0; getNumVertices := 0; getNumEdges := 0; getNumFaces := 0;
     getNumFaceVerticesTotal := 0; getMaxValence := 0; getNumFVarChannels := 0;
     getNumFVarValues := fun _ => 0;
     getFVarLevel_isLinear := fun _ => true;
     getFaceVertices := fun _ => [];
     getVertexFaces := fun _ => [];
     getFaceVTags := fun _ => [];
     getVertexCompositeFVarVTag := fun _ _ => VTag_zero;
     isFaceHole := fun _ => false;
     isSingleCreasePatch := fun _ => false;
     doesFaceFVarTopologyMatch := fun _ _ => true |}.

(** [Refinement::Options]. *)
Record RefinementOptions := {
  _sparse          : bool;
  _faceVertsFirst  : bool;
  _minimalTopology : bool
}.

(** A [QuadRefinement] or [TriRefinement] between a parent and a child
    level.  [selectedFaces] are the parent faces marked through a
    [SparseSelector], in the order of the [selectFace] calls; [refinedWith]
    records the options of the [refine] call once it has run. *)
Record Refinement := mkRefinement {
  splitType     : Sdc.Split;
  parent        : Level;
  child         : Level;
  schemeOptions : Sdc.Options;
  selectedFaces : list Index;
  refinedWith   : option RefinementOptions
}.

(** [new QuadRefinement(parent, child, options)] / [new TriRefinement(...)]. *)
Definition Refinement_new (split : Sdc.Split) (parentLevel childLevel : Level)
           (options : Sdc.Options) : Refinement :=
  mkRefinement split parentLevel childLevel options [] None.

(** Modelled from the spec: [Refinement::getRegularFaceSize()]
    (vtr/refinement.h is missing): 4 for quad-split, 3 for triangle-split. *)
Definition getRegularFaceSize (r : Refinement) : Z :=
  match splitType r with
  | Sdc.SPLIT_TO_QUADS => 4
  | Sdc.SPLIT_TO_TRIS => 3
  end.

(** The split proper, [Refinement::refine], is outside the embedded source:
    it computes the child level from the refinement as set up so far. *)
Class Refine := {
  populateChild : Refinement -> RefinementOptions -> Level
}.

Definition refine {R : Refine} (r : Refinement) (options : RefinementOptions)
  : Refinement :=
  {| splitType := splitType r;
     parent := parent r;
     child := populateChild r options;
     schemeOptions := schemeOptions r;
     selectedFaces := selectedFaces r;
     refinedWith := Some options |}.

(** [Vtr::internal::SparseSelector]: it marks faces of its refinement's
    parent level.  Modelled from the spec: the selection is empty exactly
    when no face was registered (vtr/sparseSelector.h is missing). *)
Record SparseSelector := mkSelector { getRefinement : Refinement }.

Definition selectFace (face : Index) (s : SparseSelector) : SparseSelector :=
  let r := getRefinement s in
  mkSelector
    {| splitType := splitType r;
       parent := parent r;
       child := child r;
       schemeOptions := schemeOptions r;
       selectedFaces := selectedFaces r ++ [face];
       refinedWith := refinedWith r |}.

Definition isSelectionEmpty (s : SparseSelector) : bool :=
  match selectedFaces (getRefinement s) with
  | [] => true
  | _ :: _ => false
  end.

End Vtr.

(** ** Face classifiers for feature-adaptive selection *)

Import Vtr.

(** C++ truth value of an integer expression used as a condition. *)
Definition nonzero (z : Z) : bool := negb (z =? 0).

(** [vTag._rule & rule]. *)
Definition hasRule (vTag : VTag) (rule : Z) : bool :=
  nonzero (Z.land (_rule vTag) rule).

Definition doesInfSharpFaceHaveFeatures (compVTag : VTag)
           (featureMask : FeatureMask.t) : bool :=
  if _infIrregular compVTag then
    if hasRule compVTag Sdc.Crease.RULE_CORNER then
      FeatureMask.selectInfSharpIrregularCorner featureMask
    else if hasRule compVTag Sdc.Crease.RULE_CREASE then
      if _boundary compVTag
      then FeatureMask.selectXOrdinaryBoundary featureMask
      else FeatureMask.selectInfSharpIrregularCrease featureMask
    else if hasRule compVTag Sdc.Crease.RULE_DART then
      FeatureMask.selectInfSharpIrregularDart featureMask
    else false
  else if _boundary compVTag then
    if hasRule compVTag Sdc.Crease.RULE_CORNER then
      if _corner compVTag
      then false
      else FeatureMask.selectInfSharpRegularCorner featureMask
    else false
  else
    if hasRule compVTag Sdc.Crease.RULE_CORNER then
      FeatureMask.selectInfSharpRegularCorner featureMask
    else
      FeatureMask.selectInfSharpRegularCrease featureMask.

(** The aggregate tag of a face's corners on the main topology: the
    [BitwiseOr] of [getFaceVTags] over [fVerts.size()] corners. *)
Definition compFaceVTag (level : Level) (face : Index) : VTag :=
  BitwiseOr (getFaceVTags level face) (length (getFaceVertices level face)).

(** The block on extraordinary vertices returns true in two cases and
    falls through in every other; the third test below is the disjunction
    of the two, over the [fVerts.size()] first tags of [vTags]. *)
Definition doesFaceHaveFeatures (level : Level) (face : Index)
           (featureMask : FeatureMask.t) : bool :=
  if FeatureMask.IsEmpty featureMask then false else
  let fVerts := getFaceVertices level face in
  let vTags := getFaceVTags level face in
  let compFaceVTag := BitwiseOr vTags (length fVerts) in
  if _incomplete compFaceVTag then false else
  if _nonManifold compFaceVTag && FeatureMask.selectNonManifold featureMask
  then true else
  if _xordinary compFaceVTag && FeatureMask.selectXOrdinaryInterior featureMask
     && ((_rule compFaceVTag =? Sdc.Crease.RULE_SMOOTH)
         || ((getDepth level <? 2)
             && existsb (fun t => _xordinary t && (_rule t =? Sdc.Crease.RULE_SMOOTH))
                        (firstn (length fVerts) vTags)))
  then true else
  if _rule compFaceVTag =? Sdc.Crease.RULE_SMOOTH then false else
  if negb (hasRule compFaceVTag Sdc.Crease.RULE_SMOOTH)
  then true else
  if _semiSharp compFaceVTag || _semiSharpEdges compFaceVTag then
    if FeatureMask.selectSemiSharpSingle featureMask
       && FeatureMask.selectSemiSharpNonSingle featureMask
    then true
    else if isSingleCreasePatch level face
    then FeatureMask.selectSemiSharpSingle featureMask
    else FeatureMask.selectSemiSharpNonSingle featureMask
  else
  if _infSharp compFaceVTag || _infSharpEdges compFaceVTag
  then doesInfSharpFaceHaveFeatures compFaceVTag featureMask
  else false.

(** The aggregate tag of a face in a face-varying channel: the [BitwiseOr]
    of the composite face-varying tags of its corner vertices. *)
Definition compFVarVTag (level : Level) (face : Index) (fvarChannel : Z) : VTag :=
  let fVerts := getFaceVertices level face in
  let vTags := map (fun v => getVertexCompositeFVarVTag level v fvarChannel) fVerts in
  BitwiseOr vTags (length fVerts).

Definition doesFaceHaveDistinctFaceVaryingFeatures (level : Level) (face : Index)
           (featureMask : FeatureMask.t) (fvarChannel : Z) : bool :=
  let compVTag := compFVarVTag level face fvarChannel in
  if _nonManifold compVTag && FeatureMask.selectNonManifold featureMask
  then true else
  if _xordinary compVTag && FeatureMask.selectXOrdinaryInterior featureMask
  then true else
  if negb (hasRule compVTag Sdc.Crease.RULE_SMOOTH)
  then true else
  doesInfSharpFaceHaveFeatures compVTag featureMask.

(** ** The per-level selection driver *)

(** [for (x = 0; x < n; ++x)] over an [int] bound. *)
Definition upto (n : Z) : list Z := map Z.of_nat (seq 0 (Z.to_nat n)).

(** The channel loop of the driver, [selectFace] being its loop-carried
    flag: [for (channel = 0; !selectFace && channel < numFVarChannels; ...)]. *)
Fixpoint selectFaceInFVarChannels (level : Level) (face : Index)
         (featureMask : FeatureMask.t) (channels : list Z) (selectFace : bool)
  : bool :=
  match channels with
  | [] => selectFace
  | channel :: rest =>
      if selectFace then selectFace else
      selectFaceInFVarChannels level face featureMask rest
        (if negb (doesFaceFVarTopologyMatch level face channel)
         then doesFaceHaveDistinctFaceVaryingFeatures level face featureMask channel
         else selectFace)
  end.

(** The feature test of the loop body, after the irregular-face case. *)
Definition faceHasSelectedFeatures (level : Level) (face : Index)
           (featureMask : FeatureMask.t) (numFVarChannels : Z) : bool :=
  let selectFace := doesFaceHaveFeatures level face featureMask in
  if negb selectFace && FeatureMask.selectFVarFeatures featureMask
  then selectFaceInFVarChannels level face featureMask (upto numFVarChannels) selectFace
  else selectFace.

(** Selecting every face incident on every vertex of an irregular face. *)
Definition selectIncidentFaces (level : Level) (faceVerts : list Index)
           (selector : SparseSelector) : SparseSelector :=
  fold_left
    (fun sel v => fold_left (fun sel' f => selectFace f sel') (getVertexFaces level v) sel)
    faceVerts selector.

(** One iteration of the loop over the faces of the parent level. *)
Definition selectFeatureAdaptiveFace (level : Level) (featureMask : FeatureMask.t)
           (selectIrregularFaces : bool) (numFVarChannels regularFaceSize neighborhood : Z)
           (selector : SparseSelector) (face : Index) : SparseSelector :=
  if isFaceHole level face then selector else
  let faceVerts := getFaceVertices level face in
  if selectIrregularFaces && negb (Z.of_nat (length faceVerts) =? regularFaceSize) then
    if neighborhood =? 0
    then selectFace face selector
    else selectIncidentFaces level faceVerts selector
  else
    if faceHasSelectedFeatures level face featureMask numFVarChannels
    then selectFace face selector
    else selector.

(** The faces of a level that share a vertex, by the level's adjacency,
    with the given face. *)
Definition oneRing (level : Level) (face : Index) : list Index :=
  flat_map (getVertexFaces level) (getFaceVertices level face).

(** [numFVarChannels] of the driver: the channels it inspects. *)
Definition inspectedFVarChannels (level : Level) (featureMask : FeatureMask.t) : Z :=
  if FeatureMask.selectFVarFeatures featureMask
  then getNumFVarChannels level else 0.

(** The faces one iteration of the driver's loop registers, in order. *)
Definition facesRegisteredFor (level : Level) (featureMask : FeatureMask.t)
           (selectIrregularFaces : bool) (numFVarChannels regularFaceSize neighborhood : Z)
           (face : Index) : list Index :=
  selectedFaces
    (getRefinement
       (selectFeatureAdaptiveFace level featureMask selectIrregularFaces
          numFVarChannels regularFaceSize neighborhood
          (mkSelector (Refinement_new Sdc.SPLIT_TO_QUADS level Level_new
                         (Sdc.Build_Options 0)))
          face)).

Section Selection.
Context {traits : Sdc.SchemeTypeTraits}.

(** [TopologyRefiner::selectFeatureAdaptiveComponents]; of the refiner it
    reads [_subdivType] only. *)
Definition selectFeatureAdaptiveComponents (subdivType : Sdc.SchemeType)
           (selector : SparseSelector) (featureMask : FeatureMask.t)
  : SparseSelector :=
  let level := parent (getRefinement selector) in
  let levelDepth := getDepth level in
  let selectIrregularFaces := levelDepth =? 0 in
  if FeatureMask.IsEmpty featureMask && negb selectIrregularFaces then selector else
  let numFVarChannels := inspectedFVarChannels level featureMask in
  let regularFaceSize := getRegularFaceSize (getRefinement selector) in
  let neighborhood := Sdc.GetLocalNeighborhoodSize subdivType in
  fold_left
    (selectFeatureAdaptiveFace level featureMask selectIrregularFaces
       numFVarChannels regularFaceSize neighborhood)
    (upto (getNumFaces level)) selector.

End Selection.

(** ** Far::TopologyRefiner *)

(** [Far::ErrorType] (far/error.h). *)
Inductive ErrorType :=
| FAR_NO_ERROR
| FAR_FATAL_ERROR
| FAR_INTERNAL_CODING_ERROR
| FAR_CODING_ERROR
| FAR_RUNTIME_ERROR.

(** What a call does besides updating the refiner: the errors it reports
    through [Far::Error] and the objects it allocates, refines and deletes.
    Inside the refinement loops the number is the loop counter [i]; in
    [Unrefine] it is the subscript of the deleted vector element. *)
Inductive Event :=
| Error (err : ErrorType) (message : String.string)
| NewLevel (i : nat)
| NewRefinement (i : nat) (split : Sdc.Split)
| SelectComponents (i : nat)
| RefineWith (i : nat) (options : RefinementOptions)
| DeleteRefinement (i : nat)
| DeleteLevel (i : nat).

(** The loop counter an event of a refinement loop belongs to. *)
Definition eventPass (e : Event) : option nat :=
  match e with
  | Error _ _ => None
  | NewLevel i | NewRefinement i _ | SelectComponents i | RefineWith i _
  | DeleteRefinement i | DeleteLevel i => Some i
  end.

(** The passes of a refinement loop that went through with [refine]: one
    [RefineWith] event each. *)
Definition isRefineWith (e : Event) : bool :=
  match e with
  | RefineWith _ _ => true
  | _ => false
  end.

Definition refinedPasses (events : list Event) : nat :=
  length (filter isRefineWith events).

(** An element of [_farLevels].  Its three pointers are the positions of
    the pointed-to objects in [_refinements] and [_levels], [None] being the
    null pointer. *)
Record FarLevel := mkFarLevel {
  _refToParent : option nat;
  _level       : option nat;
  _refToChild  : option nat
}.

Definition FarLevel_null : FarLevel := mkFarLevel None None None.

(** The members of [TopologyRefiner]; the flags and [_maxLevel] are
    unsigned bit-fields there. *)
Record TopologyRefiner := mkRefiner {
  _subdivType        : Sdc.SchemeType;
  _subdivOptions     : Sdc.Options;
  _isUniform         : bool;
  _hasHoles          : bool;
  _maxLevel          : nat;
  _uniformOptions    : UniformOptions.t;
  _adaptiveOptions   : AdaptiveOptions.t;
  _totalVertices     : Z;
  _totalEdges        : Z;
  _totalFaces        : Z;
  _totalFaceVertices : Z;
  _maxValence        : Z;
  _levels            : list Level;
  _refinements       : list Refinement;
  _farLevels         : list FarLevel
}.

(** *** Vectors and the undefined subscript *)

Notation "x <- e ;; k" :=
  (match e with Some x => k | None => None end)
  (at level 61, e at next level, right associativity).

(** [v.resize(n)]. *)
Definition resize {A} (n : nat) (d : A) (v : list A) : list A :=
  firstn n v ++ repeat d (n - length v).

(** [v[i] = f(v[i])]; undefined when [i] is out of range. *)
Definition assign {A} (v : list A) (i : nat) (f : A -> A) : option (list A) :=
  x <- nth_error v i ;;
  Some (firstn i v ++ f x :: skipn (S i) v).

(** *** Field updates *)

Definition set_inventory (tv te tf tfv mv : Z) (r : TopologyRefiner) : TopologyRefiner :=
  mkRefiner (_subdivType r) (_subdivOptions r) (_isUniform r) (_hasHoles r)
    (_maxLevel r) (_uniformOptions r) (_adaptiveOptions r)
    tv te tf tfv mv (_levels r) (_refinements r) (_farLevels r).

Definition set_levels (ls : list Level) (r : TopologyRefiner) : TopologyRefiner :=
  mkRefiner (_subdivType r) (_subdivOptions r) (_isUniform r) (_hasHoles r)
    (_maxLevel r) (_uniformOptions r) (_adaptiveOptions r)
    (_totalVertices r) (_totalEdges r) (_totalFaces r) (_totalFaceVertices r)
    (_maxValence r) ls (_refinements r) (_farLevels r).

Definition set_refinements (rs : list Refinement) (r : TopologyRefiner) : TopologyRefiner :=
  mkRefiner (_subdivType r) (_subdivOptions r) (_isUniform r) (_hasHoles r)
    (_maxLevel r) (_uniformOptions r) (_adaptiveOptions r)
    (_totalVertices r) (_totalEdges r) (_totalFaces r) (_totalFaceVertices r)
    (_maxValence r) (_levels r) rs (_farLevels r).

Definition set_farLevels (fs : list FarLevel) (r : TopologyRefiner) : TopologyRefiner :=
  mkRefiner (_subdivType r) (_subdivOptions r) (_isUniform r) (_hasHoles r)
    (_maxLevel r) (_uniformOptions r) (_adaptiveOptions r)
    (_totalVertices r) (_totalEdges r) (_totalFaces r) (_totalFaceVertices r)
    (_maxValence r) (_levels r) (_refinements r) fs.

Definition set_maxLevel (n : nat) (r : TopologyRefiner) : TopologyRefiner :=
  mkRefiner (_subdivType r) (_subdivOptions r) (_isUniform r) (_hasHoles r)
    n (_uniformOptions r) (_adaptiveOptions r)
    (_totalVertices r) (_totalEdges r) (_totalFaces r) (_totalFaceVertices r)
    (_maxValence r) (_levels r) (_refinements r) (_farLevels r).

Definition set_isUniform (b : bool) (r : TopologyRefiner) : TopologyRefiner :=
  mkRefiner (_subdivType r) (_subdivOptions r) b (_hasHoles r)
    (_maxLevel r) (_uniformOptions r) (_adaptiveOptions r)
    (_totalVertices r) (_totalEdges r) (_totalFaces r) (_totalFaceVertices r)
    (_maxValence r) (_levels r) (_refinements r) (_farLevels r).

Definition set_uniformOptions (o : UniformOptions.t) (r : TopologyRefiner) : TopologyRefiner :=
  mkRefiner (_subdivType r) (_subdivOptions r) (_isUniform r) (_hasHoles r)
    (_maxLevel r) o (_adaptiveOptions r)
    (_totalVertices r) (_totalEdges r) (_totalFaces r) (_totalFaceVertices r)
    (_maxValence r) (_levels r) (_refinements r) (_farLevels r).

Definition set_adaptiveOptions (o : AdaptiveOptions.t) (r : TopologyRefiner) : TopologyRefiner :=
  mkRefiner (_subdivType r) (_subdivOptions r) (_isUniform r) (_hasHoles r)
    (_maxLevel r) (_uniformOptions r) o
    (_totalVertices r) (_totalEdges r) (_totalFaces r) (_totalFaceVertices r)
    (_maxValence r) (_levels r) (_refinements r) (_farLevels r).

(** *** Inventory *)

(** C++ [int] on the library's targets: 32 bits, two's complement.  A sum
    that leaves the range wraps around: the language leaves it undefined,
    the compiled code wraps. *)
Definition INT_MIN : Z := -2147483648.
Definition INT_MAX : Z := 2147483647.

Definition representable (z : Z) : Prop := INT_MIN <= z <= INT_MAX.

Definition wrap_int (z : Z) : Z := (z - INT_MIN) mod 4294967296 + INT_MIN.

(** [assert(_levels.size() == 1)] is the one failure of this function. *)
Definition initializeInventory (r : TopologyRefiner) : option TopologyRefiner :=
  match _levels r with
  | [] => Some (set_inventory 0 0 0 0 0 r)
  | [baseLevel] =>
      Some (set_inventory (getNumVertices baseLevel) (getNumEdges baseLevel)
              (getNumFaces baseLevel) (getNumFaceVerticesTotal baseLevel)
              (getMaxValence baseLevel) r)
  | _ :: _ :: _ => None
  end.

Definition updateInventory (newLevel : Level) (r : TopologyRefiner) : TopologyRefiner :=
  set_inventory
    (wrap_int (_totalVertices r + getNumVertices newLevel))
    (wrap_int (_totalEdges r + getNumEdges newLevel))
    (wrap_int (_totalFaces r + getNumFaces newLevel))
    (wrap_int (_totalFaceVertices r + getNumFaceVerticesTotal newLevel))
    (Z.max (_maxValence r) (getMaxValence newLevel)) r.

Definition appendLevel (newLevel : Level) (r : TopologyRefiner) : TopologyRefiner :=
  updateInventory newLevel (set_levels (_levels r ++ [newLevel]) r).

Definition appendRefinement (newRefinement : Refinement) (r : TopologyRefiner)
  : TopologyRefiner :=
  set_refinements (_refinements r ++ [newRefinement]) r.

(** *** The level views *)

(** The body of the loop [for (i = 1; i < nRefinements; ++i)]. *)
Fixpoint assembleInnerFarLevels (levels : list Level) (refinements : list Refinement)
         (indices : list nat) (far : list FarLevel) : option (list FarLevel) :=
  match indices with
  | [] => Some far
  | i :: rest =>
      _ <- nth_error refinements (i - 1) ;;
      _ <- nth_error levels i ;;
      _ <- nth_error refinements i ;;
      far <- assign far i (fun _ => mkFarLevel (Some (i - 1)%nat) (Some i) (Some i)) ;;
      assembleInnerFarLevels levels refinements rest far
  end.

Definition assembleFarLevels (r : TopologyRefiner) : option TopologyRefiner :=
  let far := resize (length (_levels r)) FarLevel_null (_farLevels r) in
  _ <- nth_error (_levels r) 0 ;;
  far <- assign far 0 (fun _ => mkFarLevel None (Some 0%nat) None) ;;
  let nRefinements := length (_refinements r) in
  match nRefinements with
  | O => Some (set_farLevels far r)
  | S last =>
      _ <- nth_error (_refinements r) 0 ;;
      far <- assign far 0 (fun f => mkFarLevel (_refToParent f) (_level f) (Some 0%nat)) ;;
      far <- assembleInnerFarLevels (_levels r) (_refinements r) (seq 1 last) far ;;
      _ <- nth_error (_refinements r) last ;;
      _ <- nth_error (_levels r) nRefinements ;;
      far <- assign far nRefinements
               (fun _ => mkFarLevel (Some last) (Some nRefinements) None) ;;
      Some (set_farLevels far r)
  end.

(** *** Construction, reset and accessors *)

Definition TopologyRefiner_new (schemeType : Sdc.SchemeType)
           (schemeOptions : Sdc.Options) : option TopologyRefiner :=
  assembleFarLevels
    {| _subdivType := schemeType;
       _subdivOptions := schemeOptions;
       _isUniform := true;
       _hasHoles := false;
       _maxLevel := 0;
       _uniformOptions := UniformOptions.make 0;
       _adaptiveOptions := AdaptiveOptions.make 0;
       _totalVertices := 0;
       _totalEdges := 0;
       _totalFaces := 0;
       _totalFaceVertices := 0;
       _maxValence := 0;
       _levels := [Level_new];
       _refinements := [];
       _farLevels := [] |}.

Definition Unrefine (r : TopologyRefiner) : option (TopologyRefiner * list Event) :=
  r1 <- (match _levels r with
         | [] => Some r
         | _ :: _ => initializeInventory (set_levels (resize 1 Level_new (_levels r)) r)
         end) ;;
  r2 <- assembleFarLevels (set_refinements [] r1) ;;
  Some (r2,
        map DeleteLevel (seq 1 (length (_levels r) - 1))
        ++ map DeleteRefinement (seq 0 (length (_refinements r)))).

Definition GetNumFVarValuesTotal (channel : Z) (r : TopologyRefiner) : Z :=
  fold_left (fun sum l => wrap_int (sum + getNumFVarValues l channel)) (_levels r) 0.

(** Modelled from the spec: the external topology builder that populates
    the base level of a freshly constructed refiner in place and has the
    refiner take its inventory (far/topologyRefinerFactory is missing). *)
Definition populateBaseLevel (baseLevel : Level) (r : TopologyRefiner)
  : option TopologyRefiner :=
  match _levels r, _refinements r with
  | [_], [] => initializeInventory (set_levels [baseLevel] r)
  | _, _ => None
  end.

(** *** Refinement *)

Section Refinement.
Context {traits : Sdc.SchemeTypeTraits} {R : Refine}.

(** [new QuadRefinement] or [new TriRefinement], by the split type. *)
Definition newRefinement (splitType : Sdc.Split) (parentLevel childLevel : Level)
           (subdivOptions : Sdc.Options) : Refinement :=
  match splitType with
  | Sdc.SPLIT_TO_QUADS =>
      Refinement_new Sdc.SPLIT_TO_QUADS parentLevel childLevel subdivOptions
  | Sdc.SPLIT_TO_TRIS =>
      Refinement_new Sdc.SPLIT_TO_TRIS parentLevel childLevel subdivOptions
  end.

(** The options of pass [i] of [RefineUniform]. *)
Definition uniformRefineOptions (options : UniformOptions.t) (i : nat)
  : RefinementOptions :=
  {| _sparse := false;
     _faceVertsFirst := UniformOptions.orderVerticesFromFacesFirst options;
     _minimalTopology :=
       if UniformOptions.fullTopologyInLastLevel options then false
       else Nat.eqb i (UniformOptions.refinementLevel options) |}.

(** The loop of [RefineUniform], [passes] iterations from counter [i]. *)
Fixpoint uniformPasses (options : UniformOptions.t) (splitType : Sdc.Split)
         (passes i : nat) (r : TopologyRefiner)
  : option (TopologyRefiner * list Event) :=
  match passes with
  | O => Some (r, [])
  | S passes' =>
      let refineOptions := uniformRefineOptions options i in
      parentLevel <- nth_error (_levels r) (i - 1) ;;
      let childLevel := Level_new in
      let refinement :=
        newRefinement splitType parentLevel childLevel (_subdivOptions r) in
      let refinement := refine refinement refineOptions in
      let r := appendLevel (child refinement) r in
      let r := appendRefinement refinement r in
      rest <- uniformPasses options splitType passes' (S i) r ;;
      Some (fst rest,
            [NewLevel i; NewRefinement i splitType; RefineWith i refineOptions]
            ++ snd rest)
  end.

Definition RefineUniform (options : UniformOptions.t) (r : TopologyRefiner)
  : option (TopologyRefiner * list Event) :=
  baseLevel <- nth_error (_levels r) 0 ;;
  if getNumVertices baseLevel =? 0 then
    Some (r, [Error FAR_RUNTIME_ERROR
      "Failure in TopologyRefiner::RefineUniform() -- base level is uninitialized."%string])
  else if negb (Nat.eqb (length (_refinements r)) 0) then
    Some (r, [Error FAR_RUNTIME_ERROR
      "Failure in TopologyRefiner::RefineUniform() -- previous refinements already applied."%string])
  else
    let r := set_uniformOptions options r in
    let r := set_isUniform true r in
    let r := set_maxLevel (UniformOptions.refinementLevel options) r in
    let splitType := Sdc.GetTopologicalSplitType (_subdivType r) in
    done <- uniformPasses options splitType
              (UniformOptions.refinementLevel options) 1 r ;;
    r <- assembleFarLevels (fst done) ;;
    Some (r, snd done).

(** The two feature masks of [RefineAdaptive], [moreFeaturesMask] and
    [lessFeaturesMask].  [storage] is what the local variable's memory held
    before its constructor assigned the eleven fields. *)
Definition adaptiveFeatureMasks (options : AdaptiveOptions.t)
           (storage : FeatureMask.t) (subdivType : Sdc.SchemeType) (baseLevel : Level)
  : FeatureMask.t * FeatureMask.t :=
  let shallowLevel :=
    Nat.min (AdaptiveOptions.secondaryLevel options)
            (AdaptiveOptions.isolationLevel options) in
  let deeperLevel := AdaptiveOptions.isolationLevel options in
  let potentialMaxLevel := deeperLevel in
  let moreFeaturesMask := FeatureMask.make options subdivType storage in
  let lessFeaturesMask := moreFeaturesMask in
  let lessFeaturesMask :=
    if Nat.ltb shallowLevel potentialMaxLevel
    then FeatureMask.ReduceFeatures options lessFeaturesMask
    else lessFeaturesMask in
  if Sdc.GetLocalNeighborhoodSize subdivType =? 0 then
    (FeatureMask.Clear moreFeaturesMask, FeatureMask.Clear lessFeaturesMask)
  else if FeatureMask.selectFVarFeatures moreFeaturesMask then
    let nonLinearChannelsPresent :=
      fold_left
        (fun present channel =>
           present || negb (getFVarLevel_isLinear baseLevel channel))
        (upto (getNumFVarChannels baseLevel)) false in
    if negb nonLinearChannelsPresent then
      (FeatureMask.set FeatureMask.FVarFeatures false moreFeaturesMask,
       FeatureMask.set FeatureMask.FVarFeatures false lessFeaturesMask)
    else (moreFeaturesMask, lessFeaturesMask)
  else (moreFeaturesMask, lessFeaturesMask).

Definition adaptiveRefineOptions (options : AdaptiveOptions.t) : RefinementOptions :=
  {| _sparse := true;
     _minimalTopology := false;
     _faceVertsFirst := AdaptiveOptions.orderVerticesFromFacesFirst options |}.

(** The selector of pass [i] after [selectFeatureAdaptiveComponents], for
    the refiner's [_subdivType] and [_subdivOptions]. *)
Definition adaptiveSelection (subdivType : Sdc.SchemeType) (subdivOptions : Sdc.Options)
           (splitType : Sdc.Split) (shallowLevel : nat)
           (moreFeaturesMask lessFeaturesMask : FeatureMask.t)
           (i : nat) (parentLevel : Level) : SparseSelector :=
  let childLevel := Level_new in
  let refinement := newRefinement splitType parentLevel childLevel subdivOptions in
  let selector := mkSelector refinement in
  selectFeatureAdaptiveComponents subdivType selector
    (if Nat.leb i shallowLevel then moreFeaturesMask else lessFeaturesMask).

(** The selector of pass [i] as [RefineAdaptive] sets it up on refiner [r]
    with base level [baseLevel], over the parent level of that pass. *)
Definition adaptivePassSelection (options : AdaptiveOptions.t) (storage : FeatureMask.t)
           (r : TopologyRefiner) (baseLevel : Level) (i : nat) (parentLevel : Level)
  : SparseSelector :=
  let masks := adaptiveFeatureMasks options storage (_subdivType r) baseLevel in
  adaptiveSelection (_subdivType r) (_subdivOptions r)
    (Sdc.GetTopologicalSplitType (_subdivType r))
    (Nat.min (AdaptiveOptions.secondaryLevel options)
             (AdaptiveOptions.isolationLevel options))
    (fst masks) (snd masks) i parentLevel.

(** The loop of [RefineAdaptive], at most [passes] iterations from counter
    [i]; an empty selection is its [break]. *)
Fixpoint adaptivePasses (options : AdaptiveOptions.t) (splitType : Sdc.Split)
         (shallowLevel : nat) (moreFeaturesMask lessFeaturesMask : FeatureMask.t)
         (passes i : nat) (r : TopologyRefiner)
  : option (TopologyRefiner * list Event) :=
  match passes with
  | O => Some (r, [])
  | S passes' =>
      parentLevel <- nth_error (_levels r) (i - 1) ;;
      let selector :=
        adaptiveSelection (_subdivType r) (_subdivOptions r) splitType shallowLevel
          moreFeaturesMask lessFeaturesMask i parentLevel in
      let allocated := [NewLevel i; NewRefinement i splitType; SelectComponents i] in
      if isSelectionEmpty selector then
        Some (r, allocated ++ [DeleteRefinement i; DeleteLevel i])
      else
        let refineOptions := adaptiveRefineOptions options in
        let refinement := refine (getRefinement selector) refineOptions in
        let r := appendLevel (child refinement) r in
        let r := appendRefinement refinement r in
        rest <- adaptivePasses options splitType shallowLevel
                  moreFeaturesMask lessFeaturesMask passes' (S i) r ;;
        Some (fst rest, allocated ++ [RefineWith i refineOptions] ++ snd rest)
  end.

Definition RefineAdaptive (options : AdaptiveOptions.t) (storage : FeatureMask.t)
           (r : TopologyRefiner) : option (TopologyRefiner * list Event) :=
  baseLevel <- nth_error (_levels r) 0 ;;
  if getNumVertices baseLevel =? 0 then
    Some (r, [Error FAR_RUNTIME_ERROR
      "Failure in TopologyRefiner::RefineAdaptive() -- base level is uninitialized."%string])
  else if negb (Nat.eqb (length (_refinements r)) 0) then
    Some (r, [Error FAR_RUNTIME_ERROR
      "Failure in TopologyRefiner::RefineAdaptive() -- previous refinements already applied."%string])
  else if negb (Sdc.SchemeType_eqb (_subdivType r) Sdc.SCHEME_CATMARK) then
    Some (r, [Error FAR_RUNTIME_ERROR
      "Failure in TopologyRefiner::RefineAdaptive() -- currently only supported for Catmark scheme."%string])
  else
    let r := set_isUniform false r in
    let r := set_adaptiveOptions options r in
    let shallowLevel :=
      Nat.min (AdaptiveOptions.secondaryLevel options)
              (AdaptiveOptions.isolationLevel options) in
    let potentialMaxLevel := AdaptiveOptions.isolationLevel options in
    let masks := adaptiveFeatureMasks options storage (_subdivType r) baseLevel in
    let splitType := Sdc.GetTopologicalSplitType (_subdivType r) in
    done <- adaptivePasses options splitType shallowLevel (fst masks) (snd masks)
              potentialMaxLevel 1 r ;;
    let r := set_maxLevel (length (_refinements (fst done))) (fst done) in
    r <- assembleFarLevels r ;;
    Some (r, snd done).

(** The states a refiner can be in: constructed, its base level populated
    by the topology builder, then any number of refinement calls (failed or
    not) and resets. *)
Inductive reachable : TopologyRefiner -> Prop :=
| reach_new schemeType schemeOptions r :
    TopologyRefiner_new schemeType schemeOptions = Some r -> reachable r
| reach_populate baseLevel r r' :
    reachable r -> populateBaseLevel baseLevel r = Some r' -> reachable r'
| reach_RefineUniform options r r' events :
    reachable r -> RefineUniform options r = Some (r', events) -> reachable r'
| reach_RefineAdaptive options storage r r' events :
    reachable r -> RefineAdaptive options storage r = Some (r', events) ->
    reachable r'
| reach_Unrefine r r' events :
    reachable r -> Unrefine r = Some (r', events) -> reachable r'.

End Refinement.

(** ** Concrete schemes, meshes and a concrete split

    Closed instances on which the definitions above are run. *)

Module Sample.

(** The three schemes: Bilinear and Catmark split to quads, Loop to
    triangles; only Bilinear has no influence beyond the face. *)
Definition schemeTraits : Sdc.SchemeTypeTraits :=
  {| Sdc.GetTopologicalSplitType := fun s =>
       match s with Sdc.SCHEME_LOOP => Sdc.SPLIT_TO_TRIS | _ => Sdc.SPLIT_TO_QUADS end;
     Sdc.GetRegularFaceSize := fun s =>
       match s with Sdc.SCHEME_LOOP => 3 | _ => 4 end;
     Sdc.GetLocalNeighborhoodSize := fun s =>
       match s with Sdc.SCHEME_BILINEAR => 0 | _ => 1 end |}.

Definition tag (rule : Z) : VTag :=
  mkVTag false false false false false false false rule false false false.

Definition smooth : VTag := tag Sdc.Crease.RULE_SMOOTH.

(** A sharp boundary corner, as on an isolated quad. *)
Definition sharpCorner : VTag :=
  mkVTag false false true true true false false Sdc.Crease.RULE_CORNER false false false.


(** A regular boundary crease vertex. *)
Definition boundaryCrease : VTag :=
  mkVTag false false true false true false false Sdc.Crease.RULE_CREASE false true false.

(** The aggregate tag of an interior face with a smooth corner, a crease
    corner and a corner-rule corner, irregular at an inf-sharp vertex. *)
Definition irregularCornerCrease : VTag :=
  mkVTag false false false false true false false
    (Z.lor Sdc.Crease.RULE_SMOOTH
       (Z.lor Sdc.Crease.RULE_CREASE Sdc.Crease.RULE_CORNER)) false true true.

(** The aggregate tag of an interior face with smooth corners and an
    irregular inf-sharp crease corner. *)
Definition irregularCrease : VTag :=
  mkVTag false false false false true false false
    (Z.lor Sdc.Crease.RULE_SMOOTH Sdc.Crease.RULE_CREASE) false true true.

(** A stand-in for the split: the child is one level deeper, has the
    component counts of a quad split and only smooth regular quads. *)
Definition quadSplit : Refine :=
  {| populateChild := fun r _ =>
       let p := parent r in
       {| getDepth := getDepth p + 1;
          getNumVertices := getNumVertices p + getNumEdges p + getNumFaces p;
          getNumEdges := 2 * getNumEdges p + getNumFaceVerticesTotal p;
          getNumFaces := getNumFaceVerticesTotal p;
          getNumFaceVerticesTotal := 4 * getNumFaceVerticesTotal p;
          getMaxValence := Z.max 4 (getMaxValence p);
          getNumFVarChannels := getNumFVarChannels p;
          getNumFVarValues := fun c => 4 * getNumFVarValues p c;
          getFVarLevel_isLinear := getFVarLevel_isLinear p;
          getFaceVertices := fun f => [4 * f; 4 * f + 1; 4 * f + 2; 4 * f + 3];
          getVertexFaces := fun v => [v / 4];
          getFaceVTags := fun _ => [smooth; smooth; smooth; smooth];
          getVertexCompositeFVarVTag := fun _ _ => smooth;
          isFaceHole := fun _ => false;
          isSingleCreasePatch := fun _ => false;
          doesFaceFVarTopologyMatch := fun _ _ => true |} |}.

(** A single quad: four sharp boundary corners. *)
Definition singleQuad : Level :=
  {| getDepth := 0; getNumVertices := 4; getNumEdges := 4; getNumFaces := 1;
     getNumFaceVerticesTotal := 4; getMaxValence := 2; getNumFVarChannels := 0;
     getNumFVarValues := fun _ => 0;
     getFVarLevel_isLinear := fun _ => true;
     getFaceVertices := fun _ => [0; 1; 2; 3];
     getVertexFaces := fun _ => [0];
     getFaceVTags := fun _ => [sharpCorner; sharpCorner; sharpCorner; sharpCorner];
     getVertexCompositeFVarVTag := fun _ _ => sharpCorner;
     isFaceHole := fun _ => false;
     isSingleCreasePatch := fun _ => false;
     doesFaceFVarTopologyMatch := fun _ _ => true |}.

(** Face 0 is a pentagon on vertices 0..4; faces 1..5 are the quads around
    it, quad [k] on the pentagon's vertices [k-1] and [k mod 5]; face 6 is a
    quad that shares no vertex with the pentagon.  All tags are smooth. *)
Definition pentagonMesh : Level :=
  {| getDepth := 0; getNumVertices := 19; getNumEdges := 24; getNumFaces := 7;
     getNumFaceVerticesTotal := 29; getMaxValence := 3; getNumFVarChannels := 0;
     getNumFVarValues := fun _ => 0;
     getFVarLevel_isLinear := fun _ => true;
     getFaceVertices := fun f =>
       if f =? 0 then [0; 1; 2; 3; 4]
       else if f =? 6 then [15; 16; 17; 18]
       else [f - 1; f mod 5; 4 + 2 * f; 3 + 2 * f];
     getVertexFaces := fun v =>
       if v <? 5 then [0; v + 1; (v + 4) mod 5 + 1]
       else if v <? 15 then [(v - 3) / 2] else [6];
     getFaceVTags := fun f =>
       if f =? 0 then [smooth; smooth; smooth; smooth; smooth]
       else [smooth; smooth; smooth; smooth];
     getVertexCompositeFVarVTag := fun _ _ => smooth;
     isFaceHole := fun _ => false;
     isSingleCreasePatch := fun _ => false;
     doesFaceFVarTopologyMatch := fun _ _ => true |}.




(** A level with one quad whose face-varying topology in channel 0 differs:
    corners 0 and 1 lie on a regular face-varying boundary crease, corners
    2 and 3 are smooth. *)
Definition seamLevel : Level :=
  {| getDepth := 0; getNumVertices := 4; getNumEdges := 4; getNumFaces := 1;
     getNumFaceVerticesTotal := 4; getMaxValence := 4; getNumFVarChannels := 1;
     getNumFVarValues := fun _ => 6;
     getFVarLevel_isLinear := fun _ => false;
     getFaceVertices := fun _ => [0; 1; 2; 3];
     getVertexFaces := fun _ => [0];
     getFaceVTags := fun _ => [smooth; smooth; smooth; smooth];
     getVertexCompositeFVarVTag := fun v _ =>
       if v <? 2 then boundaryCrease else smooth;
     isFaceHole := fun _ => false;
     isSingleCreasePatch := fun _ => false;
     doesFaceFVarTopologyMatch := fun _ _ => false |}.

Definition fromSome {A} (d : A) (o : option A) : A :=
  match o with Some x => x | None => d end.

Definition emptyRefiner : TopologyRefiner :=
  mkRefiner Sdc.SCHEME_CATMARK (Sdc.Build_Options 0) true false 0
    (UniformOptions.make 0) (AdaptiveOptions.make 0) 0 0 0 0 0 [] [] [].

(** A Catmark refiner as constructed, and with a base level populated. *)
Definition constructed : TopologyRefiner :=
  fromSome emptyRefiner (TopologyRefiner_new Sdc.SCHEME_CATMARK (Sdc.Build_Options 0)).

Definition withBase (baseLevel : Level) : TopologyRefiner :=
  fromSome emptyRefiner (populateBaseLevel baseLevel constructed).

Definition uniformTwo : UniformOptions.t :=
  {| UniformOptions.refinementLevel := 2;
     UniformOptions.orderVerticesFromFacesFirst := false;
     UniformOptions.fullTopologyInLastLevel := false |}.

Definition adaptiveThree : AdaptiveOptions.t := AdaptiveOptions.make 3.

Definition adaptiveFVar : AdaptiveOptions.t :=
  {| AdaptiveOptions.isolationLevel := 3;
     AdaptiveOptions.secondaryLevel := 15;
     AdaptiveOptions.useSingleCreasePatch := false;
     AdaptiveOptions.useInfSharpPatch := false;
     AdaptiveOptions.considerFVarChannels := true;
     AdaptiveOptions.orderVerticesFromFacesFirst := false |}.

Definition adaptiveInfSharp : AdaptiveOptions.t :=
  {| AdaptiveOptions.isolationLevel := 3;
     AdaptiveOptions.secondaryLevel := 1;
     AdaptiveOptions.useSingleCreasePatch := false;
     AdaptiveOptions.useInfSharpPatch := true;
     AdaptiveOptions.considerFVarChannels := false;
     AdaptiveOptions.orderVerticesFromFacesFirst := false |}.

(** Zeroed storage for a mask, and the mask [RefineAdaptive] builds from
    options over it. *)
Definition zeroed : FeatureMask.t := FeatureMask.mk 0.

Definition maskOf (options : AdaptiveOptions.t) : FeatureMask.t :=
  @FeatureMask.make schemeTraits options Sdc.SCHEME_CATMARK zeroed.

(** The refiner specialised to the concrete scheme table and split. *)
Definition refineUniform := @RefineUniform schemeTraits quadSplit.
Definition refineAdaptive := @RefineAdaptive schemeTraits quadSplit.
Definition select := @selectFeatureAdaptiveComponents schemeTraits.

(** The single quad refined uniformly twice. *)
Definition refinedTwice : TopologyRefiner * list Event :=
  fromSome (emptyRefiner, []) (refineUniform uniformTwo (withBase singleQuad)).

End Sample.

(** ** Quantities the refiner keeps in step with its stacks *)

(** The sum of a per-level count over a stack of levels. *)
Definition sumOver (count : Level -> Z) (levels : list Level) : Z :=
  fold_right (fun l s => count l + s) 0 levels.

(** The largest valence of a stack of levels, the base level's first. *)
Definition maxValenceOver (levels : list Level) : Z :=
  match levels with
  | [] => 0
  | baseLevel :: rest =>
      fold_left (fun m l => Z.max m (getMaxValence l)) rest (getMaxValence baseLevel)
  end.

(** The four counts of a level that the inventory adds up are [int]s. *)
Definition intCounts (l : Level) : Prop :=
  representable (getNumVertices l)
  /\ representable (getNumEdges l)
  /\ representable (getNumFaces l)
  /\ representable (getNumFaceVerticesTotal l).

(** The five inventory members agree with the levels held: with a base
    level whose counts are [int]s, each total is the [int] sum of its count
    over the levels, the sum wrapped around. *)
Definition inventoryMatches (r : TopologyRefiner) : Prop :=
  (forall baseLevel, nth_error (_levels r) 0 = Some baseLevel -> intCounts baseLevel) ->
  _totalVertices r = wrap_int (sumOver getNumVertices (_levels r))
  /\ _totalEdges r = wrap_int (sumOver getNumEdges (_levels r))
  /\ _totalFaces r = wrap_int (sumOver getNumFaces (_levels r))
  /\ _totalFaceVertices r = wrap_int (sumOver getNumFaceVerticesTotal (_levels r))
  /\ _maxValence r = maxValenceOver (_levels r).

(** Refinement [i] lies between level [i], its parent, and level [i + 1],
    its child. *)
Definition linked (levels : list Level) (refinements : list Refinement) : Prop :=
  forall i ref,
    nth_error refinements i = Some ref ->
    nth_error levels i = Some (parent ref)
    /\ nth_error levels (S i) = Some (child ref).

(** The view of level [i] in a hierarchy of [nRefinements] refinements: the
    refinement before it, none at the base; the level; the refinement
    after it, none at the last level. *)
Definition farLevelAt (nRefinements i : nat) : FarLevel :=
  {| _refToParent := match i with O => None | S before => Some before end;
     _level := Some i;
     _refToChild := if Nat.eqb i nRefinements then None else Some i |}.

Definition farLevelsOf (nRefinements : nat) : list FarLevel :=
  map (farLevelAt nRefinements) (seq 0 (S nRefinements)).

(** Every bit set in [m1] is set in [m2]. *)
Definition covers (m2 m1 : FeatureMask.t) : Prop :=
  forall bit, FeatureMask.get bit m1 = true -> FeatureMask.get bit m2 = true.

(** The faces a pass would register at a level below the base, by the
    driver's tests alone: the non-hole faces with a selected feature. *)
Definition facesWithFeatures (level : Level) (featureMask : FeatureMask.t)
  : list Index :=
  filter (fun face =>
            negb (isFaceHole level face)
            && faceHasSelectedFeatures level face featureMask
                 (inspectedFVarChannels level featureMask))
         (upto (getNumFaces level)).

(** [for (channel...) nonLinearChannelsPresent |= !isLinear()] of
    [RefineAdaptive], as a test. *)
Definition nonLinearChannelsPresent (baseLevel : Level) : bool :=
  existsb (fun channel => negb (getFVarLevel_isLinear baseLevel channel))
          (upto (getNumFVarChannels baseLevel)).

(** ** Further concrete meshes *)

Module Cases.

(** Two smooth regular quads side by side, all six vertices tagged smooth,
    no face-varying channel. *)
Definition smoothQuads : Level :=
  {| getDepth := 0; getNumVertices := 6; getNumEdges := 7; getNumFaces := 2;
     getNumFaceVerticesTotal := 8; getMaxValence := 3; getNumFVarChannels := 0;
     getNumFVarValues := fun _ => 0;
     getFVarLevel_isLinear := fun _ => true;
     getFaceVertices := fun f => if f =? 0 then [0; 1; 4; 3] else [1; 2; 5; 4];
     getVertexFaces := fun v => if (v =? 1) || (v =? 4) then [0; 1]
                                else if (v =? 0) || (v =? 3) then [0] else [1];
     getFaceVTags := fun _ => [Sample.smooth; Sample.smooth; Sample.smooth; Sample.smooth];
     getVertexCompositeFVarVTag := fun _ _ => Sample.smooth;
     isFaceHole := fun _ => false;
     isSingleCreasePatch := fun _ => false;
     doesFaceFVarTopologyMatch := fun _ _ => true |}.

(** A level of depth 1 with three quads: face 0 has a sharp corner, face 1
    is smooth, face 2 has a sharp corner and is a hole. *)
Definition mixedLevel : Level :=
  {| getDepth := 1; getNumVertices := 8; getNumEdges := 10; getNumFaces := 3;
     getNumFaceVerticesTotal := 12; getMaxValence := 3; getNumFVarChannels := 0;
     getNumFVarValues := fun _ => 0;
     getFVarLevel_isLinear := fun _ => true;
     getFaceVertices := fun f => [2 * f; 2 * f + 1; 2 * f + 3; 2 * f + 2];
     getVertexFaces := fun v => [v / 2];
     getFaceVTags := fun f =>
       if f =? 1 then [Sample.smooth; Sample.smooth; Sample.smooth; Sample.smooth]
       else [Sample.sharpCorner; Sample.sharpCorner; Sample.sharpCorner; Sample.sharpCorner];
     getVertexCompositeFVarVTag := fun _ _ => Sample.smooth;
     isFaceHole := fun f => f =? 2;
     isSingleCreasePatch := fun _ => false;
     doesFaceFVarTopologyMatch := fun _ _ => true |}.


(** The single quad refined uniformly twice, then reset. *)
Definition unrefined : TopologyRefiner * list Event :=
  Sample.fromSome (Sample.emptyRefiner, []) (Unrefine (fst Sample.refinedTwice)).

Definition uniformOne : UniformOptions.t :=
  {| UniformOptions.refinementLevel := 1;
     UniformOptions.orderVerticesFromFacesFirst := true;
     UniformOptions.fullTopologyInLastLevel := true |}.

(** A second stand-in for the split, which hands the parent's components
    and tags on: the child is the parent, one level deeper. *)
Definition deeper (l : Level) : Level :=
  {| getDepth := getDepth l + 1;
     getNumVertices := getNumVertices l;
     getNumEdges := getNumEdges l;
     getNumFaces := getNumFaces l;
     getNumFaceVerticesTotal := getNumFaceVerticesTotal l;
     getMaxValence := getMaxValence l;
     getNumFVarChannels := getNumFVarChannels l;
     getNumFVarValues := getNumFVarValues l;
     getFVarLevel_isLinear := getFVarLevel_isLinear l;
     getFaceVertices := getFaceVertices l;
     getVertexFaces := getVertexFaces l;
     getFaceVTags := getFaceVTags l;
     getVertexCompositeFVarVTag := getVertexCompositeFVarVTag l;
     isFaceHole := isFaceHole l;
     isSingleCreasePatch := isSingleCreasePatch l;
     doesFaceFVarTopologyMatch := doesFaceFVarTopologyMatch l |}.

Definition sameShapeSplit : Refine :=
  {| populateChild := fun r _ => deeper (parent r) |}.

(** A level whose counts are [int]s near the largest: over two such
    levels every total but that of the faces overflows. *)
Definition vastLevel : Level :=
  {| getDepth := 0; getNumVertices := 2000000000; getNumEdges := 2100000000;
     getNumFaces := 1000000000; getNumFaceVerticesTotal := 2147483647;
     getMaxValence := 4; getNumFVarChannels := 1;
     getNumFVarValues := fun _ => 2000000000;
     getFVarLevel_isLinear := fun _ => false;
     getFaceVertices := fun f => [4 * f; 4 * f + 1; 4 * f + 2; 4 * f + 3];
     getVertexFaces := fun v => [v / 4];
     getFaceVTags := fun _ => [Sample.smooth; Sample.smooth; Sample.smooth; Sample.smooth];
     getVertexCompositeFVarVTag := fun _ _ => Sample.smooth;
     isFaceHole := fun _ => false;
     isSingleCreasePatch := fun _ => false;
     doesFaceFVarTopologyMatch := fun _ _ => true |}.

(** [vastLevel] refined uniformly once. *)
Definition overflowing : TopologyRefiner * list Event :=
  Sample.fromSome (Sample.emptyRefiner, [])
    (@RefineUniform Sample.schemeTraits sameShapeSplit uniformOne
       (Sample.withBase vastLevel)).

(** ... and reset. *)
Definition overflowingReset : TopologyRefiner * list Event :=
  Sample.fromSome (Sample.emptyRefiner, []) (Unrefine (fst overflowing)).

(** The single quad, whose corners stay sharp under [sameShapeSplit],
    refined adaptively with isolation level 3 and secondary level 1. *)
Definition isolatedQuad : TopologyRefiner * list Event :=
  Sample.fromSome (Sample.emptyRefiner, [])
    (@RefineAdaptive Sample.schemeTraits sameShapeSplit Sample.adaptiveInfSharp
       Sample.zeroed (Sample.withBase Sample.singleQuad)).

End Cases.

(** ** Invariants of the refiner *)

(** The stacks of a refiner are consistent: one level more than
    refinements, the inventory that of the levels, each refinement between
    its two levels. *)
Definition consistent (r : TopologyRefiner) : Prop :=
  length (_levels r) = S (length (_refinements r))
  /\ inventoryMatches r
  /\ linked (_levels r) (_refinements r).

(** Two refinements that differ in the selected faces at most. *)
Definition sameButSelection (a b : Refinement) : Prop :=
  splitType a = splitType b
  /\ parent a = parent b
  /\ child a = child b
  /\ schemeOptions a = schemeOptions b
  /\ refinedWith a = refinedWith b.

(** * Properties *)

(** ** The feature mask *)

Lemma get_set (f g : FeatureMask.field) (b : bool) (m : FeatureMask.t) :
  0 <= g ->
  FeatureMask.get f (FeatureMask.set g b m) = if g =? f then b else FeatureMask.get f m.
Proof.
  intros Hg. unfold FeatureMask.get, FeatureMask.set. destruct b; cbn [FeatureMask.word].
  - rewrite Z.setbit_eqb by assumption. now destruct (g =? f).
  - rewrite Z.clearbit_eqb. destruct (g =? f); cbn; [apply andb_false_r | apply andb_true_r].
Qed.

Lemma word_set_false_zero (g : FeatureMask.field) (m : FeatureMask.t) :
  FeatureMask.word m = 0 -> FeatureMask.word (FeatureMask.set g false m) = 0.
Proof.
  intros H. unfold FeatureMask.set. cbn [FeatureMask.word]. rewrite H.
  unfold Z.clearbit. apply Z.ldiff_0_l.
Qed.

(** Rewrites every field read of a chain of field writes. *)
Ltac mask_fields :=
  unfold FeatureMask.selectXOrdinaryInterior, FeatureMask.selectXOrdinaryBoundary,
    FeatureMask.selectSemiSharpSingle, FeatureMask.selectSemiSharpNonSingle,
    FeatureMask.selectInfSharpRegularCrease, FeatureMask.selectInfSharpRegularCorner,
    FeatureMask.selectInfSharpIrregularDart, FeatureMask.selectInfSharpIrregularCrease,
    FeatureMask.selectInfSharpIrregularCorner, FeatureMask.selectNonManifold,
    FeatureMask.selectFVarFeatures in *;
  repeat (rewrite get_set by (now cbv)); cbn [Z.eqb Pos.eqb
    FeatureMask.XOrdinaryInterior FeatureMask.XOrdinaryBoundary
    FeatureMask.SemiSharpSingle FeatureMask.SemiSharpNonSingle
    FeatureMask.InfSharpRegularCrease FeatureMask.InfSharpRegularCorner
    FeatureMask.InfSharpIrregularDart FeatureMask.InfSharpIrregularCrease
    FeatureMask.InfSharpIrregularCorner FeatureMask.NonManifold
    FeatureMask.FVarFeatures].

(** C4.  [ReduceFeatures] clears [selectXOrdinaryInterior] and
    [selectXOrdinaryBoundary] whatever the options; with [useInfSharpPatch]
    it also clears the regular crease, regular corner, irregular dart and
    irregular crease flags, and without it leaves them as they were; the
    irregular corner flag, both semi-sharp flags, [selectNonManifold] and
    [selectFVarFeatures] keep their values, as does every bit of the word
    that is not one of the six. *)
Theorem ReduceFeatures_clears_exactly (options : AdaptiveOptions.t) (m : FeatureMask.t) :
  let m' := FeatureMask.ReduceFeatures options m in
  let ifInfSharpPatch (before : bool) :=
    if AdaptiveOptions.useInfSharpPatch options then false else before in
  FeatureMask.selectXOrdinaryInterior m' = false
  /\ FeatureMask.selectXOrdinaryBoundary m' = false
  /\ FeatureMask.selectInfSharpRegularCrease m'
     = ifInfSharpPatch (FeatureMask.selectInfSharpRegularCrease m)
  /\ FeatureMask.selectInfSharpRegularCorner m'
     = ifInfSharpPatch (FeatureMask.selectInfSharpRegularCorner m)
  /\ FeatureMask.selectInfSharpIrregularDart m'
     = ifInfSharpPatch (FeatureMask.selectInfSharpIrregularDart m)
  /\ FeatureMask.selectInfSharpIrregularCrease m'
     = ifInfSharpPatch (FeatureMask.selectInfSharpIrregularCrease m)
  /\ FeatureMask.selectInfSharpIrregularCorner m'
     = FeatureMask.selectInfSharpIrregularCorner m
  /\ FeatureMask.selectSemiSharpSingle m' = FeatureMask.selectSemiSharpSingle m
  /\ FeatureMask.selectSemiSharpNonSingle m' = FeatureMask.selectSemiSharpNonSingle m
  /\ FeatureMask.selectNonManifold m' = FeatureMask.selectNonManifold m
  /\ FeatureMask.selectFVarFeatures m' = FeatureMask.selectFVarFeatures m
  /\ (forall bit, FeatureMask.FVarFeatures < bit ->
        FeatureMask.get bit m' = FeatureMask.get bit m).
Proof.
  cbv zeta. unfold FeatureMask.ReduceFeatures.
  destruct (AdaptiveOptions.useInfSharpPatch options);
    repeat split; try (mask_fields; reflexivity);
    intros bit Hbit; unfold FeatureMask.FVarFeatures in Hbit;
    repeat (rewrite get_set by (now cbv));
    repeat match goal with
           | |- context [?g =? bit] =>
               replace (g =? bit) with false
                 by (symmetry; apply Z.eqb_neq; unfold g; lia)
           end; reflexivity.
Qed.

(** The full mask of [useInfSharpPatch], reduced. *)
Lemma ReduceFeatures_clears_exactly_witness :
  let m := Sample.maskOf Sample.adaptiveInfSharp in
  let m' := FeatureMask.ReduceFeatures Sample.adaptiveInfSharp m in
  FeatureMask.selectXOrdinaryInterior m' = false
  /\ FeatureMask.selectInfSharpIrregularCrease m' = false
  /\ FeatureMask.selectInfSharpIrregularCorner m' = true
  /\ FeatureMask.get 11 m' = FeatureMask.get 11 m.
Proof.
  cbv zeta.
  pose proof (ReduceFeatures_clears_exactly Sample.adaptiveInfSharp
                (Sample.maskOf Sample.adaptiveInfSharp)) as H.
  cbv zeta in H.
  destruct H as [Hxi [_ [_ [_ [_ [Hic [Hcorner [_ [_ [_ [_ Hhigh]]]]]]]]]]].
  split; [exact Hxi |]. split; [exact Hic |]. split; [exact Hcorner |].
  apply Hhigh. reflexivity.
Defined.

Section MaskFacts.
Context {traits : Sdc.SchemeTypeTraits}.

Lemma InitializeFeatures_NonManifold options subdType m :
  FeatureMask.get FeatureMask.NonManifold
    (FeatureMask.InitializeFeatures options subdType m) = true.
Proof. unfold FeatureMask.InitializeFeatures. mask_fields. reflexivity. Qed.

(** A mask the source builds is either the zero word or has
    [selectNonManifold] set. *)
Lemma built_zero_or_NonManifold (m : FeatureMask.t) :
  FeatureMask.built m ->
  FeatureMask.word m = 0 \/ FeatureMask.get FeatureMask.NonManifold m = true.
Proof.
  induction 1 as [u | o s u | m _ _ | o s m _ _ | o m _ IH | m _ IH].
  - now left.
  - right. apply InitializeFeatures_NonManifold.
  - now left.
  - right. apply InitializeFeatures_NonManifold.
  - destruct IH as [Hz | Hn]; [left | right].
    + unfold FeatureMask.ReduceFeatures.
      destruct (AdaptiveOptions.useInfSharpPatch o);
        repeat apply word_set_false_zero; assumption.
    + unfold FeatureMask.ReduceFeatures.
      destruct (AdaptiveOptions.useInfSharpPatch o); mask_fields; assumption.
  - destruct IH as [Hz | Hn]; [left | right].
    + now apply word_set_false_zero.
    + mask_fields. assumption.
Qed.

Lemma zero_allFlagsFalse (m : FeatureMask.t) :
  FeatureMask.word m = 0 -> FeatureMask.allFlagsFalse m.
Proof.
  intros H f _. unfold FeatureMask.get. rewrite H. apply Z.bits_0.
Qed.

Lemma In_upto (n x : Z) : In x (upto n) <-> 0 <= x < n.
Proof.
  unfold upto. rewrite in_map_iff. split.
  - intros [k [<- Hk]]. apply in_seq in Hk. lia.
  - intros H. exists (Z.to_nat x). split; [lia |]. apply in_seq. lia.
Qed.

(** The eleven fields are the bits 0 to 10 of the word. *)
Lemma fields_upto : FeatureMask.fields = upto 11.
Proof. reflexivity. Qed.

Lemma allFlagsFalse_zero (m : FeatureMask.t) :
  FeatureMask.unusedBitsZero m -> FeatureMask.allFlagsFalse m ->
  FeatureMask.word m = 0.
Proof.
  intros Hhigh Hall. apply Z.bits_inj'. intros n Hn. rewrite Z.bits_0.
  destruct (Z_le_gt_dec n 10) as [Hle | Hgt].
  - apply (Hall n). rewrite fields_upto. apply In_upto. lia.
  - apply Hhigh. unfold FeatureMask.FVarFeatures. lia.
Qed.

(** C10.  For every mask the source builds, whatever its storage held
    before, and for every mask whose word has no bit set above the eleven
    fields, [IsEmpty] holds exactly when all eleven flags are false;
    [Clear], and so the default constructor, makes the eleven flags false
    and the mask empty; and on an empty mask the face classifier answers
    false at once. *)
Theorem IsEmpty_iff_all_flags_false (m : FeatureMask.t) :
  FeatureMask.built m \/ FeatureMask.unusedBitsZero m ->
  (FeatureMask.IsEmpty m = true <-> FeatureMask.allFlagsFalse m)
  /\ FeatureMask.allFlagsFalse (FeatureMask.Clear m)
  /\ FeatureMask.allFlagsFalse (FeatureMask.default m)
  /\ FeatureMask.IsEmpty (FeatureMask.Clear m) = true
  /\ (forall level face,
        FeatureMask.allFlagsFalse m -> doesFaceHaveFeatures level face m = false).
Proof.
  intros Hb.
  assert (Hiff : FeatureMask.IsEmpty m = true <-> FeatureMask.allFlagsFalse m).
  { unfold FeatureMask.IsEmpty. split.
    - intros H. apply Z.eqb_eq in H. now apply zero_allFlagsFalse.
    - intros Hall. apply Z.eqb_eq.
      destruct Hb as [Hb | Hhigh]; [| now apply allFlagsFalse_zero].
      destruct (built_zero_or_NonManifold m Hb) as [Hz | Hn]; [assumption |].
      rewrite Hall in Hn; [discriminate |].
      unfold FeatureMask.fields. cbn. tauto. }
  repeat split; try apply Hiff; try (now apply zero_allFlagsFalse).
  intros level face Hall. apply Hiff in Hall.
  unfold doesFaceHaveFeatures. now rewrite Hall.
Qed.

End MaskFacts.

(** A mask constructed from options over storage that held other data. *)
Lemma IsEmpty_iff_all_flags_false_witness :
  let m := @FeatureMask.make Sample.schemeTraits Sample.adaptiveThree
             Sdc.SCHEME_CATMARK (FeatureMask.mk 4096) in
  (@FeatureMask.built Sample.schemeTraits m \/ FeatureMask.unusedBitsZero m)
  /\ ((FeatureMask.IsEmpty m = true <-> FeatureMask.allFlagsFalse m)
      /\ FeatureMask.allFlagsFalse (FeatureMask.Clear m)
      /\ FeatureMask.allFlagsFalse (FeatureMask.default m)
      /\ FeatureMask.IsEmpty (FeatureMask.Clear m) = true
      /\ (forall level face,
            FeatureMask.allFlagsFalse m -> doesFaceHaveFeatures level face m = false)).
Proof.
  cbv zeta. split.
  - left. apply FeatureMask.built_make.
  - apply (@IsEmpty_iff_all_flags_false Sample.schemeTraits).
    left. apply FeatureMask.built_make.
Defined.

(** ** The classifiers *)

(** C5, as the code has it.  On an irregular aggregate tag whose rule
    includes crease and does not include corner, the inf-sharp classifier
    answers [selectXOrdinaryBoundary] on a boundary and
    [selectInfSharpIrregularCrease] otherwise; on a regular boundary tag
    whose rule includes corner it answers false when the tag's corner bit is
    set and [selectInfSharpRegularCorner] otherwise; on a regular boundary
    tag without corner rule it answers false. *)
Theorem infSharp_classifier_cases (compVTag : VTag) (featureMask : FeatureMask.t) :
  (_infIrregular compVTag = true ->
   hasRule compVTag Sdc.Crease.RULE_CREASE = true ->
   hasRule compVTag Sdc.Crease.RULE_CORNER = false ->
   doesInfSharpFaceHaveFeatures compVTag featureMask =
     if _boundary compVTag
     then FeatureMask.selectXOrdinaryBoundary featureMask
     else FeatureMask.selectInfSharpIrregularCrease featureMask)
  /\ (_infIrregular compVTag = false -> _boundary compVTag = true ->
      hasRule compVTag Sdc.Crease.RULE_CORNER = true ->
      doesInfSharpFaceHaveFeatures compVTag featureMask =
        if _corner compVTag then false
        else FeatureMask.selectInfSharpRegularCorner featureMask)
  /\ (_infIrregular compVTag = false -> _boundary compVTag = true ->
      hasRule compVTag Sdc.Crease.RULE_CORNER = false ->
      doesInfSharpFaceHaveFeatures compVTag featureMask = false).
Proof.
  unfold doesInfSharpFaceHaveFeatures. repeat split.
  - intros Hirr Hcrease Hcorner. now rewrite Hirr, Hcorner, Hcrease.
  - intros Hirr Hb Hcorner. now rewrite Hirr, Hb, Hcorner.
  - intros Hirr Hb Hcorner. now rewrite Hirr, Hb, Hcorner.
Qed.

(** An interior irregular crease, and a regular boundary crease. *)
Lemma infSharp_classifier_cases_witness :
  let m := Sample.maskOf Sample.adaptiveThree in
  doesInfSharpFaceHaveFeatures Sample.irregularCrease m
    = FeatureMask.selectInfSharpIrregularCrease m
  /\ doesInfSharpFaceHaveFeatures Sample.boundaryCrease m = false.
Proof.
  cbv zeta. split.
  - exact (proj1 (infSharp_classifier_cases Sample.irregularCrease
                    (Sample.maskOf Sample.adaptiveThree))
             eq_refl eq_refl eq_refl).
  - exact (proj2 (proj2 (infSharp_classifier_cases Sample.boundaryCrease
                           (Sample.maskOf Sample.adaptiveThree)))
             eq_refl eq_refl eq_refl).
Defined.

(** C5, as stated, fails where the aggregate rule includes corner beside
    crease: the corner test comes first.  On an interior irregular tag with
    both rules and the reduced mask of [useInfSharpPatch], whose
    [selectInfSharpIrregularCrease] is false, the classifier answers
    [selectInfSharpIrregularCorner], which is true. *)
Lemma infSharp_crease_beside_corner :
  let t := Sample.irregularCornerCrease in
  let m := FeatureMask.ReduceFeatures Sample.adaptiveInfSharp
             (Sample.maskOf Sample.adaptiveInfSharp) in
  _infIrregular t = true
  /\ hasRule t Sdc.Crease.RULE_CREASE = true
  /\ _boundary t = false
  /\ FeatureMask.selectInfSharpIrregularCrease m = false
  /\ doesInfSharpFaceHaveFeatures t m = true.
Proof. cbv zeta. repeat split; reflexivity. Qed.

(** C6, as the code has it.  On the face-varying path the aggregate tag is
    the bitwise OR of the composite face-varying tags of the face's corner
    vertices; the classifier answers true if the aggregate is non-manifold
    and [selectNonManifold] is set, true if it is extraordinary and
    [selectXOrdinaryInterior] is set, true if no corner is smooth (the
    smooth rule is absent from the aggregate rule), and in every other case
    what the inf-sharp classifier answers on the aggregate. *)
Theorem fvar_classifier_cases (level : Level) (face : Index)
        (featureMask : FeatureMask.t) (fvarChannel : Z) :
  let corner v := getVertexCompositeFVarVTag level v fvarChannel in
  let compVTag := compFVarVTag level face fvarChannel in
  let result := doesFaceHaveDistinctFaceVaryingFeatures level face featureMask fvarChannel in
  (forall v vs, getFaceVertices level face = v :: vs ->
     compVTag = fold_left VTag_or (map corner vs) (corner v))
  /\ (_nonManifold compVTag = true ->
      FeatureMask.selectNonManifold featureMask = true -> result = true)
  /\ (_xordinary compVTag = true ->
      FeatureMask.selectXOrdinaryInterior featureMask = true -> result = true)
  /\ (hasRule compVTag Sdc.Crease.RULE_SMOOTH = false -> result = true)
  /\ (_nonManifold compVTag && FeatureMask.selectNonManifold featureMask = false ->
      _xordinary compVTag && FeatureMask.selectXOrdinaryInterior featureMask = false ->
      hasRule compVTag Sdc.Crease.RULE_SMOOTH = true ->
      result = doesInfSharpFaceHaveFeatures compVTag featureMask).
Proof.
  cbv zeta. unfold doesFaceHaveDistinctFaceVaryingFeatures. repeat split.
  - intros v vs Hverts. unfold compFVarVTag. rewrite Hverts.
    cbn [map BitwiseOr].
    now rewrite firstn_all2 by (rewrite length_map; cbn [length]; lia).
  - intros Hn Hm. now rewrite Hn, Hm.
  - intros Hx Hm. rewrite Hx, Hm.
    now destruct (_nonManifold _ && _).
  - intros Hs. rewrite Hs.
    destruct (_nonManifold _ && _); [reflexivity |].
    now destruct (_xordinary _ && _).
  - intros Hn Hx Hs. now rewrite Hn, Hx, Hs.
Qed.

(** A quad with two corners on a regular face-varying boundary crease. *)
Lemma fvar_classifier_cases_witness :
  let m := Sample.maskOf Sample.adaptiveFVar in
  doesFaceHaveDistinctFaceVaryingFeatures Sample.seamLevel 0 m 0
  = doesInfSharpFaceHaveFeatures (compFVarVTag Sample.seamLevel 0 0) m.
Proof.
  cbv zeta.
  exact (proj2 (proj2 (proj2 (proj2
           (fvar_classifier_cases Sample.seamLevel 0
              (Sample.maskOf Sample.adaptiveFVar) 0))))
           eq_refl eq_refl eq_refl).
Defined.

(** C6, as stated, fails on the same quad: its aggregate rule, smooth
    together with crease, is not fully smooth, yet the classifier answers
    false, the inf-sharp classifier's answer on a regular boundary. *)
Lemma fvar_not_fully_smooth_not_selected :
  let m := Sample.maskOf Sample.adaptiveFVar in
  let compVTag := compFVarVTag Sample.seamLevel 0 0 in
  doesFaceFVarTopologyMatch Sample.seamLevel 0 0 = false
  /\ _rule compVTag <> Sdc.Crease.RULE_SMOOTH
  /\ _nonManifold compVTag = false
  /\ _xordinary compVTag = false
  /\ doesFaceHaveDistinctFaceVaryingFeatures Sample.seamLevel 0 m 0 = false.
Proof. cbv zeta. repeat split; try reflexivity. now vm_compute. Qed.

(** The guard of the main-topology path: a face whose aggregate corner tag
    is incomplete has no features there. *)
Lemma doesFaceHaveFeatures_incomplete (level : Level) (face : Index)
      (featureMask : FeatureMask.t) :
  _incomplete (compFaceVTag level face) = true ->
  doesFaceHaveFeatures level face featureMask = false.
Proof.
  unfold compFaceVTag, doesFaceHaveFeatures. intros H.
  destruct (FeatureMask.IsEmpty featureMask); [reflexivity |].
  cbv zeta. now rewrite H.
Qed.


(** ** The selection driver *)

Lemma selectFace_fold (faces : list Index) (s : SparseSelector) :
  selectedFaces (getRefinement (fold_left (fun sel f => selectFace f sel) faces s))
  = selectedFaces (getRefinement s) ++ faces.
Proof.
  revert s. induction faces as [| f faces IH]; intros s; cbn [fold_left].
  - now rewrite app_nil_r.
  - rewrite IH. cbn. now rewrite <- app_assoc.
Qed.

Lemma selectIncidentFaces_faces (level : Level) (faceVerts : list Index)
      (s : SparseSelector) :
  selectedFaces (getRefinement (selectIncidentFaces level faceVerts s))
  = selectedFaces (getRefinement s) ++ flat_map (getVertexFaces level) faceVerts.
Proof.
  unfold selectIncidentFaces. revert s.
  induction faceVerts as [| v vs IH]; intros s; cbn [fold_left flat_map].
  - now rewrite app_nil_r.
  - rewrite IH, selectFace_fold. now rewrite <- app_assoc.
Qed.

(** An iteration appends to the selection, and what it appends does not
    depend on the selection so far. *)
Lemma selectFeatureAdaptiveFace_registers level featureMask irregular
      numFVarChannels regularFaceSize neighborhood (s : SparseSelector) face :
  selectedFaces (getRefinement
    (selectFeatureAdaptiveFace level featureMask irregular numFVarChannels
       regularFaceSize neighborhood s face))
  = selectedFaces (getRefinement s)
    ++ facesRegisteredFor level featureMask irregular numFVarChannels
         regularFaceSize neighborhood face.
Proof.
  unfold facesRegisteredFor, selectFeatureAdaptiveFace.
  destruct (isFaceHole level face); [now rewrite app_nil_r |].
  destruct (irregular && _).
  - destruct (neighborhood =? 0); [reflexivity |].
    now rewrite !selectIncidentFaces_faces.
  - destruct (faceHasSelectedFeatures _ _ _ _); [reflexivity | now rewrite app_nil_r].
Qed.

Lemma selectFeatureAdaptiveFace_fold level featureMask irregular
      numFVarChannels regularFaceSize neighborhood (faces : list Index)
      (s : SparseSelector) :
  selectedFaces (getRefinement
    (fold_left (selectFeatureAdaptiveFace level featureMask irregular
                  numFVarChannels regularFaceSize neighborhood) faces s))
  = selectedFaces (getRefinement s)
    ++ flat_map (facesRegisteredFor level featureMask irregular numFVarChannels
                   regularFaceSize neighborhood) faces.
Proof.
  revert s. induction faces as [| f faces IH]; intros s; cbn [fold_left flat_map].
  - now rewrite app_nil_r.
  - rewrite IH, selectFeatureAdaptiveFace_registers. now rewrite <- app_assoc.
Qed.

Section Driver.
Context {traits : Sdc.SchemeTypeTraits}.

(** C7.  At depth 0, a non-hole face whose vertex count differs from the
    regular face size makes its iteration register, whatever the feature
    mask and the tags are, the face alone when the scheme's neighborhood
    size is zero and otherwise every face incident on every vertex of the
    face, its one-ring; the one-ring contains the face itself when the
    level's adjacency lists the face at its vertices.  So when one such
    face is the only irregular one and no face outside its one-ring has a
    selected feature, the selection of the pass is exactly its one-ring. *)
Theorem depth0_irregular_face_selection (subdivType : Sdc.SchemeType)
        (selector : SparseSelector) (featureMask : FeatureMask.t) (face0 : Index) :
  let level := parent (getRefinement selector) in
  let regularFaceSize := getRegularFaceSize (getRefinement selector) in
  let neighborhood := Sdc.GetLocalNeighborhoodSize subdivType in
  let numFVarChannels := inspectedFVarChannels level featureMask in
  isFaceHole level face0 = false ->
  Z.of_nat (length (getFaceVertices level face0)) <> regularFaceSize ->
  (forall sel mask,
     selectedFaces (getRefinement
       (selectFeatureAdaptiveFace level mask true (inspectedFVarChannels level mask)
          regularFaceSize neighborhood sel face0))
     = selectedFaces (getRefinement sel)
       ++ (if neighborhood =? 0 then [face0] else oneRing level face0))
  /\ (getFaceVertices level face0 <> [] ->
      (forall v, In v (getFaceVertices level face0) -> In face0 (getVertexFaces level v)) ->
      In face0 (oneRing level face0))
  /\ (getDepth level = 0 ->
      selectedFaces (getRefinement selector) = [] ->
      0 <= face0 < getNumFaces level ->
      neighborhood <> 0 ->
      (forall f, 0 <= f < getNumFaces level -> f <> face0 ->
                 isFaceHole level f = false ->
                 Z.of_nat (length (getFaceVertices level f)) = regularFaceSize
                 /\ (faceHasSelectedFeatures level f featureMask numFVarChannels = true ->
                     In f (oneRing level face0))) ->
      forall f,
        In f (selectedFaces (getRefinement
                (selectFeatureAdaptiveComponents subdivType selector featureMask)))
        <-> In f (oneRing level face0)).
Proof.
  cbv zeta. intros Hhole Hsize.
  assert (Hreg : forall mask n,
            facesRegisteredFor (parent (getRefinement selector)) mask true n
              (getRegularFaceSize (getRefinement selector))
              (Sdc.GetLocalNeighborhoodSize subdivType) face0
            = if Sdc.GetLocalNeighborhoodSize subdivType =? 0 then [face0]
              else oneRing (parent (getRefinement selector)) face0).
  { intros mask n. unfold facesRegisteredFor, selectFeatureAdaptiveFace.
    rewrite Hhole. apply Z.eqb_neq in Hsize. rewrite Hsize. cbn [andb negb].
    destruct (_ =? 0); [reflexivity |].
    now rewrite selectIncidentFaces_faces. }
  split; [| split].
  - intros sel mask. now rewrite selectFeatureAdaptiveFace_registers, Hreg.
  - intros Hne Hadj. unfold oneRing. apply in_flat_map.
    destruct (getFaceVertices _ face0) as [| v vs] eqn:Hv; [congruence |].
    exists v. split; [now left | apply Hadj; now left].
  - intros Hdepth Hfresh Hrange Hnbh Hothers f.
    unfold selectFeatureAdaptiveComponents.
    rewrite Hdepth. cbn [Z.eqb negb]. rewrite andb_false_r.
    rewrite selectFeatureAdaptiveFace_fold, Hfresh. cbn [app].
    rewrite in_flat_map. apply Z.eqb_neq in Hnbh. split.
    + intros [face [Hin Hf]]. apply In_upto in Hin.
      destruct (Z.eq_dec face face0) as [-> | Hne].
      * now rewrite Hreg, Hnbh in Hf.
      * unfold facesRegisteredFor, selectFeatureAdaptiveFace in Hf.
        destruct (isFaceHole _ face) eqn:Hh; [destruct Hf |].
        destruct (Hothers face Hin Hne Hh) as [Hsz Hfeat].
        rewrite Hsz, Z.eqb_refl in Hf. cbn [andb negb] in Hf.
        destruct (faceHasSelectedFeatures _ _ _ _); [| destruct Hf].
        destruct Hf as [<- | []]. now apply Hfeat.
    + intros Hin. exists face0. split; [now apply In_upto |].
      now rewrite Hreg, Hnbh.
Qed.

End Driver.

(** The pentagon of [Sample.pentagonMesh]: the pass at depth 0 selects it
    and the five quads around it, and not the quad apart from them. *)
Lemma depth0_irregular_face_selection_witness :
  let selector :=
    mkSelector (Refinement_new Sdc.SPLIT_TO_QUADS Sample.pentagonMesh Level_new
                  (Sdc.Build_Options 0)) in
  let selection :=
    selectedFaces (getRefinement
      (Sample.select Sdc.SCHEME_CATMARK selector (Sample.maskOf Sample.adaptiveThree))) in
  (forall f, In f [0; 1; 2; 3; 4; 5] -> In f selection) /\ ~ In 6 selection.
Proof.
  cbv zeta.
  pose proof (@depth0_irregular_face_selection Sample.schemeTraits Sdc.SCHEME_CATMARK
    (mkSelector (Refinement_new Sdc.SPLIT_TO_QUADS Sample.pentagonMesh Level_new
                   (Sdc.Build_Options 0)))
    (Sample.maskOf Sample.adaptiveThree) 0) as H.
  cbv zeta in H.
  destruct (H eq_refl ltac:(discriminate)) as [_ [_ Hpass]]. clear H.
  assert (Hiff := Hpass eq_refl eq_refl ltac:(cbn; lia) ltac:(discriminate)).
  clear Hpass.
  assert (Hothers : forall f,
    0 <= f < 7 -> f <> 0 -> isFaceHole Sample.pentagonMesh f = false ->
    Z.of_nat (length (getFaceVertices Sample.pentagonMesh f)) = 4
    /\ (faceHasSelectedFeatures Sample.pentagonMesh f (Sample.maskOf Sample.adaptiveThree)
          (inspectedFVarChannels Sample.pentagonMesh (Sample.maskOf Sample.adaptiveThree))
        = true -> In f (oneRing Sample.pentagonMesh 0))).
  { intros f Hr Hne _.
    assert (Hf : f = 1 \/ f = 2 \/ f = 3 \/ f = 4 \/ f = 5 \/ f = 6) by lia.
    destruct Hf as [-> | [-> | [-> | [-> | [-> | ->]]]]];
      (split; [reflexivity | intros Hfeat; vm_compute in Hfeat; discriminate]). }
  specialize (Hiff Hothers). split.
  - intros f Hf. apply Hiff. cbn in Hf.
    destruct Hf as [<- | [<- | [<- | [<- | [<- | [<- | []]]]]]]; vm_compute; tauto.
  - intros H6. apply Hiff in H6. vm_compute in H6.
    repeat (destruct H6 as [H6 | H6]; [discriminate |]). exact H6.
Defined.

(** ** The refiner *)

Local Open Scope nat_scope.

(** Case analysis on the subscripts and tests of a call that returned. *)
Ltac returned H :=
  repeat match type of H with
         | context [match ?x with _ => _ end] =>
             let E := fresh "E" in destruct x eqn:E; try discriminate H
         end.

Lemma resize_length {A} (n : nat) (d : A) (v : list A) :
  length (resize n d v) = n.
Proof.
  unfold resize. rewrite length_app, length_firstn, repeat_length. lia.
Qed.

Lemma assign_length {A} (v v' : list A) (i : nat) (f : A -> A) :
  assign v i f = Some v' -> length v' = length v.
Proof.
  unfold assign. intros H. returned H. injection H as <-.
  assert (i < length v) by (apply nth_error_Some; congruence).
  rewrite length_app, length_firstn.
  change (match v with [] => [] | _ :: l => skipn i l end) with (skipn (S i) v).
  cbn [length]. rewrite length_skipn. lia.
Qed.

Lemma assign_total {A} (v : list A) (i : nat) (f : A -> A) :
  i < length v -> exists v', assign v i f = Some v'.
Proof.
  intros Hi. unfold assign. destruct (nth_error v i) eqn:E; [eauto |].
  apply nth_error_None in E. lia.
Qed.

Lemma nth_error_total {A} (v : list A) (i : nat) :
  i < length v -> exists x, nth_error v i = Some x.
Proof.
  intros Hi. destruct (nth_error v i) eqn:E; [eauto |].
  apply nth_error_None in E. lia.
Qed.

Lemma assembleInnerFarLevels_total levels refinements indices :
  forall far,
    (forall i, In i indices ->
               i < length refinements /\ i < length levels /\ i < length far) ->
    exists far', assembleInnerFarLevels levels refinements indices far = Some far'
                 /\ length far' = length far.
Proof.
  induction indices as [| i rest IH]; intros far Hin; cbn [assembleInnerFarLevels].
  - eauto.
  - destruct (Hin i (or_introl eq_refl)) as [Hr [Hl Hf]].
    destruct (nth_error_total refinements (i - 1)) as [? ->]; [lia |].
    destruct (nth_error_total levels i) as [? ->]; [lia |].
    destruct (nth_error_total refinements i) as [? ->]; [lia |].
    destruct (assign_total far i
                (fun _ => mkFarLevel (Some (i - 1)) (Some i) (Some i)) Hf)
      as [far1 Hfar1].
    rewrite Hfar1. apply assign_length in Hfar1.
    destruct (IH far1) as [far' [-> Hlen]].
    + intros j Hj. specialize (Hin j (or_intror Hj)). lia.
    + exists far'. split; [reflexivity | lia].
Qed.

(** With a level more than refinements, every subscript of
    [assembleFarLevels] is in range, and it touches [_farLevels] only. *)
Lemma assembleFarLevels_total (r : TopologyRefiner) :
  length (_refinements r) < length (_levels r) ->
  exists far, assembleFarLevels r = Some (set_farLevels far r).
Proof.
  intros Hlen. unfold assembleFarLevels.
  destruct (nth_error_total (_levels r) 0) as [? ->]; [lia |].
  set (far0 := resize (length (_levels r)) FarLevel_null (_farLevels r)).
  assert (Hfar0 : length far0 = length (_levels r)) by apply resize_length.
  destruct (assign_total far0 0 (fun _ => mkFarLevel None (Some 0) None))
    as [far1 Hfar1]; [lia |].
  rewrite Hfar1. apply assign_length in Hfar1.
  destruct (length (_refinements r)) as [| last] eqn:Hn; [eauto |].
  destruct (nth_error_total (_refinements r) 0) as [? ->]; [lia |].
  destruct (assign_total far1 0
              (fun f => mkFarLevel (_refToParent f) (_level f) (Some 0)))
    as [far2 Hfar2]; [lia |].
  rewrite Hfar2. apply assign_length in Hfar2.
  destruct (assembleInnerFarLevels_total (_levels r) (_refinements r) (seq 1 last) far2)
    as [far3 [-> Hfar3]].
  { intros i Hi. apply in_seq in Hi. lia. }
  destruct (nth_error_total (_refinements r) last) as [? ->]; [lia |].
  destruct (nth_error_total (_levels r) (S last)) as [? ->]; [lia |].
  destruct (assign_total far3 (S last)
              (fun _ => mkFarLevel (Some last) (Some (S last)) None))
    as [far4 ->]; [lia |].
  eauto.
Qed.

Lemma assembleFarLevels_inv (r r' : TopologyRefiner) :
  assembleFarLevels r = Some r' -> exists far, r' = set_farLevels far r.
Proof.
  unfold assembleFarLevels. intros H. returned H; injection H as <-; eauto.
Qed.

Lemma initializeInventory_inv (r r' : TopologyRefiner) :
  initializeInventory r = Some r' ->
  _levels r' = _levels r /\ _refinements r' = _refinements r.
Proof.
  unfold initializeInventory. intros H. returned H; injection H as <-; now split.
Qed.

Section RefinerFacts.
Context {traits : Sdc.SchemeTypeTraits} {R : Refine}.

Lemma TopologyRefiner_new_inv schemeType schemeOptions r :
  TopologyRefiner_new schemeType schemeOptions = Some r ->
  _levels r = [Level_new] /\ _refinements r = [].
Proof.
  unfold TopologyRefiner_new. intros H.
  apply assembleFarLevels_inv in H as [far ->]. now split.
Qed.

Lemma populateBaseLevel_inv baseLevel r r' :
  populateBaseLevel baseLevel r = Some r' ->
  _levels r' = [baseLevel] /\ _refinements r' = [].
Proof.
  unfold populateBaseLevel. intros H. returned H.
  apply initializeInventory_inv in H as [-> ->]. now split.
Qed.

(** [Unrefine] keeps the first level and nothing else of the two stacks. *)
Lemma Unrefine_inv r r' events :
  Unrefine r = Some (r', events) ->
  length (_levels r') = 1
  /\ _levels r' = firstn 1 (_levels r)
  /\ _refinements r' = [].
Proof.
  unfold Unrefine. intros H.
  destruct (_levels r) as [| base rest] eqn:Hl.
  - exfalso. unfold assembleFarLevels in H.
    cbn [_levels set_refinements] in H. rewrite Hl in H. discriminate H.
  - returned H. injection H as <- _.
    apply assembleFarLevels_inv in E0 as [far ->].
    apply initializeInventory_inv in E as [El Er]. cbn in *.
    rewrite El. repeat split.
Qed.

Lemma Unrefine_total r :
  _levels r <> [] -> exists r' events, Unrefine r = Some (r', events).
Proof.
  intros Hne. unfold Unrefine.
  destruct (_levels r) as [| base rest] eqn:Hl; [congruence |].
  change (resize 1 Level_new (base :: rest)) with [base].
  change (initializeInventory (set_levels [base] r))
    with (Some (set_inventory (getNumVertices base) (getNumEdges base)
                  (getNumFaces base) (getNumFaceVerticesTotal base)
                  (getMaxValence base) (set_levels [base] r))).
  destruct (assembleFarLevels_total
    (set_refinements []
       (set_inventory (getNumVertices base) (getNumEdges base) (getNumFaces base)
          (getNumFaceVerticesTotal base) (getMaxValence base)
          (set_levels [base] r)))) as [far ->]; [cbn; lia |].
  eauto.
Qed.

End RefinerFacts.

Section Passes.
Context {traits : Sdc.SchemeTypeTraits} {R : Refine}.

(** Projections of a refiner after [appendLevel] and [appendRefinement]. *)
Ltac appended :=
  cbn [_levels _refinements _subdivType _subdivOptions _maxLevel
       appendLevel appendRefinement updateInventory
       set_inventory set_levels set_refinements] in *.

(** Each pass of the uniform loop appends one level and one refinement,
    and the refinement of pass [i + j] was refined with that pass's options. *)
Lemma uniformPasses_run options splitType passes :
  forall i r r' events,
    uniformPasses options splitType passes i r = Some (r', events) ->
    length (_levels r') = length (_levels r) + passes
    /\ length (_refinements r') = length (_refinements r) + passes
    /\ (forall j, j < length (_refinements r) ->
                  nth_error (_refinements r') j = nth_error (_refinements r) j)
    /\ (forall j ref,
          nth_error (_refinements r') (length (_refinements r) + j) = Some ref ->
          refinedWith ref = Some (uniformRefineOptions options (i + j))).
Proof.
  induction passes as [| passes IH]; intros i r r' events H; cbn [uniformPasses] in H.
  - injection H as <- <-. repeat split; try lia.
    intros j ref Hj. exfalso.
    assert (nth_error (_refinements r) (length (_refinements r) + j) = None)
      by (apply nth_error_None; lia).
    congruence.
  - returned H. destruct p as [r1 ev1]. injection H as <- <-.
    apply IH in E0 as [Hl [Hr [Hpre Hopt]]]. appended.
    rewrite length_app in Hl, Hr, Hpre, Hopt. cbn [length] in Hl, Hr, Hpre, Hopt.
    repeat split; try lia.
    + intros j Hj. rewrite Hpre by lia. now apply nth_error_app1.
    + intros j ref Hj. destruct j as [| j].
      * rewrite Nat.add_0_r in Hj |- *. rewrite Hpre in Hj by lia.
        rewrite nth_error_app2, Nat.sub_diag in Hj by lia.
        injection Hj as <-. reflexivity.
      * replace (length (_refinements r) + S j)
          with (length (_refinements r) + 1 + j) in Hj by lia.
        apply Hopt in Hj. rewrite Hj. do 2 f_equal. lia.
Qed.

Lemma refinedPasses_app (events events' : list Event) :
  refinedPasses (events ++ events') = refinedPasses events + refinedPasses events'.
Proof. unfold refinedPasses. now rewrite filter_app, length_app. Qed.


Lemma uniformPasses_total options splitType passes :
  forall i r, 1 <= i -> i <= length (_levels r) ->
              exists result, uniformPasses options splitType passes i r = Some result.
Proof.
  induction passes as [| passes IH]; intros i r Hi Hlen; cbn [uniformPasses].
  - eauto.
  - destruct (nth_error_total (_levels r) (i - 1)) as [parentLevel ->]; [lia |].
    match goal with
    | |- context [uniformPasses _ _ _ (S i) ?r1] =>
        destruct (IH (S i) r1) as [result ->]
    end; [lia | appended; rewrite length_app; cbn [length]; lia | eauto].
Qed.

(** What a call of [RefineUniform] that passes its checks comes to. *)
Lemma RefineUniform_proceeds options r baseLevel :
  nth_error (_levels r) 0 = Some baseLevel ->
  getNumVertices baseLevel <> 0%Z ->
  _refinements r = [] ->
  exists r0 events far,
    uniformPasses options (Sdc.GetTopologicalSplitType (_subdivType r))
      (UniformOptions.refinementLevel options) 1
      (set_maxLevel (UniformOptions.refinementLevel options)
         (set_isUniform true (set_uniformOptions options r)))
    = Some (r0, events)
    /\ RefineUniform options r = Some (set_farLevels far r0, events).
Proof.
  intros Hbase Hverts Hrefs. unfold RefineUniform. rewrite Hbase.
  apply Z.eqb_neq in Hverts. rewrite Hverts, Hrefs. cbn [length Nat.eqb negb].
  cbv zeta. cbn [_subdivType set_maxLevel set_isUniform set_uniformOptions].
  match goal with
  | |- context [uniformPasses ?o ?s ?n 1 ?r1] =>
      destruct (uniformPasses_total o s n 1 r1) as [[r0 events] Hrun]
  end.
  - lia.
  - cbn. apply nth_error_Some. congruence.
  - exists r0, events.
    pose proof (uniformPasses_run _ _ _ _ _ _ _ Hrun) as [Hl [Hr _]].
    destruct (assembleFarLevels_total r0) as [far Hfar].
    { cbn in Hl, Hr. rewrite Hrefs in Hr. cbn in Hr.
      assert (0 < length (_levels r)) by (apply nth_error_Some; congruence). lia. }
    exists far. split; [exact Hrun |].
    cbn [_subdivType set_maxLevel set_isUniform set_uniformOptions] in Hrun.
    rewrite Hrun. cbn [fst snd]. now rewrite Hfar.
Qed.

Section AdaptiveLoop.
Variables (options : AdaptiveOptions.t) (splitType : Sdc.Split) (shallowLevel : nat)
          (moreFeaturesMask lessFeaturesMask : FeatureMask.t).

(** The adaptive loop appends as many levels as refinements, at most one
    of each per pass, keeps the levels it found, and logs nothing of a
    pass before its first. *)
Lemma adaptivePasses_run passes :
  forall i r r' events,
    adaptivePasses options splitType shallowLevel moreFeaturesMask
      lessFeaturesMask passes i r = Some (r', events) ->
    exists k,
      k <= passes
      /\ length (_levels r') = length (_levels r) + k
      /\ length (_refinements r') = length (_refinements r) + k
      /\ _subdivType r' = _subdivType r
      /\ _subdivOptions r' = _subdivOptions r
      /\ (forall j, j < length (_levels r) ->
                    nth_error (_levels r') j = nth_error (_levels r) j)
      /\ (forall e j, In e events -> eventPass e = Some j -> i <= j).
Proof.
  induction passes as [| passes IH]; intros i r r' events H; cbn [adaptivePasses] in H.
  - injection H as <- <-. exists 0. repeat split; try lia. intros e j [].
  - returned H.
    + injection H as <- <-. exists 0. repeat split; try lia.
      intros e j He Hj. cbn in He.
      repeat (destruct He as [<- | He]; [cbn in Hj; injection Hj as <-; lia |]).
      destruct He.
    + destruct p as [r1 ev1]. injection H as <- <-.
      apply IH in E1 as [k [Hk [Hl [Hr [Ht [Ho [Hpre Hev]]]]]]]. appended.
      rewrite length_app in Hl, Hr, Hpre. cbn [length] in Hl, Hr, Hpre.
      exists (S k). repeat split; try lia; try assumption.
      * intros j Hj. rewrite Hpre by lia. now apply nth_error_app1.
      * intros e j He Hj. cbn in He.
        repeat (destruct He as [<- | He]; [cbn in Hj; injection Hj as <-; lia |]).
        specialize (Hev e j He Hj). lia.
Qed.

Lemma adaptivePasses_total passes :
  forall i r, 1 <= i -> i <= length (_levels r) ->
              exists result, adaptivePasses options splitType shallowLevel moreFeaturesMask
      lessFeaturesMask passes i r = Some result.
Proof.
  induction passes as [| passes IH]; intros i r Hi Hlen; cbn [adaptivePasses].
  - eauto.
  - destruct (nth_error_total (_levels r) (i - 1)) as [parentLevel ->]; [lia |].
    destruct (isSelectionEmpty _); [eauto |].
    match goal with
    | |- context [adaptivePasses _ _ _ _ _ _ (S i) ?r1] =>
        destruct (IH (S i) r1) as [result ->]
    end; [lia | appended; rewrite length_app; cbn [length]; lia | eauto].
Qed.

(** The pass whose selection is empty is the last: its refinement and
    level are deleted, it is not refined, no later pass leaves an event,
    and the refinements appended are those of the passes before it. *)
Lemma adaptivePasses_empty_selection passes :
  forall i r r' events,
    1 <= i ->
    adaptivePasses options splitType shallowLevel moreFeaturesMask
      lessFeaturesMask passes i r = Some (r', events) ->
    forall j parentLevel,
      In (SelectComponents j) events ->
      nth_error (_levels r') (j - 1) = Some parentLevel ->
      isSelectionEmpty
        (adaptiveSelection (_subdivType r) (_subdivOptions r) splitType shallowLevel
           moreFeaturesMask lessFeaturesMask j parentLevel) = true ->
      length (_refinements r') = length (_refinements r) + (j - i)
      /\ In (DeleteRefinement j) events
      /\ In (DeleteLevel j) events
      /\ (forall o, ~ In (RefineWith j o) events)
      /\ (forall e j', In e events -> eventPass e = Some j' -> j' <= j).
Proof.
  induction passes as [| passes IH]; intros i r r' events Hi H j parentLevel Hsel Hparent Hempty;
    cbn [adaptivePasses] in H.
  - injection H as <- <-. destruct Hsel.
  - returned H.
    + injection H as <- <-. cbn in Hsel.
      destruct Hsel as [Hs | [Hs | [Hs | [Hs | [Hs | []]]]]]; try discriminate Hs.
      injection Hs as <-. rewrite Nat.sub_diag, Nat.add_0_r.
      repeat split; cbn; try tauto.
      * intros o Ho. intuition discriminate.
      * intros e j' He Hj'.
        repeat (destruct He as [<- | He]; [cbn in Hj'; injection Hj' as <-; lia |]).
        destruct He.
    + destruct p as [r1 ev1]. injection H as <- <-.
      pose proof (adaptivePasses_run _ _ _ _ _ E1) as [k [_ [_ [_ [_ [_ [Hpre Hev]]]]]]].
      appended. rewrite length_app in Hpre. cbn [length] in Hpre.
      assert (Hin : i - 1 < length (_levels r)) by (apply nth_error_Some; congruence).
      cbn in Hsel.
      destruct Hsel as [Hs | [Hs | [Hs | [Hs | Hs]]]]; try discriminate Hs.
      * injection Hs as <-. exfalso.
        rewrite Hpre, nth_error_app1, E in Hparent by lia.
        injection Hparent as <-. congruence.
      * assert (Hj : S i <= j) by (apply (Hev _ _ Hs); reflexivity).
        destruct (IH (S i) _ _ _ ltac:(lia) E1 j parentLevel Hs Hparent Hempty)
          as [Hlen [Hdr [Hdl [Hno Hlast]]]].
        appended. rewrite length_app in Hlen. cbn [length] in Hlen.
        repeat split.
        -- lia.
        -- cbn. tauto.
        -- cbn. tauto.
        -- intros o Ho. cbn in Ho.
           destruct Ho as [Ho | [Ho | [Ho | [Ho | Ho]]]]; try discriminate Ho.
           ++ injection Ho as -> _. lia.
           ++ exact (Hno o Ho).
        -- intros e j' He Hj'. cbn in He.
           repeat (destruct He as [<- | He]; [cbn in Hj'; injection Hj' as <-; lia |]).
           exact (Hlast e j' He Hj').
Qed.


End AdaptiveLoop.

(** What a call of [RefineAdaptive] that passes its checks comes to. *)
Lemma RefineAdaptive_proceeds options storage r baseLevel :
  nth_error (_levels r) 0 = Some baseLevel ->
  getNumVertices baseLevel <> 0%Z ->
  _refinements r = [] ->
  _subdivType r = Sdc.SCHEME_CATMARK ->
  exists r0 events far,
    (let masks := adaptiveFeatureMasks options storage (_subdivType r) baseLevel in
     adaptivePasses options (Sdc.GetTopologicalSplitType (_subdivType r))
       (Nat.min (AdaptiveOptions.secondaryLevel options)
                (AdaptiveOptions.isolationLevel options))
       (fst masks) (snd masks) (AdaptiveOptions.isolationLevel options) 1
       (set_adaptiveOptions options (set_isUniform false r)))
    = Some (r0, events)
    /\ RefineAdaptive options storage r
       = Some (set_farLevels far (set_maxLevel (length (_refinements r0)) r0), events).
Proof.
  intros Hbase Hverts Hrefs Hscheme. unfold RefineAdaptive. rewrite Hbase.
  apply Z.eqb_neq in Hverts. rewrite Hverts, Hrefs, Hscheme.
  cbn [length Nat.eqb negb Sdc.SchemeType_eqb]. cbv zeta.
  cbn [_subdivType set_adaptiveOptions set_isUniform].
  match goal with
  | |- context [adaptivePasses ?o ?s ?sh ?m ?l ?n 1 ?r1] =>
      destruct (adaptivePasses_total o s sh m l n 1 r1) as [[r0 events] Hrun]
  end.
  - lia.
  - cbn. apply nth_error_Some. congruence.
  - exists r0, events.
    pose proof (adaptivePasses_run _ _ _ _ _ _ _ _ _ _ Hrun)
      as [k [_ [Hl [Hr _]]]].
    destruct (assembleFarLevels_total (set_maxLevel (length (_refinements r0)) r0))
      as [far Hfar].
    { cbn in Hl, Hr |- *. rewrite Hrefs in Hr. cbn in Hr.
      assert (0 < length (_levels r)) by (apply nth_error_Some; congruence). lia. }
    exists far. rewrite Hscheme. split; [exact Hrun |].
    rewrite Hrun. cbn [fst snd]. now rewrite Hfar.
Qed.

End Passes.

Section Refiner.
Context {traits : Sdc.SchemeTypeTraits} {R : Refine}.

Lemma RefineUniform_grows options r r' events :
  RefineUniform options r = Some (r', events) ->
  exists k, length (_levels r') = length (_levels r) + k
            /\ length (_refinements r') = length (_refinements r) + k.
Proof.
  unfold RefineUniform. intros H. returned H.
  - injection H as <- _. exists 0. lia.
  - injection H as <- _. exists 0. lia.
  - injection H as <- _. destruct p as [r0 ev0].
    apply assembleFarLevels_inv in E3 as [far ->].
    apply uniformPasses_run in E2 as [Hl [Hr _]].
    exists (UniformOptions.refinementLevel options). cbn in *. lia.
Qed.

Lemma RefineAdaptive_grows options storage r r' events :
  RefineAdaptive options storage r = Some (r', events) ->
  exists k, length (_levels r') = length (_levels r) + k
            /\ length (_refinements r') = length (_refinements r) + k.
Proof.
  unfold RefineAdaptive. intros H. returned H.
  - injection H as <- _. exists 0. lia.
  - injection H as <- _. exists 0. lia.
  - injection H as <- _. exists 0. lia.
  - injection H as <- _. destruct p as [r0 ev0].
    apply assembleFarLevels_inv in E4 as [far ->].
    apply adaptivePasses_run in E3 as [k [_ [Hl [Hr _]]]].
    exists k. cbn in *. lia.
Qed.




Lemma reachable_levels (r : TopologyRefiner) :
  reachable r -> length (_levels r) = length (_refinements r) + 1.
Proof.
  induction 1 as [st so r Hnew | base r r' _ _ Hpop
                  | o r r' ev _ IH Hu | o s r r' ev _ IH Ha | r r' ev _ _ Hun].
  - apply TopologyRefiner_new_inv in Hnew as [-> ->]. reflexivity.
  - apply populateBaseLevel_inv in Hpop as [-> ->]. reflexivity.
  - apply RefineUniform_grows in Hu as [k [-> ->]]. lia.
  - apply RefineAdaptive_grows in Ha as [k [-> ->]]. lia.
  - apply Unrefine_inv in Hun as [-> [_ ->]]. reflexivity.
Qed.


(** On a reachable refiner the three calls return: no subscript of theirs
    is out of range. *)
Lemma reachable_calls_return (r : TopologyRefiner) :
  reachable r ->
  (forall options, exists result, RefineUniform options r = Some result)
  /\ (forall options storage, exists result, RefineAdaptive options storage r = Some result)
  /\ (exists result, Unrefine r = Some result).
Proof.
  intros Hr. apply reachable_levels in Hr as Hinv.
  assert (Hone : 1 <= length (_levels r)) by lia.
  destruct (nth_error_total (_levels r) 0) as [baseLevel Hbase]; [lia |].
  split; [| split].
  - intros options.
    destruct (Z.eq_dec (getNumVertices baseLevel) 0) as [Hz | Hnz].
    { unfold RefineUniform. rewrite Hbase, Hz. cbn. eauto. }
    destruct (_refinements r) as [| ref refs] eqn:Hrefs.
    + destruct (RefineUniform_proceeds options r baseLevel Hbase Hnz Hrefs)
        as [r0 [ev [far [_ ->]]]]. eauto.
    + unfold RefineUniform. rewrite Hbase, Hrefs.
      apply Z.eqb_neq in Hnz. rewrite Hnz. cbn. eauto.
  - intros options storage.
    destruct (Z.eq_dec (getNumVertices baseLevel) 0) as [Hz | Hnz].
    { unfold RefineAdaptive. rewrite Hbase, Hz. cbn. eauto. }
    destruct (_refinements r) as [| ref refs] eqn:Hrefs.
    + destruct (_subdivType r) eqn:Hs.
      * unfold RefineAdaptive. rewrite Hbase, Hrefs, Hs.
        apply Z.eqb_neq in Hnz. rewrite Hnz. cbn. eauto.
      * destruct (RefineAdaptive_proceeds options storage r baseLevel Hbase Hnz Hrefs Hs)
          as [r0 [ev [far [_ ->]]]]. eauto.
      * unfold RefineAdaptive. rewrite Hbase, Hrefs, Hs.
        apply Z.eqb_neq in Hnz. rewrite Hnz. cbn. eauto.
    + unfold RefineAdaptive. rewrite Hbase, Hrefs.
      apply Z.eqb_neq in Hnz. rewrite Hnz. cbn. eauto.
  - destruct (Unrefine_total r) as [r' [ev ->]]; [| eauto].
    intros Hnil. rewrite Hnil in Hone. cbn in Hone. lia.
Qed.

(** C2.  A call of [RefineAdaptive] that passes its checks returns with
    [_maxLevel] equal to the number of refinements appended, at most
    [isolationLevel]; and if the selection of its pass [i] was empty, the
    refinement and the child level allocated for that pass were deleted and
    not refined, no pass after [i] left any event, and the refinements
    appended are those of the [i - 1] passes before. *)
Theorem RefineAdaptive_stops_at_empty_selection
        (options : AdaptiveOptions.t) (storage : FeatureMask.t)
        (r : TopologyRefiner) (baseLevel : Level) :
  nth_error (_levels r) 0 = Some baseLevel ->
  getNumVertices baseLevel <> 0%Z ->
  _refinements r = [] ->
  _subdivType r = Sdc.SCHEME_CATMARK ->
  exists r' events,
    RefineAdaptive options storage r = Some (r', events)
    /\ _maxLevel r' = length (_refinements r')
    /\ length (_refinements r') <= AdaptiveOptions.isolationLevel options
    /\ forall i parentLevel,
         In (SelectComponents i) events ->
         nth_error (_levels r') (i - 1) = Some parentLevel ->
         isSelectionEmpty
           (adaptivePassSelection options storage r baseLevel i parentLevel) = true ->
         In (DeleteRefinement i) events
         /\ In (DeleteLevel i) events
         /\ (forall o, ~ In (RefineWith i o) events)
         /\ (forall e j, In e events -> eventPass e = Some j -> j <= i)
         /\ length (_refinements r') = i - 1.
Proof.
  intros Hbase Hverts Hrefs Hscheme.
  destruct (RefineAdaptive_proceeds options storage r baseLevel Hbase Hverts Hrefs Hscheme)
    as [r0 [events [far [Hrun Hcall]]]].
  exists (set_farLevels far (set_maxLevel (length (_refinements r0)) r0)), events.
  split; [exact Hcall |]. cbv zeta in Hrun.
  pose proof (adaptivePasses_run _ _ _ _ _ _ _ _ _ _ Hrun)
    as [k [Hk [_ [Hr _]]]].
  cbn in Hr. rewrite Hrefs in Hr. cbn in Hr.
  split; [reflexivity |]. split; [cbn; lia |].
  intros i parentLevel Hsel Hparent Hempty.
  destruct (adaptivePasses_empty_selection _ _ _ _ _ _ _ _ _ _ (le_n 1) Hrun
              i parentLevel Hsel Hparent Hempty)
    as [Hlen [Hdr [Hdl [Hno Hlast]]]].
  cbn in Hlen. rewrite Hrefs in Hlen. cbn in Hlen.
  repeat split; try assumption; cbn; lia.
Qed.

(** C8.  When a check of [RefineUniform] or [RefineAdaptive] fails -- the
    base level has no vertices, refinements are already there, or, for
    [RefineAdaptive], the scheme is not Catmark -- the call reports one
    runtime error and returns the refiner it was given, every field of it
    unchanged. *)
Theorem failed_checks_change_nothing
        (uniform : UniformOptions.t) (adaptive : AdaptiveOptions.t)
        (storage : FeatureMask.t) (r : TopologyRefiner) (baseLevel : Level) :
  nth_error (_levels r) 0 = Some baseLevel ->
  (getNumVertices baseLevel = 0%Z \/ _refinements r <> [] ->
   exists message,
     RefineUniform uniform r = Some (r, [Error FAR_RUNTIME_ERROR message]))
  /\ (getNumVertices baseLevel = 0%Z \/ _refinements r <> []
      \/ _subdivType r <> Sdc.SCHEME_CATMARK ->
      exists message,
        RefineAdaptive adaptive storage r = Some (r, [Error FAR_RUNTIME_ERROR message])).
Proof.
  intros Hbase. unfold RefineUniform, RefineAdaptive. rewrite Hbase. split.
  - intros [Hz | Hrefs].
    + rewrite Hz. cbn. eauto.
    + destruct (getNumVertices baseLevel =? 0)%Z; [eauto |].
      destruct (_refinements r); [congruence |]. cbn. eauto.
  - intros [Hz | [Hrefs | Hscheme]].
    + rewrite Hz. cbn. eauto.
    + destruct (getNumVertices baseLevel =? 0)%Z; [eauto |].
      destruct (_refinements r); [congruence |]. cbn. eauto.
    + destruct (getNumVertices baseLevel =? 0)%Z; [eauto |].
      destruct (negb (length (_refinements r) =? 0)); [eauto |].
      destruct (_subdivType r); cbn; eauto; congruence.
Qed.

(** C9, as the code has it.  A call of [RefineUniform] that passes its
    checks appends [refinementLevel] refinements, and the one that produces
    the level of depth [depth] ran with [_minimalTopology] set exactly when
    [fullTopologyInLastLevel] is unset and [depth] is the requested depth:
    the last level keeps full topology only if the option is set, and every
    intermediate level keeps full topology whatever the option. *)
Theorem RefineUniform_minimal_topology
        (options : UniformOptions.t) (r : TopologyRefiner) (baseLevel : Level) :
  nth_error (_levels r) 0 = Some baseLevel ->
  getNumVertices baseLevel <> 0%Z ->
  _refinements r = [] ->
  exists r' events,
    RefineUniform options r = Some (r', events)
    /\ length (_refinements r') = UniformOptions.refinementLevel options
    /\ forall depth ref,
         1 <= depth ->
         nth_error (_refinements r') (depth - 1) = Some ref ->
         exists o,
           refinedWith ref = Some o
           /\ _minimalTopology o
              = negb (UniformOptions.fullTopologyInLastLevel options)
                && Nat.eqb depth (UniformOptions.refinementLevel options).
Proof.
  intros Hbase Hverts Hrefs.
  destruct (RefineUniform_proceeds options r baseLevel Hbase Hverts Hrefs)
    as [r0 [events [far [Hrun Hcall]]]].
  exists (set_farLevels far r0), events. split; [exact Hcall |].
  apply uniformPasses_run in Hrun as [_ [Hr [_ Hopt]]].
  cbn in Hr, Hopt. rewrite Hrefs in Hr, Hopt. cbn in Hr, Hopt.
  split; [exact Hr |].
  intros depth ref Hdepth Href. cbn in Href.
  exists (uniformRefineOptions options (1 + (depth - 1))).
  split; [now apply Hopt |].
  replace (1 + (depth - 1)) with depth by lia.
  unfold uniformRefineOptions. cbn.
  now destruct (UniformOptions.fullTopologyInLastLevel options).
Qed.

End Refiner.

(** ** The refiner on the concrete meshes *)


(** The pentagon mesh with isolation level 3: pass 1 selects the
    pentagon's one-ring, the selection of pass 2 is empty, and the call
    returns with one refinement and [_maxLevel] 1. *)
Lemma RefineAdaptive_stops_at_empty_selection_witness :
  exists r' events,
    Sample.refineAdaptive Sample.adaptiveThree Sample.zeroed
      (Sample.withBase Sample.pentagonMesh) = Some (r', events)
    /\ _maxLevel r' = 1
    /\ length (_refinements r') = 1
    /\ In (DeleteRefinement 2) events
    /\ In (DeleteLevel 2) events
    /\ (forall e j, In e events -> eventPass e = Some j -> j <= 2).
Proof.
  destruct (@RefineAdaptive_stops_at_empty_selection Sample.schemeTraits Sample.quadSplit
              Sample.adaptiveThree Sample.zeroed
              (Sample.withBase Sample.pentagonMesh) Sample.pentagonMesh
              eq_refl ltac:(discriminate) eq_refl eq_refl)
    as [r' [events [Hcall [Hmax [_ Hpass]]]]].
  exists r', events.
  assert (Hc := Hcall). vm_compute in Hc. injection Hc as Hr Hev.
  assert (Hsel : In (SelectComponents 2) events) by (rewrite <- Hev; cbn; tauto).
  assert (Hparent : exists parentLevel,
             nth_error (_levels r') (2 - 1) = Some parentLevel
             /\ isSelectionEmpty
                  (adaptivePassSelection (traits := Sample.schemeTraits)
                     Sample.adaptiveThree Sample.zeroed
                     (Sample.withBase Sample.pentagonMesh) Sample.pentagonMesh 2
                     parentLevel) = true).
  { rewrite <- Hr. eexists. split; [reflexivity | vm_compute; reflexivity]. }
  destruct Hparent as [parentLevel [Hnth Hempty]].
  destruct (Hpass 2 parentLevel Hsel Hnth Hempty)
    as [Hdr [Hdl [_ [Hlast Hlen]]]].
  split; [exact Hcall |]. split; [now rewrite Hmax, Hlen |].
  repeat split; assumption.
Defined.

(** Scenario C: a constructed refiner, whose base level has no vertices. *)
Lemma failed_checks_change_nothing_witness :
  exists message1 message2,
    Sample.refineUniform Sample.uniformTwo Sample.constructed
    = Some (Sample.constructed, [Error FAR_RUNTIME_ERROR message1])
    /\ Sample.refineAdaptive Sample.adaptiveThree Sample.zeroed Sample.constructed
       = Some (Sample.constructed, [Error FAR_RUNTIME_ERROR message2]).
Proof.
  destruct (@failed_checks_change_nothing Sample.schemeTraits Sample.quadSplit
              Sample.uniformTwo Sample.adaptiveThree Sample.zeroed
              Sample.constructed Level_new eq_refl) as [Hu Ha].
  destruct (Hu (or_introl eq_refl)) as [message1 H1].
  destruct (Ha (or_introl eq_refl)) as [message2 H2].
  exists message1, message2. split; assumption.
Defined.

(** The single quad refined uniformly to depth 2. *)
Lemma RefineUniform_minimal_topology_witness :
  exists r' events,
    Sample.refineUniform Sample.uniformTwo (Sample.withBase Sample.singleQuad)
    = Some (r', events)
    /\ length (_refinements r') = 2.
Proof.
  destruct (@RefineUniform_minimal_topology Sample.schemeTraits Sample.quadSplit
              Sample.uniformTwo (Sample.withBase Sample.singleQuad) Sample.singleQuad
              eq_refl ltac:(discriminate) eq_refl)
    as [r' [events [Hcall [Hlen _]]]].
  exists r', events. split; assumption.
Defined.

(** C9, as stated, fails at depth 2 without [fullTopologyInLastLevel]: the
    refinement that produces the intermediate level, of depth 1, ran with
    [_minimalTopology] false, only the last one with it true. *)
Lemma intermediate_level_keeps_full_topology :
  UniformOptions.fullTopologyInLastLevel Sample.uniformTwo = false
  /\ 1 < UniformOptions.refinementLevel Sample.uniformTwo
  /\ map (fun ref => option_map _minimalTopology (refinedWith ref))
         (_refinements (fst Sample.refinedTwice))
     = [Some false; Some true]
  /\ Sample.refineUniform Sample.uniformTwo (Sample.withBase Sample.singleQuad)
     = Some Sample.refinedTwice.
Proof.
  split; [reflexivity |]. split; [cbn; lia |].
  split; vm_compute; reflexivity.
Qed.

(** * Further properties *)

(** ** The level views *)

Lemma nth_error_assign {A} (v v' : list A) (i : nat) (f : A -> A) :
  assign v i f = Some v' ->
  forall j, nth_error v' j
            = if Nat.eqb j i then option_map f (nth_error v i) else nth_error v j.
Proof.
  unfold assign. intros H j. destruct (nth_error v i) as [x |] eqn:E; [| discriminate].
  assert (Hv : v' = firstn i v ++ f x :: skipn (S i) v) by congruence.
  clear H. subst v'.
  assert (Hi : i < length v) by (apply nth_error_Some; congruence).
  assert (Hlen : length (firstn i v) = i) by (rewrite length_firstn; lia).
  destruct (Nat.eqb_spec j i) as [-> | Hne].
  - rewrite nth_error_app2 by lia. rewrite Hlen, Nat.sub_diag. reflexivity.
  - destruct (Nat.lt_ge_cases j i) as [Hlt | Hge].
    + rewrite nth_error_app1 by lia. rewrite nth_error_firstn.
      apply Nat.ltb_lt in Hlt. now rewrite Hlt.
    + rewrite nth_error_app2 by lia. rewrite Hlen.
      destruct (j - i) as [| k] eqn:Hk; [lia |].
      cbn [nth_error]. rewrite nth_error_skipn. f_equal. lia.
Qed.

Lemma assembleInnerFarLevels_nth levels refinements indices :
  forall far far',
    assembleInnerFarLevels levels refinements indices far = Some far' ->
    forall j, nth_error far' j
              = if existsb (Nat.eqb j) indices
                then Some (mkFarLevel (Some (j - 1)) (Some j) (Some j))
                else nth_error far j.
Proof.
  induction indices as [| i rest IH]; intros far far' H j; cbn [assembleInnerFarLevels] in H.
  - injection H as <-. reflexivity.
  - returned H. rewrite (IH _ _ H j). cbn [existsb].
    destruct (existsb (Nat.eqb j) rest) eqn:Hrest.
    + now rewrite orb_true_r.
    + rewrite orb_false_r. rewrite (nth_error_assign _ _ _ _ E2 j).
      destruct (Nat.eqb_spec j i) as [-> | Hne]; [| reflexivity].
      unfold assign in E2. destruct (nth_error far i); [reflexivity | discriminate].
Qed.

Lemma nth_error_resize {A} (n : nat) (d : A) (v : list A) (j : nat) :
  j < n -> exists x, nth_error (resize n d v) j = Some x.
Proof.
  intros Hj. apply nth_error_total. rewrite resize_length. exact Hj.
Qed.

Lemma nth_error_farLevelsOf (n j : nat) :
  nth_error (farLevelsOf n) j = if Nat.leb j n then Some (farLevelAt n j) else None.
Proof.
  unfold farLevelsOf. rewrite nth_error_map, nth_error_seq.
  destruct (Nat.leb_spec j n) as [Hle | Hgt].
  - assert (H : (j <? S n) = true) by (apply Nat.ltb_lt; lia). now rewrite H.
  - assert (H : (j <? S n) = false) by (apply Nat.ltb_ge; lia). now rewrite H.
Qed.

(** With one level more than refinements, [assembleFarLevels] rebuilds the
    views from the two stacks alone, whatever [_farLevels] held. *)
Lemma assembleFarLevels_spec (r : TopologyRefiner) :
  length (_levels r) = S (length (_refinements r)) ->
  assembleFarLevels r
  = Some (set_farLevels (farLevelsOf (length (_refinements r))) r).
Proof.
  intros Hlen. unfold assembleFarLevels.
  destruct (nth_error_total (_levels r) 0) as [base ->]; [lia |].
  set (far0 := resize (length (_levels r)) FarLevel_null (_farLevels r)).
  assert (L0 : length far0 = length (_levels r)) by apply resize_length.
  destruct (assign_total far0 0 (fun _ => mkFarLevel None (Some 0) None))
    as [far1 H1]; [lia |].
  rewrite H1. pose proof (assign_length _ _ _ _ H1) as L1.
  destruct (nth_error_total far0 0) as [x0 Hx0]; [lia |].
  destruct (length (_refinements r)) as [| last] eqn:Hn.
  - do 2 f_equal. apply nth_error_ext. intros j.
    rewrite nth_error_farLevelsOf, (nth_error_assign _ _ _ _ H1 j).
    destruct j as [| j]; cbn [Nat.eqb Nat.leb].
    + now rewrite Hx0.
    + apply nth_error_None. lia.
  - destruct (nth_error_total (_refinements r) 0) as [ref0 ->]; [lia |].
    destruct (assign_total far1 0
                (fun f => mkFarLevel (_refToParent f) (_level f) (Some 0)))
      as [far2 H2]; [lia |].
    rewrite H2. pose proof (assign_length _ _ _ _ H2) as L2.
    destruct (assembleInnerFarLevels_total (_levels r) (_refinements r) (seq 1 last) far2)
      as [far3 [H3 L3]].
    { intros i Hi. apply in_seq in Hi. lia. }
    rewrite H3.
    destruct (nth_error_total (_refinements r) last) as [refl ->]; [lia |].
    destruct (nth_error_total (_levels r) (S last)) as [levl ->]; [lia |].
    destruct (assign_total far3 (S last)
                (fun _ => mkFarLevel (Some last) (Some (S last)) None))
      as [far4 H4]; [lia |].
    rewrite H4. do 2 f_equal. apply nth_error_ext. intros j.
    rewrite nth_error_farLevelsOf, (nth_error_assign _ _ _ _ H4 j).
    destruct (Nat.eqb_spec j (S last)) as [-> | Hne].
    + destruct (nth_error_total far3 (S last)) as [x ->]; [lia |].
      rewrite Nat.leb_refl. cbn [option_map]. unfold farLevelAt.
      now rewrite Nat.eqb_refl.
    + rewrite (assembleInnerFarLevels_nth _ _ _ _ _ H3 j).
      destruct (existsb (Nat.eqb j) (seq 1 last)) eqn:Hex.
      * apply existsb_exists in Hex as [k [Hk Hjk]].
        apply Nat.eqb_eq in Hjk. subst k. apply in_seq in Hk.
        assert (Hle : (j <=? S last) = true) by (apply Nat.leb_le; lia).
        rewrite Hle. unfold farLevelAt. destruct j as [| j]; [lia |].
        apply Nat.eqb_neq in Hne. rewrite Hne.
        now rewrite Nat.sub_1_r.
      * assert (Hnot : ~ In j (seq 1 last)).
        { intros Hj. assert (existsb (Nat.eqb j) (seq 1 last) = true); [| congruence].
          apply existsb_exists. exists j. split; [exact Hj | apply Nat.eqb_refl]. }
        rewrite in_seq in Hnot.
        rewrite (nth_error_assign _ _ _ _ H2 j).
        destruct j as [| j]; cbn [Nat.eqb].
        -- rewrite (nth_error_assign _ _ _ _ H1 0). cbn [Nat.eqb].
           rewrite Hx0. reflexivity.
        -- assert (Hgt : (S j <=? S last) = false) by (apply Nat.leb_gt; lia).
           rewrite Hgt. apply nth_error_None. lia.
Qed.

(** ** Consistency of the stacks *)

Lemma wrap_int_representable (z : Z) : representable z -> wrap_int z = z.
Proof.
  unfold representable, wrap_int, INT_MIN, INT_MAX. intros Hz.
  rewrite Z.mod_small by lia. lia.
Qed.

Lemma wrap_int_add_l (a b : Z) : wrap_int (wrap_int a + b) = wrap_int (a + b).
Proof.
  unfold wrap_int. f_equal.
  replace ((a - INT_MIN) mod 4294967296 + INT_MIN + b - INT_MIN)%Z
    with ((a - INT_MIN) mod 4294967296 + b)%Z by lia.
  rewrite Zplus_mod_idemp_l. f_equal. lia.
Qed.

Lemma wrap_int_idempotent (z : Z) : wrap_int (wrap_int z) = wrap_int z.
Proof.
  rewrite <- (Z.add_0_r (wrap_int z)) at 1. rewrite wrap_int_add_l. now rewrite Z.add_0_r.
Qed.

Lemma sumOver_app (count : Level -> Z) (levels : list Level) (l : Level) :
  sumOver count (levels ++ [l]) = (sumOver count levels + count l)%Z.
Proof.
  induction levels as [| x levels IH]; cbn [sumOver app fold_right] in *.
  - lia.
  - fold (sumOver count (levels ++ [l])). fold (sumOver count levels). lia.
Qed.

Lemma maxValenceOver_app (levels : list Level) (l : Level) :
  levels <> [] ->
  maxValenceOver (levels ++ [l]) = Z.max (maxValenceOver levels) (getMaxValence l).
Proof.
  destruct levels as [| base rest]; [congruence |]. intros _.
  cbn [maxValenceOver app]. now rewrite fold_left_app.
Qed.

(** The inventory [initializeInventory] takes from a single level. *)
Lemma inventory_of_the_base (baseLevel : Level) (r : TopologyRefiner) :
  _levels r = [baseLevel] ->
  _totalVertices r = getNumVertices baseLevel ->
  _totalEdges r = getNumEdges baseLevel ->
  _totalFaces r = getNumFaces baseLevel ->
  _totalFaceVertices r = getNumFaceVerticesTotal baseLevel ->
  _maxValence r = getMaxValence baseLevel ->
  inventoryMatches r.
Proof.
  intros Hl Hv He Hf Hfv Hmv Hbase. rewrite Hl in Hbase |- *.
  destruct (Hbase baseLevel eq_refl) as [Iv [Ie [If Ifv]]].
  unfold sumOver. cbn [fold_right maxValenceOver fold_left]. rewrite !Z.add_0_r.
  rewrite !wrap_int_representable by assumption.
  repeat (split; [assumption |]). assumption.
Qed.

Lemma linked_nil (levels : list Level) : linked levels [].
Proof. intros i ref Hi. destruct i; discriminate. Qed.

Lemma append_consistent (r : TopologyRefiner) (ref : Refinement) :
  consistent r ->
  nth_error (_levels r) (length (_refinements r)) = Some (parent ref) ->
  consistent (appendRefinement ref (appendLevel (child ref) r)).
Proof.
  intros [Hlen [Hinv Hlink]] Hparent.
  assert (Hne : _levels r <> []) by (intros E; rewrite E in Hlen; discriminate).
  split; [| split].
  - cbn. rewrite !length_app. cbn. lia.
  - unfold inventoryMatches.
    cbn [_totalVertices _totalEdges _totalFaces _totalFaceVertices _maxValence
         _levels _refinements appendLevel appendRefinement updateInventory
         set_inventory set_levels set_refinements].
    intros Hbase.
    destruct Hinv as [Hv [He [Hf [Hfv Hmv]]]].
    { intros baseLevel Hb. apply Hbase.
      destruct (_levels r) as [| l0 ls]; [congruence | exact Hb]. }
    rewrite !sumOver_app, maxValenceOver_app by assumption.
    rewrite Hv, He, Hf, Hfv, Hmv, !wrap_int_add_l.
    repeat (split; [reflexivity |]). reflexivity.
  - cbn. intros i x Hx.
    destruct (Nat.lt_ge_cases i (length (_refinements r))) as [Hlt | Hge].
    + rewrite nth_error_app1 in Hx by assumption.
      destruct (Hlink i x Hx) as [Hp Hc].
      assert (S i < length (_levels r)) by (apply nth_error_Some; congruence).
      rewrite !nth_error_app1 by lia. now split.
    + rewrite nth_error_app2 in Hx by assumption.
      destruct (i - length (_refinements r)) as [| k] eqn:Hk.
      * cbn in Hx. injection Hx as <-.
        assert (i = length (_refinements r)) by lia. subst i. split.
        -- rewrite nth_error_app1 by lia. exact Hparent.
        -- rewrite nth_error_app2 by lia.
           replace (S (length (_refinements r)) - length (_levels r)) with 0 by lia.
           reflexivity.
      * cbn in Hx. destruct k; discriminate.
Qed.

Lemma selectFace_sameButSelection (f : Index) (s : SparseSelector) :
  sameButSelection (getRefinement (selectFace f s)) (getRefinement s).
Proof. repeat split. Qed.

Lemma sameButSelection_trans (a b c : Refinement) :
  sameButSelection a b -> sameButSelection b c -> sameButSelection a c.
Proof.
  unfold sameButSelection. intros [-> [-> [-> [-> ->]]]] H. exact H.
Qed.

Lemma sameButSelection_refl (a : Refinement) : sameButSelection a a.
Proof. repeat split. Qed.

Lemma fold_sameButSelection {A} (step : SparseSelector -> A -> SparseSelector)
      (xs : list A) :
  (forall s x, sameButSelection (getRefinement (step s x)) (getRefinement s)) ->
  forall s, sameButSelection (getRefinement (fold_left step xs s)) (getRefinement s).
Proof.
  intros Hstep. induction xs as [| x xs IH]; intros s; cbn [fold_left].
  - apply sameButSelection_refl.
  - eapply sameButSelection_trans; [apply IH | apply Hstep].
Qed.

Lemma selectFeatureAdaptiveFace_sameButSelection level featureMask irregular
      numFVarChannels regularFaceSize neighborhood (s : SparseSelector) face :
  sameButSelection
    (getRefinement (selectFeatureAdaptiveFace level featureMask irregular
                      numFVarChannels regularFaceSize neighborhood s face))
    (getRefinement s).
Proof.
  unfold selectFeatureAdaptiveFace.
  destruct (isFaceHole level face); [apply sameButSelection_refl |].
  destruct (irregular && _).
  - destruct (neighborhood =? 0)%Z; [apply selectFace_sameButSelection |].
    unfold selectIncidentFaces. apply fold_sameButSelection. intros s' v.
    apply fold_sameButSelection. intros s'' f. apply selectFace_sameButSelection.
  - destruct (faceHasSelectedFeatures _ _ _ _);
      [apply selectFace_sameButSelection | apply sameButSelection_refl].
Qed.

Section Consistency.
Context {traits : Sdc.SchemeTypeTraits} {R : Refine}.

(** Selecting faces changes nothing of a refinement but its selection. *)
Lemma selectFeatureAdaptiveComponents_sameButSelection subdivType selector featureMask :
  sameButSelection
    (getRefinement (selectFeatureAdaptiveComponents subdivType selector featureMask))
    (getRefinement selector).
Proof.
  unfold selectFeatureAdaptiveComponents.
  destruct (FeatureMask.IsEmpty featureMask && _); [apply sameButSelection_refl |].
  apply fold_sameButSelection. intros s face.
  apply selectFeatureAdaptiveFace_sameButSelection.
Qed.

Lemma newRefinement_fields splitType parentLevel childLevel subdivOptions :
  newRefinement splitType parentLevel childLevel subdivOptions
  = mkRefinement splitType parentLevel childLevel subdivOptions [] None.
Proof. now destruct splitType. Qed.

Lemma uniformPasses_consistent options splitType passes :
  forall i r r' events,
    consistent r -> i = length (_levels r) ->
    uniformPasses options splitType passes i r = Some (r', events) ->
    consistent r'.
Proof.
  induction passes as [| passes IH]; intros i r r' events Hc Hi H;
    cbn [uniformPasses] in H.
  - now injection H as <- _.
  - destruct (nth_error (_levels r) (i - 1)) as [parentLevel |] eqn:Hp; [| discriminate].
    match type of H with
    | context [uniformPasses _ _ _ (S i) ?r1] =>
        destruct (uniformPasses options splitType passes (S i) r1)
          as [[r2 ev2] |] eqn:Hrest; [| discriminate]
    end.
    injection H as <- _.
    eapply IH; [ | | exact Hrest].
    + match goal with
      | |- consistent (appendRefinement ?ref (appendLevel _ _)) =>
          apply (append_consistent r ref)
      end; [exact Hc |].
      destruct Hc as [Hlen _]. rewrite newRefinement_fields. cbn [parent refine].
      rewrite <- Hp. f_equal. lia.
    + cbn. rewrite length_app. cbn. lia.
Qed.

Lemma adaptivePasses_consistent options splitType shallowLevel more less passes :
  forall i r r' events,
    consistent r -> i = length (_levels r) ->
    adaptivePasses options splitType shallowLevel more less passes i r
    = Some (r', events) ->
    consistent r'.
Proof.
  induction passes as [| passes IH]; intros i r r' events Hc Hi H;
    cbn [adaptivePasses] in H.
  - now injection H as <- _.
  - destruct (nth_error (_levels r) (i - 1)) as [parentLevel |] eqn:Hp; [| discriminate].
    cbv zeta in H.
    destruct (isSelectionEmpty _) eqn:Hempty.
    + now injection H as <- _.
    + match type of H with
      | context [adaptivePasses _ _ _ _ _ _ (S i) ?r1] =>
          destruct (adaptivePasses options splitType shallowLevel more less
                      passes (S i) r1) as [[r2 ev2] |] eqn:Hrest; [| discriminate]
      end.
      injection H as <- _.
      eapply IH; [ | | exact Hrest].
      * match goal with
        | |- consistent (appendRefinement ?ref (appendLevel _ _)) =>
            apply (append_consistent r ref)
        end; [exact Hc |].
        destruct Hc as [Hlen _]. cbn [parent refine].
        unfold adaptiveSelection.
        destruct (selectFeatureAdaptiveComponents_sameButSelection (_subdivType r)
                    (mkSelector (newRefinement splitType parentLevel Level_new
                                   (_subdivOptions r)))
                    (if Nat.leb i shallowLevel then more else less))
          as [_ [-> _]].
        rewrite newRefinement_fields. cbn [getRefinement parent].
        rewrite <- Hp. f_equal. lia.
      * cbn. rewrite length_app. cbn. lia.
Qed.

(** A call of [RefineUniform] that returned either failed a check and
    changed nothing, or ran its loop and reassembled the views. *)
Lemma RefineUniform_inv options r r' events :
  RefineUniform options r = Some (r', events) ->
  (r' = r /\ exists message, events = [Error FAR_RUNTIME_ERROR message])
  \/ (exists r0,
        _refinements r = []
        /\ uniformPasses options (Sdc.GetTopologicalSplitType (_subdivType r))
             (UniformOptions.refinementLevel options) 1
             (set_maxLevel (UniformOptions.refinementLevel options)
                (set_isUniform true (set_uniformOptions options r)))
           = Some (r0, events)
        /\ assembleFarLevels r0 = Some r').
Proof.
  unfold RefineUniform. intros H.
  destruct (nth_error (_levels r) 0) as [baseLevel |]; [| discriminate].
  destruct (getNumVertices baseLevel =? 0)%Z.
  { injection H as <- <-. left. eauto. }
  destruct (_refinements r) as [| ref refs] eqn:Hrefs; cbn [length Nat.eqb negb] in H.
  2: { injection H as <- <-. left. eauto. }
  cbv zeta in H. cbn [_subdivType set_maxLevel set_isUniform set_uniformOptions] in H.
  match type of H with
  | context [uniformPasses ?o ?s ?n 1 ?r1] =>
      destruct (uniformPasses o s n 1 r1) as [[r0 ev0] |] eqn:Hrun; [| discriminate]
  end.
  cbn [fst snd] in H.
  destruct (assembleFarLevels r0) as [r1 |] eqn:Hfar; [| discriminate].
  injection H as <- <-. right. exists r0. repeat split; assumption.
Qed.

Lemma RefineAdaptive_inv options storage r r' events :
  RefineAdaptive options storage r = Some (r', events) ->
  (r' = r /\ exists message, events = [Error FAR_RUNTIME_ERROR message])
  \/ (exists baseLevel r0,
        nth_error (_levels r) 0 = Some baseLevel
        /\ _refinements r = []
        /\ _subdivType r = Sdc.SCHEME_CATMARK
        /\ adaptivePasses options (Sdc.GetTopologicalSplitType (_subdivType r))
             (Nat.min (AdaptiveOptions.secondaryLevel options)
                      (AdaptiveOptions.isolationLevel options))
             (fst (adaptiveFeatureMasks options storage (_subdivType r) baseLevel))
             (snd (adaptiveFeatureMasks options storage (_subdivType r) baseLevel))
             (AdaptiveOptions.isolationLevel options) 1
             (set_adaptiveOptions options (set_isUniform false r))
           = Some (r0, events)
        /\ assembleFarLevels (set_maxLevel (length (_refinements r0)) r0) = Some r').
Proof.
  unfold RefineAdaptive. intros H.
  destruct (nth_error (_levels r) 0) as [baseLevel |]; [| discriminate].
  destruct (getNumVertices baseLevel =? 0)%Z.
  { injection H as <- <-. left. eauto. }
  destruct (_refinements r) as [| ref refs] eqn:Hrefs; cbn [length Nat.eqb negb] in H.
  2: { injection H as <- <-. left. eauto. }
  destruct (Sdc.SchemeType_eqb (_subdivType r) Sdc.SCHEME_CATMARK) eqn:Hs;
    cbn [negb] in H.
  2: { injection H as <- <-. left. eauto. }
  assert (Hscheme : _subdivType r = Sdc.SCHEME_CATMARK)
    by (destruct (_subdivType r); (discriminate || reflexivity)).
  cbv zeta in H. cbn [_subdivType set_adaptiveOptions set_isUniform] in H.
  match type of H with
  | context [adaptivePasses ?o ?s ?sh ?m ?l ?n 1 ?r1] =>
      destruct (adaptivePasses o s sh m l n 1 r1) as [[r0 ev0] |] eqn:Hrun;
        [| discriminate]
  end.
  cbn [fst snd] in H.
  destruct (assembleFarLevels _) as [r1 |] eqn:Hfar; [| discriminate].
  injection H as <- <-. right. exists baseLevel, r0. repeat split; assumption.
Qed.

(** Every reachable refiner has consistent stacks and the level views of
    its stacks. *)
Lemma reachable_consistent (r : TopologyRefiner) :
  reachable r ->
  consistent r /\ _farLevels r = farLevelsOf (length (_refinements r)).
Proof.
  induction 1 as [st so r Hnew | base r r' _ IH Hpop
                  | o r r' ev _ IH Hu | o s r r' ev _ IH Ha | r r' ev _ IH Hun].
  - unfold TopologyRefiner_new in Hnew.
    rewrite assembleFarLevels_spec in Hnew by reflexivity.
    injection Hnew as <-. split; [| reflexivity].
    split; [reflexivity |]. split; [| apply linked_nil].
    intros _. repeat (split; [reflexivity |]). reflexivity.
  - destruct IH as [_ Hfar]. unfold populateBaseLevel in Hpop.
    destruct (_levels r) as [| l0 [| l1 ls]]; try discriminate.
    destruct (_refinements r) eqn:Hrefs; [| discriminate].
    injection Hpop as <-. split; [| cbn; rewrite Hrefs; exact Hfar].
    split; [cbn; now rewrite Hrefs |].
    split; [| cbn; rewrite Hrefs; apply linked_nil].
    apply (inventory_of_the_base base); reflexivity.
  - apply RefineUniform_inv in Hu as [[-> _] | [r0 [Hrefs [Hrun Hfar]]]]; [exact IH |].
    destruct IH as [Hc _].
    assert (Hc0 : consistent r0).
    { eapply uniformPasses_consistent; [ | | exact Hrun].
      - exact Hc.
      - destruct Hc as [Hlen _]. cbn. rewrite Hlen, Hrefs. reflexivity. }
    rewrite assembleFarLevels_spec in Hfar by apply Hc0.
    injection Hfar as <-. split; [exact Hc0 | reflexivity].
  - apply RefineAdaptive_inv in Ha
      as [[-> _] | [base [r0 [Hbase [Hrefs [Hs [Hrun Hfar]]]]]]]; [exact IH |].
    destruct IH as [Hc _].
    assert (Hc0 : consistent r0).
    { eapply adaptivePasses_consistent; [ | | exact Hrun].
      - exact Hc.
      - destruct Hc as [Hlen _]. cbn. rewrite Hlen, Hrefs. reflexivity. }
    rewrite assembleFarLevels_spec in Hfar by apply Hc0.
    injection Hfar as <-. split; [exact Hc0 | reflexivity].
  - unfold Unrefine in Hun.
    destruct (_levels r) as [| base rest] eqn:Hl.
    + exfalso. unfold assembleFarLevels in Hun.
      cbn [_levels set_refinements] in Hun. rewrite Hl in Hun. discriminate Hun.
    + change (resize 1 Level_new (base :: rest)) with [base] in Hun.
      cbn [initializeInventory set_levels _levels] in Hun.
      rewrite assembleFarLevels_spec in Hun by reflexivity.
      injection Hun as <- _. split; [| reflexivity].
      split; [reflexivity |]. split; [| apply linked_nil].
      apply (inventory_of_the_base base); reflexivity.
Qed.

(** X1.  In every state a refiner can reach, with a base level whose
    counts are [int]s, each inventory total is the [int] sum of that count
    over the levels it holds -- the sum where it is representable, the sum
    wrapped around where it is not -- and [_maxValence] is the largest
    valence among them: [initializeInventory] takes the base level's
    counts, [appendLevel] adds the new level's, failed calls leave them,
    [Unrefine] takes the base level's again. *)
Theorem inventory_is_that_of_the_levels (r : TopologyRefiner) :
  reachable r ->
  (forall baseLevel, nth_error (_levels r) 0 = Some baseLevel -> intCounts baseLevel) ->
  (_totalVertices r = wrap_int (sumOver getNumVertices (_levels r))
   /\ _totalEdges r = wrap_int (sumOver getNumEdges (_levels r))
   /\ _totalFaces r = wrap_int (sumOver getNumFaces (_levels r))
   /\ _totalFaceVertices r = wrap_int (sumOver getNumFaceVerticesTotal (_levels r))
   /\ _maxValence r = maxValenceOver (_levels r))
  /\ (representable (sumOver getNumVertices (_levels r)) ->
      _totalVertices r = sumOver getNumVertices (_levels r))
  /\ (representable (sumOver getNumEdges (_levels r)) ->
      _totalEdges r = sumOver getNumEdges (_levels r))
  /\ (representable (sumOver getNumFaces (_levels r)) ->
      _totalFaces r = sumOver getNumFaces (_levels r))
  /\ (representable (sumOver getNumFaceVerticesTotal (_levels r)) ->
      _totalFaceVertices r = sumOver getNumFaceVerticesTotal (_levels r)).
Proof.
  intros Hr Hbase. apply reachable_consistent in Hr as [[_ [Hinv _]] _].
  destruct (Hinv Hbase) as [Hv [He [Hf [Hfv Hmv]]]].
  split; [repeat (split; [assumption |]); assumption |].
  rewrite Hv, He, Hf, Hfv.
  repeat split; intros Hsum; now apply wrap_int_representable.
Qed.

(** X2.  In every reachable state the level views are those of the stacks:
    one view per level, the view of level [i] pointing to refinement
    [i - 1] as its parent (none for the base level), to level [i], and to
    refinement [i] as its child (none for the last level). *)
Theorem level_views_follow_the_stacks (r : TopologyRefiner) :
  reachable r ->
  length (_farLevels r) = length (_levels r)
  /\ forall i, i < length (_levels r) ->
       nth_error (_farLevels r) i
       = Some {| _refToParent := match i with O => None | S before => Some before end;
                 _level := Some i;
                 _refToChild := if Nat.eqb i (length (_refinements r))
                                then None else Some i |}.
Proof.
  intros Hr. apply reachable_consistent in Hr as [[Hlen _] Hfar].
  rewrite Hfar. split.
  - unfold farLevelsOf. rewrite length_map, length_seq. lia.
  - intros i Hi. rewrite nth_error_farLevelsOf.
    assert (Hle : (i <=? length (_refinements r)) = true) by (apply Nat.leb_le; lia).
    now rewrite Hle.
Qed.

(** X3.  In every reachable state refinement [i] has level [i] as its
    parent and level [i + 1] as its child: each pass builds its refinement
    on the last level held and appends the child it produced. *)
Theorem refinements_link_consecutive_levels (r : TopologyRefiner) :
  reachable r ->
  forall i ref,
    nth_error (_refinements r) i = Some ref ->
    nth_error (_levels r) i = Some (parent ref)
    /\ nth_error (_levels r) (S i) = Some (child ref).
Proof. intros Hr. apply reachable_consistent in Hr. apply Hr. Qed.

End Consistency.

(** ** Reset and repeated refinement *)

Section Lifecycle.
Context {traits : Sdc.SchemeTypeTraits} {R : Refine}.

(** What [Unrefine] returns, field by field. *)
Lemma Unrefine_keeps_the_base_level_aux (r : TopologyRefiner) (base : Level)
        (rest : list Level) :
  _levels r = base :: rest ->
  Unrefine r
  = Some ({| _subdivType := _subdivType r;
             _subdivOptions := _subdivOptions r;
             _isUniform := _isUniform r;
             _hasHoles := _hasHoles r;
             _maxLevel := _maxLevel r;
             _uniformOptions := _uniformOptions r;
             _adaptiveOptions := _adaptiveOptions r;
             _totalVertices := getNumVertices base;
             _totalEdges := getNumEdges base;
             _totalFaces := getNumFaces base;
             _totalFaceVertices := getNumFaceVerticesTotal base;
             _maxValence := getMaxValence base;
             _levels := [base];
             _refinements := [];
             _farLevels := [mkFarLevel None (Some 0) None] |},
          map DeleteLevel (seq 1 (length rest))
          ++ map DeleteRefinement (seq 0 (length (_refinements r)))).
Proof.
  intros Hl. unfold Unrefine. rewrite Hl.
  change (resize 1 Level_new (base :: rest)) with [base].
  cbn [initializeInventory set_levels _levels].
  rewrite assembleFarLevels_spec by reflexivity.
  cbn [length Nat.sub]. rewrite Nat.sub_0_r. reflexivity.
Qed.

(** X4.  On a refiner holding levels [base :: rest], [Unrefine] returns
    the refiner with the base level alone, no refinement, the base level's
    counts as inventory and a single level view, having deleted every
    other level and every refinement.  The scheme, the stored options,
    [_isUniform] and [_maxLevel] are left as they were: [_maxLevel] is not
    reset. *)
Theorem Unrefine_keeps_the_base_level (r : TopologyRefiner) (base : Level)
        (rest : list Level) :
  _levels r = base :: rest ->
  Unrefine r
  = Some ({| _subdivType := _subdivType r;
             _subdivOptions := _subdivOptions r;
             _isUniform := _isUniform r;
             _hasHoles := _hasHoles r;
             _maxLevel := _maxLevel r;
             _uniformOptions := _uniformOptions r;
             _adaptiveOptions := _adaptiveOptions r;
             _totalVertices := getNumVertices base;
             _totalEdges := getNumEdges base;
             _totalFaces := getNumFaces base;
             _totalFaceVertices := getNumFaceVerticesTotal base;
             _maxValence := getMaxValence base;
             _levels := [base];
             _refinements := [];
             _farLevels := [mkFarLevel None (Some 0) None] |},
          map DeleteLevel (seq 1 (length rest))
          ++ map DeleteRefinement (seq 0 (length (_refinements r)))).
Proof. apply Unrefine_keeps_the_base_level_aux. Qed.

Lemma Unrefine_nonempty r r' events :
  Unrefine r = Some (r', events) -> exists base rest, _levels r = base :: rest.
Proof.
  unfold Unrefine. intros H.
  destruct (_levels r) as [| base rest] eqn:Hl; [| eauto].
  exfalso. unfold assembleFarLevels in H.
  cbn [_levels set_refinements] in H. rewrite Hl in H. discriminate H.
Qed.

(** X5.  [Unrefine] is idempotent: applied to its own result it returns
    that result again and deletes nothing. *)
Theorem Unrefine_twice (r r' : TopologyRefiner) (events : list Event) :
  Unrefine r = Some (r', events) -> Unrefine r' = Some (r', []).
Proof.
  intros H. destruct (Unrefine_nonempty _ _ _ H) as [base [rest Hl]].
  rewrite (Unrefine_keeps_the_base_level_aux r base rest Hl) in H.
  injection H as <- _. reflexivity.
Qed.


(** The loops touch the two stacks and the inventory only, and keep the
    levels they found. *)
Lemma uniformPasses_frame options split passes :
  forall i r r' events,
    uniformPasses options split passes i r = Some (r', events) ->
    (_subdivType r' = _subdivType r /\ _subdivOptions r' = _subdivOptions r
     /\ _isUniform r' = _isUniform r /\ _hasHoles r' = _hasHoles r
     /\ _maxLevel r' = _maxLevel r /\ _uniformOptions r' = _uniformOptions r
     /\ _adaptiveOptions r' = _adaptiveOptions r)
    /\ (exists appended, _levels r' = _levels r ++ appended)
    /\ (forall e, In e events -> exists j, eventPass e = Some j)
    /\ (forall ref, In ref (_refinements r') ->
          In ref (_refinements r)
          \/ (splitType ref = split /\ selectedFaces ref = []
              /\ schemeOptions ref = _subdivOptions r
              /\ exists j, refinedWith ref = Some (uniformRefineOptions options j))).
Proof.
  induction passes as [| passes IH]; intros i r r' events H; cbn [uniformPasses] in H.
  - injection H as <- <-. repeat split.
    + exists []. now rewrite app_nil_r.
    + intros e [].
    + intros ref Href. now left.
  - destruct (nth_error (_levels r) (i - 1)) as [parentLevel |]; [| discriminate].
    match type of H with
    | context [uniformPasses _ _ _ (S i) ?r1] =>
        destruct (uniformPasses options split passes (S i) r1)
          as [[r2 ev2] |] eqn:Hrest; [| discriminate]
    end.
    injection H as <- <-.
    apply IH in Hrest as [Hsame [[appended Hl] [Hev Hrefs]]].
    cbn in Hsame, Hl, Hrefs. split; [exact Hsame |]. split; [| split].
    + eexists. rewrite Hl, <- app_assoc. reflexivity.
    + intros e He. cbn in He.
      destruct He as [<- | [<- | [<- | He]]]; cbn; eauto.
    + intros ref Href. apply Hrefs in Href as [Hin | Hnew]; [| now right].
      apply in_app_or in Hin as [Hin | [<- | []]]; [now left | right].
      rewrite newRefinement_fields. cbn. repeat split. eauto.
Qed.

Lemma adaptivePasses_frame options split shallowLevel more less passes :
  forall i r r' events,
    adaptivePasses options split shallowLevel more less passes i r
    = Some (r', events) ->
    (_subdivType r' = _subdivType r /\ _subdivOptions r' = _subdivOptions r
     /\ _isUniform r' = _isUniform r /\ _hasHoles r' = _hasHoles r
     /\ _maxLevel r' = _maxLevel r /\ _uniformOptions r' = _uniformOptions r
     /\ _adaptiveOptions r' = _adaptiveOptions r)
    /\ (exists appended, _levels r' = _levels r ++ appended)
    /\ (forall e, In e events -> exists j, eventPass e = Some j)
    /\ (forall ref, In ref (_refinements r') ->
          In ref (_refinements r)
          \/ (splitType ref = split /\ selectedFaces ref <> []
              /\ schemeOptions ref = _subdivOptions r
              /\ refinedWith ref = Some (adaptiveRefineOptions options))).
Proof.
  induction passes as [| passes IH]; intros i r r' events H; cbn [adaptivePasses] in H.
  - injection H as <- <-. repeat split.
    + exists []. now rewrite app_nil_r.
    + intros e [].
    + intros ref Href. now left.
  - destruct (nth_error (_levels r) (i - 1)) as [parentLevel |]; [| discriminate].
    cbv zeta in H. destruct (isSelectionEmpty _) eqn:Hempty.
    + injection H as <- <-. repeat split.
      * exists []. now rewrite app_nil_r.
      * intros e He. cbn in He.
        destruct He as [<- | [<- | [<- | [<- | [<- | []]]]]]; cbn; eauto.
      * intros ref Href. now left.
    + match type of H with
      | context [adaptivePasses _ _ _ _ _ _ (S i) ?r1] =>
          destruct (adaptivePasses options split shallowLevel more less
                      passes (S i) r1) as [[r2 ev2] |] eqn:Hrest; [| discriminate]
      end.
      injection H as <- <-.
      apply IH in Hrest as [Hsame [[appended Hl] [Hev Hrefs]]].
      cbn in Hsame, Hl, Hrefs. split; [exact Hsame |]. split; [| split].
      * eexists. rewrite Hl, <- app_assoc. reflexivity.
      * intros e He. cbn in He.
        destruct He as [<- | [<- | [<- | [<- | He]]]]; cbn; eauto.
      * intros ref Href. apply Hrefs in Href as [Hin | Hnew]; [| now right].
        apply in_app_or in Hin as [Hin | [<- | []]]; [now left | right].
        unfold adaptiveSelection in Hempty |- *.
        destruct (selectFeatureAdaptiveComponents_sameButSelection (_subdivType r)
                    (mkSelector (newRefinement split parentLevel Level_new
                                   (_subdivOptions r)))
                    (if Nat.leb i shallowLevel then more else less))
          as [Hsplit [_ [_ [Hopts _]]]].
        cbn [refine splitType selectedFaces schemeOptions refinedWith].
        split; [now rewrite Hsplit, newRefinement_fields |].
        split; [| split; [now rewrite Hopts, newRefinement_fields | reflexivity]].
        unfold isSelectionEmpty in Hempty. intros Hnil.
        rewrite Hnil in Hempty. discriminate.
Qed.

(** X6.  A call of [RefineUniform] that passes its checks stores the
    options, sets [_isUniform] and sets [_maxLevel] to the requested level;
    it reports no error and appends [refinementLevel] refinements, each of
    the scheme's split type, over the refiner's scheme options, with no
    face selected, refined densely and with the requested vertex order.
    The scheme and the stored adaptive options are untouched, and the
    levels held before stay in place. *)
Theorem RefineUniform_refines_densely
        (options : UniformOptions.t) (r : TopologyRefiner) (baseLevel : Level) :
  nth_error (_levels r) 0 = Some baseLevel ->
  getNumVertices baseLevel <> 0%Z ->
  _refinements r = [] ->
  exists r' events,
    RefineUniform options r = Some (r', events)
    /\ _uniformOptions r' = options
    /\ _isUniform r' = true
    /\ _maxLevel r' = UniformOptions.refinementLevel options
    /\ _subdivType r' = _subdivType r
    /\ _adaptiveOptions r' = _adaptiveOptions r
    /\ (exists appended, _levels r' = _levels r ++ appended)
    /\ (forall err message, ~ In (Error err message) events)
    /\ forall ref,
         In ref (_refinements r') ->
         splitType ref = Sdc.GetTopologicalSplitType (_subdivType r)
         /\ schemeOptions ref = _subdivOptions r
         /\ selectedFaces ref = []
         /\ exists o, refinedWith ref = Some o
                      /\ _sparse o = false
                      /\ _faceVertsFirst o
                         = UniformOptions.orderVerticesFromFacesFirst options.
Proof.
  intros Hbase Hverts Hrefs.
  destruct (RefineUniform_proceeds options r baseLevel Hbase Hverts Hrefs)
    as [r0 [events [far [Hrun Hcall]]]].
  exists (set_farLevels far r0), events. split; [exact Hcall |].
  apply uniformPasses_frame in Hrun
    as [[Ht [_ [Hu [_ [Hm [Ho Ha]]]]]] [Happ [Hev Hnew]]].
  cbn in Ht, Hu, Hm, Ho, Ha, Happ, Hnew. rewrite Hrefs in Hnew.
  cbn. repeat (split; [first [assumption | reflexivity] |]). split.
  - intros err message He. apply Hev in He as [j Hj]. discriminate.
  - intros ref Href.
    apply Hnew in Href as [[] | [Hs [Hsel [Hso [j Hj]]]]].
    repeat (split; [assumption |]).
    exists (uniformRefineOptions options j). now repeat split.
Qed.

(** X7.  A call of [RefineAdaptive] that passes its checks stores the
    options and clears [_isUniform]; it reports no error, and each
    refinement it appends is of the scheme's split type, has a non-empty
    selection, and was refined sparsely, with full topology and the
    requested vertex order.  The scheme and the stored uniform options are
    untouched, and the levels held before stay in place. *)
Theorem RefineAdaptive_refines_sparsely
        (options : AdaptiveOptions.t) (storage : FeatureMask.t)
        (r : TopologyRefiner) (baseLevel : Level) :
  nth_error (_levels r) 0 = Some baseLevel ->
  getNumVertices baseLevel <> 0%Z ->
  _refinements r = [] ->
  _subdivType r = Sdc.SCHEME_CATMARK ->
  exists r' events,
    RefineAdaptive options storage r = Some (r', events)
    /\ _adaptiveOptions r' = options
    /\ _isUniform r' = false
    /\ _subdivType r' = _subdivType r
    /\ _uniformOptions r' = _uniformOptions r
    /\ (exists appended, _levels r' = _levels r ++ appended)
    /\ (forall err message, ~ In (Error err message) events)
    /\ forall ref,
         In ref (_refinements r') ->
         splitType ref = Sdc.GetTopologicalSplitType Sdc.SCHEME_CATMARK
         /\ schemeOptions ref = _subdivOptions r
         /\ selectedFaces ref <> []
         /\ refinedWith ref
            = Some {| _sparse := true;
                      _faceVertsFirst :=
                        AdaptiveOptions.orderVerticesFromFacesFirst options;
                      _minimalTopology := false |}.
Proof.
  intros Hbase Hverts Hrefs Hscheme.
  destruct (RefineAdaptive_proceeds options storage r baseLevel Hbase Hverts Hrefs Hscheme)
    as [r0 [events [far [Hrun Hcall]]]].
  exists (set_farLevels far (set_maxLevel (length (_refinements r0)) r0)), events.
  split; [exact Hcall |]. cbv zeta in Hrun.
  apply adaptivePasses_frame in Hrun
    as [[Ht [_ [Hu [_ [_ [Ho Ha]]]]]] [Happ [Hev Hnew]]].
  cbn in Ht, Hu, Ho, Ha, Happ, Hnew. rewrite Hrefs in Hnew.
  rewrite Hscheme in Hnew.
  cbn. repeat (split; [first [assumption | reflexivity] |]). split.
  - intros err message He. apply Hev in He as [j Hj]. discriminate.
  - intros ref Href.
    apply Hnew in Href as [[] | [Hs [Hsel [Hso Hwith]]]].
    repeat (split; [assumption |]). exact Hwith.
Qed.

(** X8.  After a call of [RefineUniform] that passed its checks and
    refined at least one level, every further call of [RefineUniform] or
    [RefineAdaptive] is refused as "previous refinements already applied"
    and returns the refiner unchanged.  With [refinementLevel] 0 nothing is
    appended. *)
Theorem refinement_is_refused_once_refined
        (options : UniformOptions.t) (r : TopologyRefiner) (baseLevel : Level) :
  nth_error (_levels r) 0 = Some baseLevel ->
  getNumVertices baseLevel <> 0%Z ->
  _refinements r = [] ->
  exists r' events,
    RefineUniform options r = Some (r', events)
    /\ (UniformOptions.refinementLevel options = 0 ->
        _refinements r' = [] /\ _levels r' = _levels r)
    /\ (1 <= UniformOptions.refinementLevel options ->
        forall again adaptive storage,
          RefineUniform again r'
          = Some (r', [Error FAR_RUNTIME_ERROR
               "Failure in TopologyRefiner::RefineUniform() -- previous refinements already applied."%string])
          /\ RefineAdaptive adaptive storage r'
             = Some (r', [Error FAR_RUNTIME_ERROR
               "Failure in TopologyRefiner::RefineAdaptive() -- previous refinements already applied."%string])).
Proof.
  intros Hbase Hverts Hrefs.
  destruct (RefineUniform_proceeds options r baseLevel Hbase Hverts Hrefs)
    as [r0 [events [far [Hrun Hcall]]]].
  exists (set_farLevels far r0), events. split; [exact Hcall |]. split.
  - intros Hzero. rewrite Hzero in Hrun. cbn [uniformPasses] in Hrun.
    injection Hrun as <- _. cbn. now split.
  - intros Hone again adaptive storage.
    pose proof (uniformPasses_run _ _ _ _ _ _ _ Hrun) as [_ [Hlen _]].
    apply uniformPasses_frame in Hrun as [_ [[appended Happ] _]].
    cbn in Hlen, Happ. rewrite Hrefs in Hlen. cbn in Hlen.
    assert (Hb : nth_error (_levels r0) 0 = Some baseLevel).
    { rewrite Happ, nth_error_app1; [exact Hbase |].
      apply nth_error_Some. congruence. }
    apply Z.eqb_neq in Hverts.
    unfold RefineUniform, RefineAdaptive. cbn [_levels _refinements set_farLevels].
    rewrite Hb, Hverts.
    destruct (_refinements r0) as [| ref refs]; [cbn in Hlen; lia |].
    split; reflexivity.
Qed.

(** X9.  [Unrefine] makes refinement possible again: on a refiner whose
    base level has vertices, whatever it holds besides, [Unrefine] followed
    by [RefineUniform] returns without error, with [refinementLevel]
    refinements and one level more. *)
Theorem Unrefine_then_RefineUniform
        (options : UniformOptions.t) (r : TopologyRefiner) (base : Level)
        (rest : list Level) :
  _levels r = base :: rest ->
  getNumVertices base <> 0%Z ->
  exists r1 deleted r2 events,
    Unrefine r = Some (r1, deleted)
    /\ RefineUniform options r1 = Some (r2, events)
    /\ (forall err message, ~ In (Error err message) events)
    /\ length (_refinements r2) = UniformOptions.refinementLevel options
    /\ length (_levels r2) = S (UniformOptions.refinementLevel options)
    /\ nth_error (_levels r2) 0 = Some base.
Proof.
  intros Hl Hverts.
  rewrite (Unrefine_keeps_the_base_level_aux r base rest Hl).
  eexists. eexists.
  match goal with
  | |- exists r2 events, Some (?r1, _) = _ /\ _ =>
      destruct (RefineUniform_proceeds options r1 base eq_refl Hverts eq_refl)
        as [r0 [events [far [Hrun Hcall]]]]
  end.
  exists (set_farLevels far r0), events.
  split; [reflexivity |]. split; [exact Hcall |].
  pose proof (uniformPasses_run _ _ _ _ _ _ _ Hrun) as [Hlv [Hlr _]].
  apply uniformPasses_frame in Hrun as [_ [[appended Happ] [Hev _]]].
  cbn in Hlv, Hlr, Happ. cbn. split; [| split; [exact Hlr | split; [lia |]]].
  - intros err message He. apply Hev in He as [j Hj]. discriminate.
  - now rewrite Happ.
Qed.

End Lifecycle.

(** ** The feature masks of a run *)

Section Masks.
Context {traits : Sdc.SchemeTypeTraits}.
Local Open Scope Z_scope.

Lemma mask_ext (a b : FeatureMask.t) :
  (forall bit, 0 <= bit -> FeatureMask.get bit a = FeatureMask.get bit b) -> a = b.
Proof.
  destruct a as [wa], b as [wb]. unfold FeatureMask.get. cbn [FeatureMask.word].
  intros H. f_equal. now apply Z.bits_inj'.
Qed.

(** X10.  [InitializeFeatures] assigns all eleven flags, whatever the mask
    held: six are set, [selectSemiSharpSingle] is set unless single-crease
    patches are used on a scheme of regular face size 4,
    [selectInfSharpRegularCrease] unless inf-sharp or such single-crease
    patches are used, [selectInfSharpRegularCorner] unless inf-sharp patches
    are used, and [selectFVarFeatures] is the [considerFVarChannels]
    option.  The bits above the fields are left alone, and the mask is
    never empty afterwards. *)
Theorem InitializeFeatures_assigns_every_flag
        (options : AdaptiveOptions.t) (subdType : Sdc.SchemeType) (m : FeatureMask.t) :
  let m' := FeatureMask.InitializeFeatures options subdType m in
  let useSingleCreasePatch :=
    AdaptiveOptions.useSingleCreasePatch options
    && (Sdc.GetRegularFaceSize subdType =? 4) in
  FeatureMask.selectXOrdinaryInterior m' = true
  /\ FeatureMask.selectXOrdinaryBoundary m' = true
  /\ FeatureMask.selectSemiSharpSingle m' = negb useSingleCreasePatch
  /\ FeatureMask.selectSemiSharpNonSingle m' = true
  /\ FeatureMask.selectInfSharpRegularCrease m'
     = negb (AdaptiveOptions.useInfSharpPatch options || useSingleCreasePatch)
  /\ FeatureMask.selectInfSharpRegularCorner m'
     = negb (AdaptiveOptions.useInfSharpPatch options)
  /\ FeatureMask.selectInfSharpIrregularDart m' = true
  /\ FeatureMask.selectInfSharpIrregularCrease m' = true
  /\ FeatureMask.selectInfSharpIrregularCorner m' = true
  /\ FeatureMask.selectNonManifold m' = true
  /\ FeatureMask.selectFVarFeatures m' = AdaptiveOptions.considerFVarChannels options
  /\ (forall bit, FeatureMask.FVarFeatures < bit ->
        FeatureMask.get bit m' = FeatureMask.get bit m)
  /\ FeatureMask.IsEmpty m' = false.
Proof.
  cbv zeta.
  assert (Hnm : FeatureMask.get FeatureMask.NonManifold
                  (FeatureMask.InitializeFeatures options subdType m) = true)
    by apply InitializeFeatures_NonManifold.
  unfold FeatureMask.InitializeFeatures in *.
  repeat (split; [mask_fields; reflexivity |]). split.
  - intros bit Hbit. unfold FeatureMask.FVarFeatures in Hbit.
    repeat (rewrite get_set by (now cbv)).
    repeat match goal with
           | |- context [?g =? bit] =>
               replace (g =? bit) with false
                 by (symmetry; apply Z.eqb_neq; unfold g; lia)
           end.
    reflexivity.
  - unfold FeatureMask.IsEmpty. apply Z.eqb_neq. intros Hz.
    unfold FeatureMask.get in Hnm. rewrite Hz, Z.bits_0 in Hnm. discriminate.
Qed.

Lemma ReduceFeatures_get (options : AdaptiveOptions.t) (m : FeatureMask.t) (bit : Z) :
  FeatureMask.get bit (FeatureMask.ReduceFeatures options m)
  = FeatureMask.get bit m
    && negb ((bit =? 0) || (bit =? 1)
             || (AdaptiveOptions.useInfSharpPatch options
                 && ((bit =? 4) || (bit =? 5) || (bit =? 6) || (bit =? 7)))).
Proof.
  unfold FeatureMask.ReduceFeatures.
  destruct (AdaptiveOptions.useInfSharpPatch options);
    repeat (rewrite get_set by (now cbv));
    unfold FeatureMask.XOrdinaryInterior, FeatureMask.XOrdinaryBoundary,
      FeatureMask.InfSharpRegularCrease, FeatureMask.InfSharpRegularCorner,
      FeatureMask.InfSharpIrregularDart, FeatureMask.InfSharpIrregularCrease;
    rewrite ?(Z.eqb_sym _ bit);
    repeat match goal with
           | |- context [bit =? ?k] => destruct (bit =? k)
           end;
    cbn; rewrite ?andb_true_r, ?andb_false_r; reflexivity.
Qed.

(** X11.  [ReduceFeatures] is idempotent, and it only clears: applied twice
    it gives the mask it gives once, and every bit set in the reduced mask
    was set before. *)
Theorem ReduceFeatures_idempotent (options : AdaptiveOptions.t) (m : FeatureMask.t) :
  FeatureMask.ReduceFeatures options (FeatureMask.ReduceFeatures options m)
  = FeatureMask.ReduceFeatures options m
  /\ forall bit,
       FeatureMask.get bit (FeatureMask.ReduceFeatures options m) = true ->
       FeatureMask.get bit m = true.
Proof.
  split.
  - apply mask_ext. intros bit _. rewrite !ReduceFeatures_get.
    now destruct (FeatureMask.get bit m), (negb _).
  - intros bit. rewrite ReduceFeatures_get. intros H.
    now apply andb_true_iff in H.
Qed.

End Masks.

(** ** What the masks of a run select *)

Section MaskSelection.
Context {traits : Sdc.SchemeTypeTraits}.
Local Open Scope Z_scope.

Lemma covers_refl (m : FeatureMask.t) : covers m m.
Proof. intros bit H. exact H. Qed.

Lemma covers_set (g : FeatureMask.field) (b : bool) (m2 m1 : FeatureMask.t) :
  0 <= g -> covers m2 m1 -> covers (FeatureMask.set g b m2) (FeatureMask.set g b m1).
Proof.
  intros Hg Hc bit. rewrite !get_set by exact Hg.
  destruct (g =? bit); [trivial | apply Hc].
Qed.

Lemma covers_IsEmpty (m2 m1 : FeatureMask.t) :
  covers m2 m1 -> FeatureMask.IsEmpty m2 = true -> FeatureMask.IsEmpty m1 = true.
Proof.
  unfold covers, FeatureMask.IsEmpty, FeatureMask.get. intros Hc H2.
  apply Z.eqb_eq in H2. apply Z.eqb_eq. apply Z.bits_inj'. intros n _.
  rewrite Z.bits_0. destruct (Z.testbit (FeatureMask.word m1) n) eqn:Hn; [| reflexivity].
  apply Hc in Hn. rewrite H2, Z.bits_0 in Hn. discriminate.
Qed.

Lemma ReduceFeatures_covers (options : AdaptiveOptions.t) (m : FeatureMask.t) :
  covers m (FeatureMask.ReduceFeatures options m).
Proof.
  intros bit. rewrite ReduceFeatures_get. intros H. now apply andb_true_iff in H.
Qed.

Lemma adaptiveFeatureMasks_covers options storage subdivType baseLevel :
  covers (fst (adaptiveFeatureMasks options storage subdivType baseLevel))
         (snd (adaptiveFeatureMasks options storage subdivType baseLevel)).
Proof.
  unfold adaptiveFeatureMasks. cbv zeta.
  assert (Hless : covers (FeatureMask.make options subdivType storage)
                    (if Nat.ltb (Nat.min (AdaptiveOptions.secondaryLevel options)
                                         (AdaptiveOptions.isolationLevel options))
                                (AdaptiveOptions.isolationLevel options)
                     then FeatureMask.ReduceFeatures options
                            (FeatureMask.make options subdivType storage)
                     else FeatureMask.make options subdivType storage)).
  { destruct (Nat.ltb _ _); [apply ReduceFeatures_covers | apply covers_refl]. }
  destruct (_ =? 0); [apply covers_refl |].
  destruct (FeatureMask.selectFVarFeatures _); [| exact Hless].
  destruct (negb _); [| exact Hless].
  cbn [fst snd]. apply covers_set; [now cbv | exact Hless].
Qed.

(** A chain of tests that answer true is monotone in its tests. *)
Lemma if_true_mono (c1 c2 rest1 rest2 : bool) :
  (c1 = true -> c2 = true) -> (rest1 = true -> rest2 = true) ->
  (if c1 then true else rest1) = true -> (if c2 then true else rest2) = true.
Proof. destruct c1, c2; auto. intros H. now specialize (H eq_refl). Qed.

Lemma andb_mono_r (t a1 a2 : bool) :
  (a1 = true -> a2 = true) -> t && a1 = true -> t && a2 = true.
Proof. destruct t, a1; cbn; auto. Qed.

Lemma doesInfSharpFaceHaveFeatures_covers (compVTag : VTag) (m2 m1 : FeatureMask.t) :
  covers m2 m1 ->
  doesInfSharpFaceHaveFeatures compVTag m1 = true ->
  doesInfSharpFaceHaveFeatures compVTag m2 = true.
Proof.
  intros Hc. unfold doesInfSharpFaceHaveFeatures,
    FeatureMask.selectInfSharpIrregularCorner, FeatureMask.selectXOrdinaryBoundary,
    FeatureMask.selectInfSharpIrregularCrease, FeatureMask.selectInfSharpIrregularDart,
    FeatureMask.selectInfSharpRegularCorner, FeatureMask.selectInfSharpRegularCrease.
  repeat match goal with
         | |- context [if ?c then _ else _] => destruct c
         end; first [apply Hc | trivial].
Qed.

Lemma doesFaceHaveFeatures_covers (level : Level) (face : Index)
      (m2 m1 : FeatureMask.t) :
  covers m2 m1 ->
  doesFaceHaveFeatures level face m1 = true ->
  doesFaceHaveFeatures level face m2 = true.
Proof.
  intros Hc. unfold doesFaceHaveFeatures.
  destruct (FeatureMask.IsEmpty m2) eqn:H2.
  { now rewrite (covers_IsEmpty _ _ Hc H2). }
  destruct (FeatureMask.IsEmpty m1); [discriminate |]. cbv zeta.
  unfold FeatureMask.selectNonManifold, FeatureMask.selectXOrdinaryInterior,
    FeatureMask.selectSemiSharpSingle, FeatureMask.selectSemiSharpNonSingle.
  destruct (_incomplete _); [trivial |].
  apply if_true_mono; [apply andb_mono_r, Hc |].
  apply if_true_mono.
  { rewrite <- !andb_assoc. apply andb_mono_r.
    intros H. apply andb_true_iff in H as [Hx Hr]. apply Hc in Hx.
    now rewrite Hx, Hr. }
  destruct (_rule _ =? _); [trivial |].
  destruct (negb (hasRule _ _)); [trivial |].
  destruct (_semiSharp _ || _semiSharpEdges _).
  - apply if_true_mono.
    + intros H. apply andb_true_iff in H as [Hs Hn].
      apply Hc in Hs. apply Hc in Hn. now rewrite Hs, Hn.
    + destruct (isSingleCreasePatch _ _); apply Hc.
  - destruct (_infSharp _ || _infSharpEdges _); [| trivial].
    now apply doesInfSharpFaceHaveFeatures_covers.
Qed.

Lemma doesFaceHaveDistinctFaceVaryingFeatures_covers (level : Level) (face : Index)
      (m2 m1 : FeatureMask.t) (fvarChannel : Z) :
  covers m2 m1 ->
  doesFaceHaveDistinctFaceVaryingFeatures level face m1 fvarChannel = true ->
  doesFaceHaveDistinctFaceVaryingFeatures level face m2 fvarChannel = true.
Proof.
  intros Hc. unfold doesFaceHaveDistinctFaceVaryingFeatures. cbv zeta.
  unfold FeatureMask.selectNonManifold, FeatureMask.selectXOrdinaryInterior.
  apply if_true_mono; [apply andb_mono_r, Hc |].
  apply if_true_mono; [apply andb_mono_r, Hc |].
  destruct (negb (hasRule _ _)); [trivial |].
  now apply doesInfSharpFaceHaveFeatures_covers.
Qed.

Lemma selectFaceInFVarChannels_covers (level : Level) (face : Index)
      (m2 m1 : FeatureMask.t) (channels : list Z) :
  covers m2 m1 ->
  forall s1 s2 : bool,
    (s1 = true -> s2 = true) ->
    selectFaceInFVarChannels level face m1 channels s1 = true ->
    selectFaceInFVarChannels level face m2 channels s2 = true.
Proof.
  intros Hc. induction channels as [| channel rest IH]; intros s1 s2 Hs;
    cbn [selectFaceInFVarChannels]; [exact Hs |].
  destruct s1.
  - rewrite (Hs eq_refl). trivial.
  - destruct s2; [trivial |]. apply IH.
    destruct (negb (doesFaceFVarTopologyMatch level face channel)); [| trivial].
    now apply doesFaceHaveDistinctFaceVaryingFeatures_covers.
Qed.

Lemma faceHasSelectedFeatures_covers (level : Level) (face : Index)
      (m2 m1 : FeatureMask.t) :
  covers m2 m1 ->
  faceHasSelectedFeatures level face m1 (inspectedFVarChannels level m1) = true ->
  faceHasSelectedFeatures level face m2 (inspectedFVarChannels level m2) = true.
Proof.
  intros Hc. unfold faceHasSelectedFeatures, inspectedFVarChannels. cbv zeta.
  pose proof (doesFaceHaveFeatures_covers level face m2 m1 Hc) as Hmain.
  destruct (doesFaceHaveFeatures level face m1) eqn:H1.
  - rewrite (Hmain eq_refl). trivial.
  - cbn [negb andb]. unfold FeatureMask.selectFVarFeatures.
    destruct (FeatureMask.get FeatureMask.FVarFeatures m1) eqn:Hf1; [| discriminate].
    rewrite (Hc _ Hf1). intros Hloop.
    destruct (doesFaceHaveFeatures level face m2); [reflexivity |].
    cbn [negb andb].
    now apply (selectFaceInFVarChannels_covers level face m2 m1 _ Hc false false).
Qed.

Lemma facesRegisteredFor_covers (level : Level) (m2 m1 : FeatureMask.t)
      (irregular : bool) (regularFaceSize neighborhood : Z) (face f : Index) :
  covers m2 m1 ->
  In f (facesRegisteredFor level m1 irregular (inspectedFVarChannels level m1)
          regularFaceSize neighborhood face) ->
  In f (facesRegisteredFor level m2 irregular (inspectedFVarChannels level m2)
          regularFaceSize neighborhood face).
Proof.
  intros Hc. unfold facesRegisteredFor, selectFeatureAdaptiveFace.
  destruct (isFaceHole level face); [trivial |].
  destruct (irregular && _); [trivial |].
  pose proof (faceHasSelectedFeatures_covers level face m2 m1 Hc) as Hface.
  destruct (faceHasSelectedFeatures level face m1 _); [| intros []].
  now rewrite (Hface eq_refl).
Qed.

Lemma selectFeatureAdaptiveComponents_covers (subdivType : Sdc.SchemeType)
      (selector : SparseSelector) (m2 m1 : FeatureMask.t) (f : Index) :
  covers m2 m1 ->
  In f (selectedFaces (getRefinement
          (selectFeatureAdaptiveComponents subdivType selector m1))) ->
  In f (selectedFaces (getRefinement
          (selectFeatureAdaptiveComponents subdivType selector m2))).
Proof.
  intros Hc. unfold selectFeatureAdaptiveComponents. cbv zeta.
  assert (Hfold : forall irregular,
    In f (selectedFaces (getRefinement
            (fold_left (selectFeatureAdaptiveFace (parent (getRefinement selector)) m1
                          irregular
                          (inspectedFVarChannels (parent (getRefinement selector)) m1)
                          (getRegularFaceSize (getRefinement selector))
                          (Sdc.GetLocalNeighborhoodSize subdivType))
                       (upto (getNumFaces (parent (getRefinement selector)))) selector))) ->
    In f (selectedFaces (getRefinement
            (fold_left (selectFeatureAdaptiveFace (parent (getRefinement selector)) m2
                          irregular
                          (inspectedFVarChannels (parent (getRefinement selector)) m2)
                          (getRegularFaceSize (getRefinement selector))
                          (Sdc.GetLocalNeighborhoodSize subdivType))
                       (upto (getNumFaces (parent (getRefinement selector)))) selector)))).
  { intros irregular. rewrite !selectFeatureAdaptiveFace_fold. intros H.
    apply in_app_or in H as [H | H]; apply in_or_app; [now left | right].
    apply in_flat_map in H as [face [Hface H]]. apply in_flat_map.
    exists face. split; [exact Hface |].
    now apply (facesRegisteredFor_covers _ m2 m1). }
  destruct (getDepth (parent (getRefinement selector)) =? 0).
  - cbn [negb]. rewrite !andb_false_r. apply Hfold.
  - cbn [negb]. rewrite !andb_true_r.
    destruct (FeatureMask.IsEmpty m2) eqn:H2.
    + rewrite (covers_IsEmpty _ _ Hc H2). trivial.
    + destruct (FeatureMask.IsEmpty m1); [| apply Hfold].
      rewrite selectFeatureAdaptiveFace_fold. intros H. apply in_or_app. now left.
Qed.

(** X12.  Of the two feature masks of a run of [RefineAdaptive], the one
    used beyond the secondary level never selects more: on one and the same
    selector, every face registered with [lessFeaturesMask] is registered
    with [moreFeaturesMask]. *)
Theorem lessFeaturesMask_selects_among_moreFeaturesMask
        (options : AdaptiveOptions.t) (storage : FeatureMask.t)
        (subdivType : Sdc.SchemeType) (baseLevel : Level)
        (selector : SparseSelector) (f : Index) :
  let masks := adaptiveFeatureMasks options storage subdivType baseLevel in
  In f (selectedFaces (getRefinement
          (selectFeatureAdaptiveComponents subdivType selector (snd masks)))) ->
  In f (selectedFaces (getRefinement
          (selectFeatureAdaptiveComponents subdivType selector (fst masks)))).
Proof.
  cbv zeta. apply selectFeatureAdaptiveComponents_covers, adaptiveFeatureMasks_covers.
Qed.

Lemma nonLinearChannelsPresent_fold (baseLevel : Level) (channels : list Z)
      (present : bool) :
  fold_left (fun present channel =>
               present || negb (getFVarLevel_isLinear baseLevel channel))
            channels present
  = present
    || existsb (fun channel => negb (getFVarLevel_isLinear baseLevel channel)) channels.
Proof.
  revert present. induction channels as [| c cs IH]; intros present; cbn.
  - now rewrite orb_false_r.
  - now rewrite IH, orb_assoc.
Qed.

(** X13.  In both feature masks of a run of [RefineAdaptive], face-varying
    features are selected exactly when the [considerFVarChannels] option is
    set, the scheme's neighborhood size is not zero and some face-varying
    channel of the base level is not linear; beyond that, both masks are
    empty when the neighborhood size is zero, and neither is otherwise. *)
Theorem face_varying_features_need_a_non_linear_channel
        (options : AdaptiveOptions.t) (storage : FeatureMask.t)
        (subdivType : Sdc.SchemeType) (baseLevel : Level) :
  let masks := adaptiveFeatureMasks options storage subdivType baseLevel in
  let considered :=
    AdaptiveOptions.considerFVarChannels options
    && negb (Sdc.GetLocalNeighborhoodSize subdivType =? 0)
    && nonLinearChannelsPresent baseLevel in
  FeatureMask.selectFVarFeatures (fst masks) = considered
  /\ FeatureMask.selectFVarFeatures (snd masks) = considered
  /\ FeatureMask.IsEmpty (fst masks) = (Sdc.GetLocalNeighborhoodSize subdivType =? 0)
  /\ FeatureMask.IsEmpty (snd masks) = (Sdc.GetLocalNeighborhoodSize subdivType =? 0).
Proof.
  cbv zeta. unfold adaptiveFeatureMasks, nonLinearChannelsPresent. cbv zeta.
  rewrite nonLinearChannelsPresent_fold. cbn [orb].
  set (more := FeatureMask.make options subdivType storage).
  set (less := if Nat.ltb _ _ then _ else _).
  assert (Hmf : FeatureMask.get FeatureMask.FVarFeatures more
                = AdaptiveOptions.considerFVarChannels options).
  { unfold more, FeatureMask.make, FeatureMask.InitializeFeatures. now mask_fields. }
  assert (Hlf : FeatureMask.get FeatureMask.FVarFeatures less
                = AdaptiveOptions.considerFVarChannels options).
  { unfold less. destruct (Nat.ltb _ _); [| exact Hmf].
    rewrite ReduceFeatures_get, Hmf.
    destruct (AdaptiveOptions.useInfSharpPatch options); cbn; now rewrite andb_true_r. }
  assert (Hmn : FeatureMask.get FeatureMask.NonManifold more = true).
  { apply InitializeFeatures_NonManifold. }
  assert (Hln : FeatureMask.get FeatureMask.NonManifold less = true).
  { unfold less. destruct (Nat.ltb _ _); [| exact Hmn].
    rewrite ReduceFeatures_get, Hmn.
    destruct (AdaptiveOptions.useInfSharpPatch options); reflexivity. }
  assert (Hne : forall m, FeatureMask.get FeatureMask.NonManifold m = true ->
                          FeatureMask.IsEmpty m = false).
  { intros m Hm. unfold FeatureMask.IsEmpty. apply Z.eqb_neq. intros Hz.
    unfold FeatureMask.get in Hm. rewrite Hz, Z.bits_0 in Hm. discriminate. }
  clearbody more less. unfold FeatureMask.selectFVarFeatures.
  destruct (Sdc.GetLocalNeighborhoodSize subdivType =? 0).
  - cbn [fst snd FeatureMask.Clear]. rewrite andb_false_r.
    repeat split; reflexivity.
  - rewrite Hmf. rewrite andb_true_r.
    destruct (AdaptiveOptions.considerFVarChannels options) eqn:Hcons.
    + destruct (existsb _ _); cbn [negb fst snd andb].
      * rewrite Hmf, Hlf. repeat split; auto.
      * rewrite !get_set by (now cbv). cbn.
        repeat split; apply Hne; rewrite get_set by (now cbv); cbn; assumption.
    + cbn [fst snd andb]. rewrite Hmf, Hlf. repeat split; auto.
Qed.

Lemma NoDup_upto (n : Z) : NoDup (upto n).
Proof.
  unfold upto. generalize (seq_NoDup (Z.to_nat n) 0).
  induction 1 as [| x l Hx Hl IH]; cbn [map]; constructor; [| exact IH].
  rewrite in_map_iff. intros [y [Hy Hin]]. apply Nat2Z.inj in Hy. now subst.
Qed.

(** X14.  Below the base level the driver registers exactly the non-hole
    faces with a selected feature, each once and in the order of the face
    indices, after whatever the selector held; the scheme's neighborhood
    size plays no part, and an empty mask registers nothing. *)
Theorem selection_below_the_base_level
        (subdivType : Sdc.SchemeType) (selector : SparseSelector)
        (featureMask : FeatureMask.t) :
  let level := parent (getRefinement selector) in
  getDepth level <> 0 ->
  selectedFaces (getRefinement
    (selectFeatureAdaptiveComponents subdivType selector featureMask))
  = selectedFaces (getRefinement selector) ++ facesWithFeatures level featureMask
  /\ NoDup (facesWithFeatures level featureMask)
  /\ (forall f, In f (facesWithFeatures level featureMask) ->
                0 <= f < getNumFaces level /\ isFaceHole level f = false)
  /\ (FeatureMask.IsEmpty featureMask = true ->
      facesWithFeatures level featureMask = []).
Proof.
  cbv zeta. intros Hdepth. apply Z.eqb_neq in Hdepth.
  assert (Hempty : FeatureMask.IsEmpty featureMask = true ->
                   facesWithFeatures (parent (getRefinement selector)) featureMask = []).
  { intros He. unfold facesWithFeatures.
    assert (Hf : FeatureMask.selectFVarFeatures featureMask = false).
    { unfold FeatureMask.IsEmpty in He. apply Z.eqb_eq in He.
      unfold FeatureMask.selectFVarFeatures, FeatureMask.get.
      now rewrite He, Z.bits_0. }
    assert (Hface : forall f n,
              faceHasSelectedFeatures (parent (getRefinement selector)) f featureMask n
              = false).
    { intros f n. unfold faceHasSelectedFeatures, doesFaceHaveFeatures.
      now rewrite He, Hf. }
    induction (upto _) as [| f fs IH]; [reflexivity |]. cbn [filter].
    now rewrite Hface, andb_false_r. }
  split; [| split; [| split; [| exact Hempty]]].
  - unfold selectFeatureAdaptiveComponents. cbv zeta. rewrite Hdepth. cbn [negb].
    rewrite andb_true_r.
    destruct (FeatureMask.IsEmpty featureMask) eqn:He.
    + now rewrite (Hempty eq_refl), app_nil_r.
    + rewrite selectFeatureAdaptiveFace_fold. f_equal. unfold facesWithFeatures.
      induction (upto _) as [| f fs IH]; [reflexivity |].
      cbn [flat_map filter]. rewrite IH.
      unfold facesRegisteredFor, selectFeatureAdaptiveFace.
      destruct (isFaceHole _ f); [reflexivity |]. cbn [andb negb].
      now destruct (faceHasSelectedFeatures _ _ _ _).
  - apply NoDup_filter, NoDup_upto.
  - intros f Hf. apply filter_In in Hf as [Hin Ht].
    apply In_upto in Hin. apply andb_true_iff in Ht as [Hh _].
    split; [exact Hin | now destruct (isFaceHole _ f)].
Qed.

Lemma ReduceFeatures_FVarFeatures_off (options : AdaptiveOptions.t) (m : FeatureMask.t) :
  FeatureMask.set FeatureMask.FVarFeatures false (FeatureMask.ReduceFeatures options m)
  = FeatureMask.ReduceFeatures options (FeatureMask.set FeatureMask.FVarFeatures false m).
Proof.
  apply mask_ext. intros bit _.
  rewrite ReduceFeatures_get, !get_set, ReduceFeatures_get by (now cbv).
  now destruct (FeatureMask.FVarFeatures =? bit).
Qed.

Lemma ReduceFeatures_cleared (options : AdaptiveOptions.t) (m : FeatureMask.t) :
  FeatureMask.ReduceFeatures options (FeatureMask.Clear m) = FeatureMask.Clear m.
Proof.
  apply mask_ext. intros bit _. rewrite ReduceFeatures_get.
  unfold FeatureMask.Clear, FeatureMask.get. cbn [FeatureMask.word].
  now rewrite Z.bits_0.
Qed.

Lemma lessFeaturesMask_reduced options storage subdivType baseLevel :
  (AdaptiveOptions.secondaryLevel options < AdaptiveOptions.isolationLevel options)%nat ->
  snd (adaptiveFeatureMasks options storage subdivType baseLevel)
  = FeatureMask.ReduceFeatures options
      (fst (adaptiveFeatureMasks options storage subdivType baseLevel)).
Proof.
  intros Hlt. unfold adaptiveFeatureMasks. cbv zeta.
  assert (Hmin : Nat.ltb (Nat.min (AdaptiveOptions.secondaryLevel options)
                                  (AdaptiveOptions.isolationLevel options))
                         (AdaptiveOptions.isolationLevel options) = true)
    by (apply Nat.ltb_lt; lia).
  rewrite Hmin.
  destruct (_ =? 0).
  { cbn [fst snd]. rewrite ReduceFeatures_cleared. reflexivity. }
  destruct (FeatureMask.selectFVarFeatures _); [| reflexivity].
  destruct (negb _); [| reflexivity].
  cbn [fst snd]. apply ReduceFeatures_FVarFeatures_off.
Qed.

End MaskSelection.

(** ** The mask of each pass *)

Section PassMasks.
Context {traits : Sdc.SchemeTypeTraits} {R : Refine}.

(** The refinements the adaptive loop appends hold the selections of its
    passes, in order, and those it found stay in place. *)
Lemma adaptivePasses_selections options split shallowLevel more less passes :
  forall i r r' events,
    adaptivePasses options split shallowLevel more less passes i r
    = Some (r', events) ->
    (forall k, k < length (_refinements r) ->
               nth_error (_refinements r') k = nth_error (_refinements r) k)
    /\ forall j ref,
         nth_error (_refinements r') (length (_refinements r) + j) = Some ref ->
         j < passes
         /\ selectedFaces ref
            = selectedFaces (getRefinement
                (adaptiveSelection (_subdivType r) (_subdivOptions r) split
                   shallowLevel more less (i + j) (parent ref))).
Proof.
  induction passes as [| passes IH]; intros i r r' events H; cbn [adaptivePasses] in H.
  - injection H as <- _. split; [reflexivity |]. intros j ref Href. exfalso.
    assert (nth_error (_refinements r) (length (_refinements r) + j) = None)
      by (apply nth_error_None; lia).
    congruence.
  - destruct (nth_error (_levels r) (i - 1)) as [parentLevel |]; [| discriminate].
    cbv zeta in H. destruct (isSelectionEmpty _) eqn:Hempty.
    + injection H as <- _. split; [reflexivity |]. intros j ref Href. exfalso.
      assert (nth_error (_refinements r) (length (_refinements r) + j) = None)
        by (apply nth_error_None; lia).
      congruence.
    + match type of H with
      | context [adaptivePasses _ _ _ _ _ _ (S i) ?r1] =>
          destruct (adaptivePasses options split shallowLevel more less
                      passes (S i) r1) as [[r2 ev2] |] eqn:Hrest; [| discriminate]
      end.
      injection H as <- _. apply IH in Hrest as [Hpre Hnew].
      cbn [_refinements _subdivType _subdivOptions appendLevel appendRefinement
           updateInventory set_inventory set_levels set_refinements] in Hpre, Hnew.
      rewrite length_app in Hpre, Hnew. cbn [length] in Hpre, Hnew.
      cbn [fst]. split.
      * intros k Hk. rewrite Hpre by lia. now rewrite nth_error_app1.
      * intros j ref Href. destruct j as [| j].
        -- rewrite Nat.add_0_r in Href |- *. rewrite Hpre in Href by lia.
           rewrite nth_error_app2, Nat.sub_diag in Href by lia.
           injection Href as <-. split; [lia |].
           cbn [refine selectedFaces parent].
           assert (Hparent : parent (getRefinement
                       (adaptiveSelection (_subdivType r) (_subdivOptions r) split
                          shallowLevel more less i parentLevel)) = parentLevel).
           { unfold adaptiveSelection.
             destruct (selectFeatureAdaptiveComponents_sameButSelection (_subdivType r)
                         (mkSelector (newRefinement split parentLevel Level_new
                                        (_subdivOptions r)))
                         (if Nat.leb i shallowLevel then more else less))
               as [_ [-> _]].
             now rewrite newRefinement_fields. }
           now rewrite Hparent.
        -- replace (length (_refinements r) + S j)
             with (length (_refinements r) + 1 + j) in Href by lia.
           apply Hnew in Href as [Hj Hsel]. split; [lia |].
           rewrite Hsel. do 3 f_equal. lia.
Qed.

(** X17.  The secondary level splits the passes of [RefineAdaptive]: in
    the result of a call that passes its checks, refinement [j], made by
    pass [j + 1] of at most [isolationLevel], holds the faces that
    [selectFeatureAdaptiveComponents] selects on its parent level with
    [moreFeaturesMask] when the pass is at most [secondaryLevel], and with
    that mask reduced by [ReduceFeatures] when it is beyond; a secondary
    level at or above the isolation level has no effect. *)
Theorem secondaryLevel_splits_the_passes
        (options : AdaptiveOptions.t) (storage : FeatureMask.t)
        (r r' : TopologyRefiner) (events : list Event) (baseLevel : Level) :
  nth_error (_levels r) 0 = Some baseLevel ->
  getNumVertices baseLevel <> 0%Z ->
  _refinements r = [] ->
  _subdivType r = Sdc.SCHEME_CATMARK ->
  RefineAdaptive options storage r = Some (r', events) ->
  let moreFeaturesMask :=
    fst (adaptiveFeatureMasks options storage Sdc.SCHEME_CATMARK baseLevel) in
  forall j ref,
    nth_error (_refinements r') j = Some ref ->
    S j <= AdaptiveOptions.isolationLevel options
    /\ selectedFaces ref
       = selectedFaces (getRefinement
           (selectFeatureAdaptiveComponents Sdc.SCHEME_CATMARK
              (mkSelector
                 (newRefinement (Sdc.GetTopologicalSplitType Sdc.SCHEME_CATMARK)
                    (parent ref) Level_new (_subdivOptions r)))
              (if Nat.leb (S j) (AdaptiveOptions.secondaryLevel options)
               then moreFeaturesMask
               else FeatureMask.ReduceFeatures options moreFeaturesMask))).
Proof.
  intros Hbase Hverts Hrefs Hscheme Hcall. cbv zeta. intros j ref Href.
  destruct (RefineAdaptive_proceeds options storage r baseLevel Hbase Hverts Hrefs Hscheme)
    as [r0 [ev0 [far [Hrun Hcall']]]].
  rewrite Hcall' in Hcall. injection Hcall as <- _. cbv zeta in Hrun.
  cbn [_refinements set_farLevels set_maxLevel] in Href.
  apply adaptivePasses_selections in Hrun as [_ Hnew].
  cbn [_refinements _subdivType _subdivOptions set_adaptiveOptions set_isUniform]
    in Hnew.
  rewrite Hrefs in Hnew. cbn [length Nat.add] in Hnew.
  apply Hnew in Href as [Hj Hsel]. split; [lia |].
  rewrite Hsel, Hscheme. unfold adaptiveSelection. do 3 f_equal.
  change (1 + j) with (S j).
  destruct (Nat.leb_spec (S j) (AdaptiveOptions.secondaryLevel options)) as [Hle | Hgt].
  - assert (H : Nat.leb (S j) (Nat.min (AdaptiveOptions.secondaryLevel options)
                                       (AdaptiveOptions.isolationLevel options)) = true)
      by (apply Nat.leb_le; lia).
    now rewrite H.
  - assert (H : Nat.leb (S j) (Nat.min (AdaptiveOptions.secondaryLevel options)
                                       (AdaptiveOptions.isolationLevel options)) = false)
      by (apply Nat.leb_gt; lia).
    rewrite H. apply lessFeaturesMask_reduced. lia.
Qed.

End PassMasks.

(** ** A base level with nothing to isolate *)

Lemma selectFaceInFVarChannels_matching (level : Level) (face : Index)
      (featureMask : FeatureMask.t) (channels : list Z) :
  (forall channel, In channel channels ->
                   doesFaceFVarTopologyMatch level face channel = true) ->
  selectFaceInFVarChannels level face featureMask channels false = false.
Proof.
  induction channels as [| channel rest IH]; intros Hmatch;
    cbn [selectFaceInFVarChannels]; [reflexivity |].
  rewrite (Hmatch channel) by now left. cbn [negb].
  apply IH. intros c Hc. apply Hmatch. now right.
Qed.

(** A face whose corners are all smooth, neither non-manifold nor
    extraordinary, and whose face-varying topology matches in every channel
    has no feature under any mask. *)
Lemma faceHasSelectedFeatures_smooth (level : Level) (face : Index)
      (featureMask : FeatureMask.t) :
  _nonManifold (compFaceVTag level face) = false ->
  _xordinary (compFaceVTag level face) = false ->
  _rule (compFaceVTag level face) = Sdc.Crease.RULE_SMOOTH ->
  (forall channel, (0 <= channel < getNumFVarChannels level)%Z ->
                   doesFaceFVarTopologyMatch level face channel = true) ->
  faceHasSelectedFeatures level face featureMask
    (inspectedFVarChannels level featureMask) = false.
Proof.
  unfold compFaceVTag. intros Hnm Hx Hrule Hmatch.
  assert (Hmain : doesFaceHaveFeatures level face featureMask = false).
  { unfold doesFaceHaveFeatures. cbv zeta. rewrite Hnm, Hx, Hrule.
    cbn [andb]. rewrite Z.eqb_refl.
    destruct (FeatureMask.IsEmpty featureMask); [reflexivity |].
    now destruct (_incomplete _). }
  unfold faceHasSelectedFeatures. cbv zeta. rewrite Hmain. cbn [negb andb].
  destruct (FeatureMask.selectFVarFeatures featureMask) eqn:Hf; [| reflexivity].
  apply selectFaceInFVarChannels_matching. intros channel Hin.
  apply In_upto in Hin. apply Hmatch.
  unfold inspectedFVarChannels in Hin. now rewrite Hf in Hin.
Qed.

Section SmoothBase.
Context {traits : Sdc.SchemeTypeTraits} {R : Refine}.

Lemma selection_of_smooth_regular_level (subdivType : Sdc.SchemeType)
      (selector : SparseSelector) (featureMask : FeatureMask.t) :
  let level := parent (getRefinement selector) in
  selectedFaces (getRefinement selector) = [] ->
  (forall f, (0 <= f < getNumFaces level)%Z -> isFaceHole level f = false ->
     Z.of_nat (length (getFaceVertices level f))
     = getRegularFaceSize (getRefinement selector)
     /\ _nonManifold (compFaceVTag level f) = false
     /\ _xordinary (compFaceVTag level f) = false
     /\ _rule (compFaceVTag level f) = Sdc.Crease.RULE_SMOOTH
     /\ forall channel, (0 <= channel < getNumFVarChannels level)%Z ->
                        doesFaceFVarTopologyMatch level f channel = true) ->
  isSelectionEmpty (selectFeatureAdaptiveComponents subdivType selector featureMask)
  = true.
Proof.
  cbv zeta. intros Hfresh Hfaces.
  assert (Hnone : selectedFaces (getRefinement
            (selectFeatureAdaptiveComponents subdivType selector featureMask)) = []).
  { unfold selectFeatureAdaptiveComponents. cbv zeta.
    destruct (FeatureMask.IsEmpty featureMask && _); [exact Hfresh |].
    rewrite selectFeatureAdaptiveFace_fold, Hfresh. cbn [app].
    assert (Hall : forall f, In f (upto (getNumFaces (parent (getRefinement selector)))) ->
              (0 <= f < getNumFaces (parent (getRefinement selector)))%Z)
      by (intros f Hf; now apply In_upto).
    induction (upto _) as [| f fs IH]; [reflexivity |].
    cbn [flat_map]. rewrite IH by (intros g Hg; apply Hall; now right).
    rewrite app_nil_r. unfold facesRegisteredFor, selectFeatureAdaptiveFace.
    destruct (isFaceHole _ f) eqn:Hhole; [reflexivity |].
    destruct (Hfaces f (Hall f (or_introl eq_refl)) Hhole)
      as [Hsize [Hnm [Hx [Hrule Hmatch]]]].
    rewrite Hsize, Z.eqb_refl. cbn [negb]. rewrite andb_false_r.
    now rewrite faceHasSelectedFeatures_smooth. }
  unfold isSelectionEmpty. now rewrite Hnone.
Qed.

(** X15.  On a base level where every face that is not a hole has the
    regular size of the scheme's split, corners that are all smooth, no
    non-manifold and no extraordinary vertex, and a face-varying topology
    that matches in every channel, [RefineAdaptive] with an isolation level
    of at least 1 appends nothing, whatever the other options and the mask
    storage are: it stores the options, clears [_isUniform], sets
    [_maxLevel] to 0, and allocates and deletes the refinement and the
    level of pass 1. *)
Theorem RefineAdaptive_leaves_a_smooth_regular_base
        (options : AdaptiveOptions.t) (storage : FeatureMask.t)
        (r : TopologyRefiner) (baseLevel : Level) :
  let split := Sdc.GetTopologicalSplitType Sdc.SCHEME_CATMARK in
  _levels r = [baseLevel] ->
  _refinements r = [] ->
  getNumVertices baseLevel <> 0%Z ->
  _subdivType r = Sdc.SCHEME_CATMARK ->
  1 <= AdaptiveOptions.isolationLevel options ->
  (forall f, (0 <= f < getNumFaces baseLevel)%Z -> isFaceHole baseLevel f = false ->
     Z.of_nat (length (getFaceVertices baseLevel f))
     = getRegularFaceSize (newRefinement split baseLevel Level_new (_subdivOptions r))
     /\ _nonManifold (compFaceVTag baseLevel f) = false
     /\ _xordinary (compFaceVTag baseLevel f) = false
     /\ _rule (compFaceVTag baseLevel f) = Sdc.Crease.RULE_SMOOTH
     /\ forall channel, (0 <= channel < getNumFVarChannels baseLevel)%Z ->
                        doesFaceFVarTopologyMatch baseLevel f channel = true) ->
  RefineAdaptive options storage r
  = Some (set_farLevels [mkFarLevel None (Some 0) None]
            (set_maxLevel 0 (set_adaptiveOptions options (set_isUniform false r))),
          [NewLevel 1; NewRefinement 1 split; SelectComponents 1;
           DeleteRefinement 1; DeleteLevel 1]).
Proof.
  cbv zeta. intros Hlevels Hrefs Hverts Hscheme Hiso Hfaces.
  unfold RefineAdaptive. rewrite Hlevels. cbn [nth_error].
  apply Z.eqb_neq in Hverts. rewrite Hverts, Hrefs, Hscheme.
  cbn [length Nat.eqb negb Sdc.SchemeType_eqb]. cbv zeta.
  cbn [_subdivType set_adaptiveOptions set_isUniform].
  destruct (AdaptiveOptions.isolationLevel options) as [| passes] eqn:Hpasses; [lia |].
  cbn [adaptivePasses]. cbn [_levels set_adaptiveOptions set_isUniform Nat.sub].
  rewrite Hlevels. cbn [nth_error]. cbv zeta.
  cbn [_subdivType _subdivOptions set_adaptiveOptions set_isUniform].
  unfold adaptiveSelection at 1. cbv zeta.
  rewrite selection_of_smooth_regular_level.
  - cbn [fst snd _refinements set_adaptiveOptions set_isUniform]. rewrite Hrefs.
    cbn [length]. rewrite assembleFarLevels_spec.
    + cbn [_refinements set_maxLevel set_adaptiveOptions set_isUniform].
      rewrite Hrefs, Hscheme. reflexivity.
    + cbn [_levels _refinements set_maxLevel set_adaptiveOptions set_isUniform].
      now rewrite Hlevels, Hrefs.
  - cbn [getRefinement]. clear Hfaces.
    destruct (Sdc.GetTopologicalSplitType (_subdivType r)); reflexivity.
  - cbn [getRefinement]. rewrite Hscheme.
    assert (Hparent : parent (newRefinement (Sdc.GetTopologicalSplitType Sdc.SCHEME_CATMARK)
                                baseLevel Level_new (_subdivOptions r)) = baseLevel)
      by now destruct (Sdc.GetTopologicalSplitType _).
    rewrite Hparent. exact Hfaces.
Qed.

End SmoothBase.

(** ** The face-varying value count *)

Lemma GetNumFVarValuesTotal_fold (channel : Z) (levels : list Level) (sum : Z) :
  wrap_int (fold_left (fun sum l => wrap_int (sum + getNumFVarValues l channel))
                      levels sum)
  = wrap_int (sum + sumOver (fun l => getNumFVarValues l channel) levels).
Proof.
  revert sum. induction levels as [| l ls IH]; intros sum; cbn [fold_left].
  - unfold sumOver. cbn [fold_right]. now rewrite Z.add_0_r.
  - rewrite IH, wrap_int_add_l. unfold sumOver. cbn [fold_right]. f_equal. lia.
Qed.

(** The running sum is an [int] at every step. *)
Lemma GetNumFVarValuesTotal_wrapped (channel : Z) (levels : list Level) (sum : Z) :
  wrap_int (fold_left (fun sum l => wrap_int (sum + getNumFVarValues l channel))
                      levels (wrap_int sum))
  = fold_left (fun sum l => wrap_int (sum + getNumFVarValues l channel))
              levels (wrap_int sum).
Proof.
  revert sum. induction levels as [| l ls IH]; intros sum; cbn [fold_left].
  - apply wrap_int_idempotent.
  - apply IH.
Qed.

(** X16.  [GetNumFVarValuesTotal] adds up the values of the channel over
    the levels held, as an [int]: after [Unrefine] it is the base level's
    count, and before it was the [int] sum of that count and the counts of
    the levels [Unrefine] deleted, their sum wrapped around where it is not
    representable. *)
Theorem GetNumFVarValuesTotal_after_Unrefine
        (channel : Z) (r r' : TopologyRefiner) (events : list Event)
        (base : Level) (rest : list Level) :
  _levels r = base :: rest ->
  representable (getNumFVarValues base channel) ->
  Unrefine r = Some (r', events) ->
  GetNumFVarValuesTotal channel r' = getNumFVarValues base channel
  /\ GetNumFVarValuesTotal channel r
     = wrap_int (GetNumFVarValuesTotal channel r'
                 + sumOver (fun l => getNumFVarValues l channel) rest)%Z.
Proof.
  intros Hl Hbase H. rewrite (Unrefine_keeps_the_base_level_aux r base rest Hl) in H.
  injection H as <- _. unfold GetNumFVarValuesTotal. cbn [_levels].
  rewrite Hl. cbn [fold_left]. rewrite Z.add_0_l.
  rewrite (wrap_int_representable _ Hbase). split; [reflexivity |].
  rewrite <- (wrap_int_representable _ Hbase) at 1.
  rewrite <- GetNumFVarValuesTotal_wrapped, GetNumFVarValuesTotal_fold.
  now rewrite (wrap_int_representable _ Hbase).
Qed.

(** ** The further properties on the concrete meshes *)

Lemma refinedTwice_reachable :
  @reachable Sample.schemeTraits Sample.quadSplit (fst Sample.refinedTwice).
Proof.
  apply (@reach_RefineUniform Sample.schemeTraits Sample.quadSplit
           Sample.uniformTwo (Sample.withBase Sample.singleQuad)
           (fst Sample.refinedTwice) (snd Sample.refinedTwice)).
  - apply (@reach_populate Sample.schemeTraits Sample.quadSplit
             Sample.singleQuad Sample.constructed).
    + apply (@reach_new Sample.schemeTraits Sample.quadSplit
               Sdc.SCHEME_CATMARK (Sdc.Build_Options 0)).
      reflexivity.
    + reflexivity.
  - vm_compute. reflexivity.
Qed.

Lemma refinedTwice_levels :
  _levels (fst Sample.refinedTwice)
  = Sample.singleQuad :: tl (_levels (fst Sample.refinedTwice)).
Proof. vm_compute. reflexivity. Qed.

Lemma refinedTwice_Unrefine :
  Unrefine (fst Sample.refinedTwice)
  = Some (fst Cases.unrefined, snd Cases.unrefined).
Proof. vm_compute. reflexivity. Qed.

Lemma overflowing_reachable :
  @reachable Sample.schemeTraits Cases.sameShapeSplit (fst Cases.overflowing).
Proof.
  apply (@reach_RefineUniform Sample.schemeTraits Cases.sameShapeSplit
           Cases.uniformOne (Sample.withBase Cases.vastLevel)
           (fst Cases.overflowing) (snd Cases.overflowing)).
  - apply (@reach_populate Sample.schemeTraits Cases.sameShapeSplit
             Cases.vastLevel Sample.constructed).
    + apply (@reach_new Sample.schemeTraits Cases.sameShapeSplit
               Sdc.SCHEME_CATMARK (Sdc.Build_Options 0)).
      reflexivity.
    + reflexivity.
  - vm_compute. reflexivity.
Qed.

Lemma overflowing_levels :
  _levels (fst Cases.overflowing)
  = Cases.vastLevel :: tl (_levels (fst Cases.overflowing)).
Proof. vm_compute. reflexivity. Qed.

Lemma overflowing_Unrefine :
  Unrefine (fst Cases.overflowing)
  = Some (fst Cases.overflowingReset, snd Cases.overflowingReset).
Proof. vm_compute. reflexivity. Qed.

(** Two levels of 2000000000 vertices and 1000000000 faces each: the
    vertex total has wrapped around, the face total is the sum. *)
Lemma inventory_is_that_of_the_levels_witness :
  let r := fst Cases.overflowing in
  sumOver getNumVertices (_levels r) = 4000000000%Z
  /\ _totalVertices r = (-294967296)%Z
  /\ _totalFaces r = sumOver getNumFaces (_levels r).
Proof.
  cbv zeta.
  assert (Hbase : forall baseLevel,
            nth_error (_levels (fst Cases.overflowing)) 0 = Some baseLevel ->
            intCounts baseLevel).
  { intros baseLevel Hb. rewrite overflowing_levels in Hb. injection Hb as <-.
    unfold intCounts, representable, INT_MIN, INT_MAX. cbn. lia. }
  destruct (@inventory_is_that_of_the_levels Sample.schemeTraits Cases.sameShapeSplit
              (fst Cases.overflowing) overflowing_reachable Hbase)
    as [[Hv _] [_ [_ [Hf _]]]].
  split; [vm_compute; reflexivity |]. split.
  - rewrite Hv. vm_compute. reflexivity.
  - apply Hf.
    assert (Hsum : sumOver getNumFaces (_levels (fst Cases.overflowing))
                   = 2000000000%Z) by (vm_compute; reflexivity).
    rewrite Hsum. unfold representable, INT_MIN, INT_MAX. lia.
Defined.

(** The single quad refined uniformly twice: three views, the middle one
    between refinements 0 and 1. *)
Lemma level_views_follow_the_stacks_witness :
  let r := fst Sample.refinedTwice in
  length (_farLevels r) = 3
  /\ nth_error (_farLevels r) 1 = Some (mkFarLevel (Some 0) (Some 1) (Some 1))
  /\ nth_error (_farLevels r) 2 = Some (mkFarLevel (Some 1) (Some 2) None).
Proof.
  cbv zeta.
  destruct (@level_views_follow_the_stacks Sample.schemeTraits Sample.quadSplit
              (fst Sample.refinedTwice) refinedTwice_reachable) as [Hlen Hviews].
  assert (Hl : length (_levels (fst Sample.refinedTwice)) = 3)
    by (vm_compute; reflexivity).
  assert (Hr : length (_refinements (fst Sample.refinedTwice)) = 2)
    by (vm_compute; reflexivity).
  rewrite Hl in Hlen, Hviews. rewrite Hr in Hviews.
  split; [exact Hlen |]. split.
  - apply (Hviews 1). lia.
  - apply (Hviews 2). lia.
Defined.

(** The second refinement of the single quad lies between levels 1 and 2. *)
Lemma refinements_link_consecutive_levels_witness :
  exists ref,
    nth_error (_refinements (fst Sample.refinedTwice)) 1 = Some ref
    /\ nth_error (_levels (fst Sample.refinedTwice)) 1 = Some (parent ref)
    /\ nth_error (_levels (fst Sample.refinedTwice)) 2 = Some (child ref).
Proof.
  destruct (nth_error (_refinements (fst Sample.refinedTwice)) 1) as [ref |] eqn:Href.
  - exists ref. split; [reflexivity |].
    exact (@refinements_link_consecutive_levels Sample.schemeTraits Sample.quadSplit
             (fst Sample.refinedTwice) refinedTwice_reachable 1 ref Href).
  - vm_compute in Href. discriminate Href.
Defined.

(** The single quad refined twice, then reset: the base level is left, with
    its one face as the inventory. *)
Lemma Unrefine_keeps_the_base_level_witness :
  exists r' events,
    Unrefine (fst Sample.refinedTwice) = Some (r', events)
    /\ _levels r' = [Sample.singleQuad]
    /\ _refinements r' = []
    /\ _totalFaces r' = 1%Z.
Proof.
  eexists. eexists. split.
  - exact (Unrefine_keeps_the_base_level (fst Sample.refinedTwice) Sample.singleQuad
             (tl (_levels (fst Sample.refinedTwice))) refinedTwice_levels).
  - split; [reflexivity |]. split; reflexivity.
Defined.

Lemma Unrefine_twice_witness :
  Unrefine (fst Cases.unrefined) = Some (fst Cases.unrefined, []).
Proof.
  exact (Unrefine_twice (fst Sample.refinedTwice) (fst Cases.unrefined)
           (snd Cases.unrefined) refinedTwice_Unrefine).
Defined.

(** The single quad refined uniformly to depth 2. *)
Lemma RefineUniform_refines_densely_witness :
  exists r' events,
    Sample.refineUniform Sample.uniformTwo (Sample.withBase Sample.singleQuad)
    = Some (r', events)
    /\ _isUniform r' = true
    /\ _maxLevel r' = 2.
Proof.
  destruct (@RefineUniform_refines_densely Sample.schemeTraits Sample.quadSplit
              Sample.uniformTwo (Sample.withBase Sample.singleQuad) Sample.singleQuad
              eq_refl ltac:(discriminate) eq_refl)
    as [r' [events [Hcall [_ [Hu [Hm _]]]]]].
  exists r', events. repeat split; assumption.
Defined.

(** The pentagon mesh refined adaptively with isolation level 3. *)
Lemma RefineAdaptive_refines_sparsely_witness :
  exists r' events,
    Sample.refineAdaptive Sample.adaptiveThree Sample.zeroed
      (Sample.withBase Sample.pentagonMesh) = Some (r', events)
    /\ _adaptiveOptions r' = Sample.adaptiveThree
    /\ _isUniform r' = false.
Proof.
  destruct (@RefineAdaptive_refines_sparsely Sample.schemeTraits Sample.quadSplit
              Sample.adaptiveThree Sample.zeroed
              (Sample.withBase Sample.pentagonMesh) Sample.pentagonMesh
              eq_refl ltac:(discriminate) eq_refl eq_refl)
    as [r' [events [Hcall [Ha [Hu _]]]]].
  exists r', events. repeat split; assumption.
Defined.

(** After the single quad was refined to depth 2, a second uniform and an
    adaptive refinement are both refused. *)
Lemma refinement_is_refused_once_refined_witness :
  exists r' events message1 message2,
    Sample.refineUniform Sample.uniformTwo (Sample.withBase Sample.singleQuad)
    = Some (r', events)
    /\ Sample.refineUniform Cases.uniformOne r'
       = Some (r', [Error FAR_RUNTIME_ERROR message1])
    /\ Sample.refineAdaptive Sample.adaptiveThree Sample.zeroed r'
       = Some (r', [Error FAR_RUNTIME_ERROR message2]).
Proof.
  destruct (@refinement_is_refused_once_refined Sample.schemeTraits Sample.quadSplit
              Sample.uniformTwo (Sample.withBase Sample.singleQuad) Sample.singleQuad
              eq_refl ltac:(discriminate) eq_refl)
    as [r' [events [Hcall [_ Hrefused]]]].
  destruct (Hrefused ltac:(cbn; lia) Cases.uniformOne Sample.adaptiveThree Sample.zeroed)
    as [Hu Ha].
  exists r', events. eexists. eexists.
  split; [exact Hcall |]. split; [exact Hu | exact Ha].
Defined.

(** The single quad refined twice, reset, and refined once more. *)
Lemma Unrefine_then_RefineUniform_witness :
  exists r1 deleted r2 events,
    Unrefine (fst Sample.refinedTwice) = Some (r1, deleted)
    /\ Sample.refineUniform Cases.uniformOne r1 = Some (r2, events)
    /\ length (_levels r2) = 2.
Proof.
  destruct (@Unrefine_then_RefineUniform Sample.schemeTraits Sample.quadSplit
              Cases.uniformOne (fst Sample.refinedTwice) Sample.singleQuad
              (tl (_levels (fst Sample.refinedTwice)))
              refinedTwice_levels ltac:(discriminate))
    as [r1 [deleted [r2 [events [Hreset [Hcall [_ [_ [Hlen _]]]]]]]]].
  exists r1, deleted, r2, events. repeat split; assumption.
Defined.

(** Face 0 of [Cases.mixedLevel], a quad of sharp corners: selected with
    the reduced mask, so with the full one. *)
Lemma lessFeaturesMask_selects_among_moreFeaturesMask_witness :
  In 0%Z
    (selectedFaces (getRefinement
       (Sample.select Sdc.SCHEME_CATMARK
          (mkSelector (Refinement_new Sdc.SPLIT_TO_QUADS Cases.mixedLevel Level_new
                         (Sdc.Build_Options 0)))
          (fst (@adaptiveFeatureMasks Sample.schemeTraits Sample.adaptiveInfSharp
                  Sample.zeroed Sdc.SCHEME_CATMARK Sample.singleQuad))))).
Proof.
  apply (@lessFeaturesMask_selects_among_moreFeaturesMask Sample.schemeTraits
           Sample.adaptiveInfSharp Sample.zeroed Sdc.SCHEME_CATMARK Sample.singleQuad
           (mkSelector (Refinement_new Sdc.SPLIT_TO_QUADS Cases.mixedLevel Level_new
                          (Sdc.Build_Options 0)))
           0%Z).
  vm_compute. left. reflexivity.
Defined.

(** [Cases.mixedLevel], of depth 1: of its three quads the pass registers
    face 0 alone; face 1 is smooth, face 2 a hole. *)
Lemma selection_below_the_base_level_witness :
  selectedFaces (getRefinement
    (Sample.select Sdc.SCHEME_CATMARK
       (mkSelector (Refinement_new Sdc.SPLIT_TO_QUADS Cases.mixedLevel Level_new
                      (Sdc.Build_Options 0)))
       (Sample.maskOf Sample.adaptiveThree)))
  = [0%Z].
Proof.
  destruct (@selection_below_the_base_level Sample.schemeTraits Sdc.SCHEME_CATMARK
              (mkSelector (Refinement_new Sdc.SPLIT_TO_QUADS Cases.mixedLevel Level_new
                             (Sdc.Build_Options 0)))
              (Sample.maskOf Sample.adaptiveThree) ltac:(discriminate))
    as [Hsel _].
  unfold Sample.select. rewrite Hsel. vm_compute. reflexivity.
Defined.

(** Two smooth quads side by side: nothing to isolate. *)
Lemma RefineAdaptive_leaves_a_smooth_regular_base_witness :
  exists r',
    Sample.refineAdaptive Sample.adaptiveThree Sample.zeroed
      (Sample.withBase Cases.smoothQuads)
    = Some (r', [NewLevel 1; NewRefinement 1 Sdc.SPLIT_TO_QUADS; SelectComponents 1;
                 DeleteRefinement 1; DeleteLevel 1])
    /\ _levels r' = [Cases.smoothQuads]
    /\ _maxLevel r' = 0.
Proof.
  eexists. split.
  - apply (@RefineAdaptive_leaves_a_smooth_regular_base Sample.schemeTraits
             Sample.quadSplit Sample.adaptiveThree Sample.zeroed
             (Sample.withBase Cases.smoothQuads) Cases.smoothQuads
             eq_refl eq_refl ltac:(discriminate) eq_refl ltac:(cbn; lia)).
    intros f Hf _.
    assert (Hcases : f = 0%Z \/ f = 1%Z) by (cbn in Hf; lia).
    destruct Hcases as [-> | ->];
      (repeat split; try reflexivity; intros channel Hc; cbn in Hc; lia).
  - split; reflexivity.
Defined.

Lemma GetNumFVarValuesTotal_after_Unrefine_witness :
  exists r' events,
    Unrefine (fst Cases.overflowing) = Some (r', events)
    /\ GetNumFVarValuesTotal 0 r' = 2000000000%Z
    /\ GetNumFVarValuesTotal 0 (fst Cases.overflowing) = (-294967296)%Z.
Proof.
  assert (Hbase : representable (getNumFVarValues Cases.vastLevel 0)).
  { unfold representable, INT_MIN, INT_MAX. cbn. lia. }
  destruct (GetNumFVarValuesTotal_after_Unrefine 0%Z (fst Cases.overflowing)
              (fst Cases.overflowingReset) (snd Cases.overflowingReset)
              Cases.vastLevel (tl (_levels (fst Cases.overflowing)))
              overflowing_levels Hbase overflowing_Unrefine) as [Hafter Hbefore].
  exists (fst Cases.overflowingReset), (snd Cases.overflowingReset).
  split; [exact overflowing_Unrefine |]. split; [exact Hafter |].
  rewrite Hbefore. vm_compute. reflexivity.
Defined.

(** The single quad under [Cases.sameShapeSplit], isolation level 3 with
    secondary level 1: the second refinement, made by pass 2, holds the
    selection of the reduced mask. *)
Lemma secondaryLevel_splits_the_passes_witness :
  exists ref,
    nth_error (_refinements (fst Cases.isolatedQuad)) 1 = Some ref
    /\ selectedFaces ref
       = selectedFaces (getRefinement
           (Sample.select Sdc.SCHEME_CATMARK
              (mkSelector (Refinement_new Sdc.SPLIT_TO_QUADS (parent ref) Level_new
                             (Sdc.Build_Options 0)))
              (FeatureMask.ReduceFeatures Sample.adaptiveInfSharp
                 (fst (@adaptiveFeatureMasks Sample.schemeTraits
                         Sample.adaptiveInfSharp Sample.zeroed Sdc.SCHEME_CATMARK
                         Sample.singleQuad))))).
Proof.
  assert (Hcall : @RefineAdaptive Sample.schemeTraits Cases.sameShapeSplit
                    Sample.adaptiveInfSharp Sample.zeroed
                    (Sample.withBase Sample.singleQuad)
                  = Some (fst Cases.isolatedQuad, snd Cases.isolatedQuad))
    by (vm_compute; reflexivity).
  destruct (nth_error (_refinements (fst Cases.isolatedQuad)) 1) as [ref |] eqn:Href.
  - exists ref. split; [reflexivity |].
    exact (proj2 (@secondaryLevel_splits_the_passes Sample.schemeTraits
                    Cases.sameShapeSplit Sample.adaptiveInfSharp Sample.zeroed
                    (Sample.withBase Sample.singleQuad) (fst Cases.isolatedQuad)
                    (snd Cases.isolatedQuad) Sample.singleQuad
                    eq_refl ltac:(discriminate) eq_refl eq_refl Hcall 1 ref Href)).
  - vm_compute in Href. discriminate Href.
Defined.
